(** * mgodo: a generic record-operation layer over a document store

    A shallow embedding of [src/mgodo.go] (package [mgodo], built on
    [github.com/globalsign/mgo]) and the properties of its operations.

    The Go code manipulates a caller-supplied struct through [reflect],
    builds [bson.M] filters, and talks to two collections of one database
    through an [mgo.Session].  The embedding keeps that shape:

    - BSON values and documents ([value], [doc]) with the store's equality;
    - the fragment of the store's filter language that the code itself
      produces ([$and], [$ne]) plus a few sibling operators ([qmatch]);
    - the reflected struct ([structv], [iface]) with [FieldByName], [Set]
      and [Interface], which panic exactly where [reflect] panics;
    - the store ([World]): collections by name, the session's safe mode,
      a clock, a supply of object ids, injected store failures, and a
      trace of the calls the code issued;
    - a state monad [M] over the context [Do] and the [World], whose
      results are either a normal return or a Go panic. *)

From stdpp Require Import base strings list gmap.
From Stdlib Require Import ZArith Ascii Sorted Permutation.

Local Open Scope Z_scope.
Local Open Scope string_scope.
Local Open Scope list_scope.

Set Default Proof Using "Type".

(* ===================================================================== *)
(** ** BSON values *)
(* ===================================================================== *)

(** The Go slice types that occur as dynamic values in a [bson.M]:
    [[]interface{}], [[]bson.M] and [[]string].  The distinction matters
    for the type assertion [v.([]interface{})] in [findQ]. *)
Inductive SliceKind := SIface | SDocs | SStrings.

#[local] Unset Elimination Schemes.

(** Dynamic values: what an [interface{}] inside a [bson.M], or a field of
    the caller's struct, can hold.  [VTime t] is a [time.Time], [t]
    milliseconds after the zero [time.Time] (so [VTime 0] is the zero time);
    [VId o] is a [bson.ObjectId]; [VDoc d] is a [bson.M]. *)
Inductive value :=
| VNil
| VBool (b : bool)
| VInt (n : Z)
| VStr (s : string)
| VTime (t : Z)
| VId (o : N)
| VDoc (d : list (string * value))
| VSlice (k : SliceKind) (l : list value).

#[local] Set Elimination Schemes.

(** A document, and a [bson.M]: keys with their values.  A Go map has no
    duplicate keys; [doc_set] keeps it that way. *)
Abbreviation doc := (list (string * value)).

#[global] Instance SliceKind_eq_dec : EqDecision SliceKind.
Proof. solve_decision. Defined.

Definition value_eq_dec : ∀ x y : value, {x = y} + {x ≠ y}.
Proof.
  fix IH 1. intros x y.
  destruct x as [|b|n|s|t|o|d|k l], y as [|b'|n'|s'|t'|o'|d'|k' l'];
    try (right; discriminate); try (left; reflexivity).
  - destruct (decide (b = b')); [left; congruence | right; congruence].
  - destruct (decide (n = n')); [left; congruence | right; congruence].
  - destruct (decide (s = s')); [left; congruence | right; congruence].
  - destruct (decide (t = t')); [left; congruence | right; congruence].
  - destruct (decide (o = o')); [left; congruence | right; congruence].
  - assert (Hd : {d = d'} + {d ≠ d'}).
    { revert d'. induction d as [|[k v] d IHd]; intros [|[k' v'] d'];
        try (right; discriminate); try (left; reflexivity).
      destruct (decide (k = k')); [|right; congruence].
      destruct (IH v v'); [|right; congruence].
      destruct (IHd d'); [left; congruence | right; congruence]. }
    destruct Hd; [left; congruence | right; congruence].
  - destruct (decide (k = k')); [|right; congruence].
    assert (Hd : {l = l'} + {l ≠ l'}).
    { revert l'. induction l as [|v l IHl]; intros [|v' l'];
        try (right; discriminate); try (left; reflexivity).
      destruct (IH v v'); [|right; congruence].
      destruct (IHl l'); [left; congruence | right; congruence]. }
    destruct Hd; [left; congruence | right; congruence].
Defined.

#[global] Instance value_eqdec : EqDecision value := value_eq_dec.

(** [m[k]] with the "comma ok" form: the first (only) binding of [k]. *)
Fixpoint doc_get (k : string) (d : doc) : option value :=
  match d with
  | [] => None
  | (k', v) :: d' => if decide (k' = k) then Some v else doc_get k d'
  end.

(** [m[k] = v]: replaces the binding of [k], or adds one. *)
Fixpoint doc_set (k : string) (v : value) (d : doc) : doc :=
  match d with
  | [] => [(k, v)]
  | (k', v') :: d' =>
      if decide (k' = k) then (k, v) :: d' else (k', v') :: doc_set k v d'
  end.

(* ===================================================================== *)
(** ** The store's filter language *)
(* ===================================================================== *)

(** The store evaluates a filter document against a stored document.  The
    code only composes and forwards filters, so the fragment below is the
    one needed to give the composed filter a meaning: field equality, the
    field operators [$eq], [$ne], [$in], [$nin], [$exists], and the
    connectives [$and], [$or].  [None] is a filter outside the fragment,
    which the store answers with an error.  Field names are top-level
    keys (no dotted paths). *)

Definition oand (a b : option bool) : option bool :=
  match a, b with
  | Some x, Some y => Some (x && y)
  | _, _ => None
  end.

Definition oor (a b : option bool) : option bool :=
  match a, b with
  | Some x, Some y => Some (x || y)
  | _, _ => None
  end.

Definition is_operator (k : string) : bool :=
  match k with
  | String "$"%char _ => true
  | _ => false
  end.

(** Equality of a field with a literal, as the store has it: a missing
    field equals only null, and an array field equals [v] when it is [v]
    or holds [v]. *)
Definition field_eq (fv : option value) (v : value) : bool :=
  match fv with
  | None => bool_decide (v = VNil)
  | Some x =>
      bool_decide (x = v)
      || match x with
         | VSlice _ l => bool_decide (v ∈ l)
         | _ => false
         end
  end.

Definition field_op (fv : option value) (op : string) (arg : value)
  : option bool :=
  if decide (op = "$eq") then Some (field_eq fv arg)
  else if decide (op = "$ne") then Some (negb (field_eq fv arg))
  else if decide (op = "$in") then
    match arg with
    | VSlice _ l => Some (existsb (field_eq fv) l)
    | _ => None
    end
  else if decide (op = "$nin") then
    match arg with
    | VSlice _ l => Some (negb (existsb (field_eq fv) l))
    | _ => None
    end
  else if decide (op = "$exists") then
    match arg with
    | VBool b => Some (bool_decide (bool_decide (is_Some fv) = b))
    | _ => None
    end
  else None.

Fixpoint field_ops (fv : option value) (ops : doc) : option bool :=
  match ops with
  | [] => Some true
  | (op, arg) :: ops' => oand (field_op fv op arg) (field_ops fv ops')
  end.

(** The condition [{k: v}] on a field: an operator document when [v] is a
    document whose first key is an operator, a literal otherwise. *)
Definition field_cond (fv : option value) (v : value) : option bool :=
  match v with
  | VDoc ((op, arg) :: ops) =>
      if is_operator op then field_ops fv ((op, arg) :: ops)
      else Some (field_eq fv v)
  | _ => Some (field_eq fv v)
  end.

(** [qmatch d q]: does the stored document [d] satisfy the filter [q]
    (a [VDoc])?  All entries of a filter are conjoined. *)
Fixpoint qmatch (d : doc) (q : value) {struct q} : option bool :=
  match q with
  | VDoc es =>
      (fix entries (es : list (string * value)) : option bool :=
         match es with
         | [] => Some true
         | (k, v) :: es' =>
             oand
               (if decide (k = "$and") then
                  match v with
                  | VSlice _ l =>
                      (fix all (l : list value) : option bool :=
                         match l with
                         | [] => Some true
                         | x :: l' => oand (qmatch d x) (all l')
                         end) l
                  | _ => None
                  end
                else if decide (k = "$or") then
                  match v with
                  | VSlice _ l =>
                      (fix any (l : list value) : option bool :=
                         match l with
                         | [] => Some false
                         | x :: l' => oor (qmatch d x) (any l')
                         end) l
                  | _ => None
                  end
                else if is_operator k then None
                else field_cond (doc_get k d) v)
               (entries es')
         end) es
  | _ => None
  end.

Definition matches (d : doc) (q : doc) : option bool := qmatch d (VDoc q).

(** The two recursions inside [qmatch], named. *)
Fixpoint qmatch_all (d : doc) (l : list value) : option bool :=
  match l with
  | [] => Some true
  | x :: l' => oand (qmatch d x) (qmatch_all d l')
  end.

Fixpoint qmatch_any (d : doc) (l : list value) : option bool :=
  match l with
  | [] => Some false
  | x :: l' => oor (qmatch d x) (qmatch_any d l')
  end.

Definition qmatch_entry (d : doc) (k : string) (v : value) : option bool :=
  if decide (k = "$and") then
    match v with
    | VSlice _ l => qmatch_all d l
    | _ => None
    end
  else if decide (k = "$or") then
    match v with
    | VSlice _ l => qmatch_any d l
    | _ => None
    end
  else if is_operator k then None
  else field_cond (doc_get k d) v.

(* ===================================================================== *)
(** ** The caller's record, seen through [reflect] *)
(* ===================================================================== *)

(** Static Go types of struct fields and of the values the code stores
    in them.  [TIface] is [interface{}]; [TM] is [bson.M]. *)
Inductive gotype :=
| TBool | TInt | TString | TTime | TObjectId | TM
| TSlice (k : SliceKind)
| TIface.

#[global] Instance gotype_eq_dec : EqDecision gotype.
Proof. solve_decision. Defined.

(** [reflect.TypeOf]: the dynamic type of a value; a nil interface has
    none. *)
Definition type_of (v : value) : option gotype :=
  match v with
  | VNil => None
  | VBool _ => Some TBool
  | VInt _ => Some TInt
  | VStr _ => Some TString
  | VTime _ => Some TTime
  | VId _ => Some TObjectId
  | VDoc _ => Some TM
  | VSlice k _ => Some (TSlice k)
  end.

(** Go's assignability between the types above: identical types, or any
    type to [interface{}]. *)
Definition assignable (src dst : gotype) : bool :=
  bool_decide (src = dst) || bool_decide (dst = TIface).

Definition zero_value (t : gotype) : value :=
  match t with
  | TBool => VBool false
  | TInt => VInt 0
  | TString => VStr ""
  | TTime => VTime 0
  | TObjectId => VId 0
  | TM | TSlice _ | TIface => VNil
  end.

(** A struct field: its Go name, the key [bson] stores it under (from the
    field's tag), its declared type and its current value. *)
Record field := Field {
  fname : string;
  fkey : string;
  ftype : gotype;
  fval : value;
}.

Record structv := Struct {
  sname : string;          (* the type's name, [reflect.Type.Name] *)
  sfields : list field;
}.

(** What the [model interface{}] of a [Do] can hold: nil, a [string], a
    struct by value, or a pointer to a struct. *)
Inductive iface :=
| INil
| IString (s : string)
| IStruct (sv : structv)
| IPtr (sv : structv).

(** [getModelName]: a string names itself; otherwise the type's name,
    through one pointer.  [reflect.TypeOf(nil)] is a nil [Type] and
    [typ.Kind()] on it panics: [None]. *)
Definition getModelName (m : iface) : option string :=
  match m with
  | IString s => Some s
  | IStruct sv | IPtr sv => Some (sname sv)
  | INil => None
  end.

(** [reflect.ValueOf(m).Elem()]: defined on a pointer only. *)
Definition reflect_Elem (m : iface) : option structv :=
  match m with
  | IPtr sv => Some sv
  | _ => None
  end.

Fixpoint find_field (n : string) (fs : list field) : option field :=
  match fs with
  | [] => None
  | f :: fs' => if decide (fname f = n) then Some f else find_field n fs'
  end.

Definition with_fval (v : value) (f : field) : field :=
  {| fname := fname f; fkey := fkey f; ftype := ftype f; fval := v |}.

Fixpoint update_field (n : string) (v : value) (fs : list field) : list field :=
  match fs with
  | [] => []
  | f :: fs' =>
      if decide (fname f = n) then with_fval v f :: fs'
      else f :: update_field n v fs'
  end.

(** Can [Value.Set] store [v] in the field named [n]?  The field must
    exist and [v]'s type must be assignable to the field's. *)
Definition settable (n : string) (v : value) (sv : structv) : bool :=
  match find_field n (sfields sv), type_of v with
  | Some f, Some t => assignable t (ftype f)
  | _, _ => false
  end.

Definition set_field (n : string) (v : value) (sv : structv) : structv :=
  {| sname := sname sv; sfields := update_field n v (sfields sv) |}.

(** [bson.Marshal] of the struct: one entry per field under its key.  Two
    fields with one key are refused by [bson] ("Duplicated key"), which
    the store call reports as its error: [None]. *)
Definition marshal (sv : structv) : option doc :=
  if decide (NoDup (fkey <$> sfields sv))
  then Some ((λ f, (fkey f, fval f)) <$> sfields sv)
  else None.

(** [bson.Unmarshal] of a document into the struct: the struct is zeroed,
    then every field whose key the document binds to a value of a fitting
    type takes that value. *)
Definition decode_field (d : doc) (f : field) : field :=
  with_fval
    match doc_get (fkey f) d with
    | Some v =>
        match type_of v with
        | Some t => if assignable t (ftype f) then v else zero_value (ftype f)
        | None => zero_value (ftype f)
        end
    | None => zero_value (ftype f)
    end f.

Definition unmarshal (d : doc) (sv : structv) : structv :=
  {| sname := sname sv; sfields := decode_field d <$> sfields sv |}.

(* ===================================================================== *)
(** ** The store *)
(* ===================================================================== *)

(** Errors a store call returns.  [ErrNotFound] is [mgo.ErrNotFound];
    [ErrMarshal] is [bson]'s refusal to encode or decode a value;
    [ErrBadQuery] and [ErrImmutableId] are the server's refusals of a
    filter and of a change of [_id]; [ErrStore] stands for any other
    failure of the store or the connection. *)
Inductive error :=
| ErrNotFound
| ErrMarshal
| ErrBadQuery
| ErrImmutableId
| ErrStore (code : nat).

#[global] Instance error_eq_dec : EqDecision error.
Proof. solve_decision. Defined.

(** A Go [error]: [None] is nil. *)
Abbreviation goerr := (option error).

(** An [*mgo.Query] as built by [Find], [Sort], [Skip], [Limit] and
    [Select]: a description the store runs later.  A sort key is a field
    name with its direction ([true]: descending). *)
Record MQuery := MkQuery {
  qcoll : string;
  qfilter : doc;
  qsort : list (string * bool);
  qskip : Z;
  qlimit : Z;
  qselect : doc;
}.

Inductive qkind := KOne | KAll | KCount | KDistinct (key : string).

(** The calls the code issues to the store, in order. *)
Inductive event :=
| EvUpsert (c : string) (selector : doc) (set : option doc)
| EvRemove (c : string) (selector : doc)
| EvRemoveAll (c : string) (selector : option doc)
| EvRun (k : qkind) (q : MQuery).

(** The world outside the [Do]: the database's collections by name, the
    session's safe mode ([Session.SetSafe]; on by default), the clock
    behind [time.Now], the supply behind [bson.NewObjectId], the failures
    the store is going to report (one entry per call, [None] or nothing
    left: the call goes through), and the calls issued so far. *)
Record World := MkWorld {
  db : gmap string (list doc);
  safe : bool;
  clock : positive;
  nextId : positive;
  faults : list goerr;
  trace : list event;
}.

Definition coll (c : string) (w : World) : list doc := default [] (db w !! c).

Definition set_coll (c : string) (docs : list doc) (w : World) : World :=
  {| db := <[c := docs]> (db w); safe := safe w; clock := clock w;
     nextId := nextId w; faults := faults w; trace := trace w |}.

(** A call reaches the store: it is recorded, and the next scheduled
    failure, if any, is taken. *)
Definition call (e : event) (w : World) : goerr * World :=
  (mjoin (head (faults w)),
   {| db := db w; safe := safe w; clock := clock w; nextId := nextId w;
      faults := tail (faults w); trace := trace w ++ [e] |}).

(** A write's server-side verdict reaches the client in safe mode only. *)
Definition acknowledged (w : World) (e : goerr) : goerr :=
  if safe w then e else None.

Definition is_match (q : doc) (d : doc) : Prop := matches d q = Some true.

#[global] Instance is_match_dec q d : Decision (is_match q d).
Proof. unfold is_match. apply _. Defined.

(** The store refuses a filter outside its language whatever it holds. *)
Definition well_formed (q : doc) : bool := bool_decide (is_Some (matches [] q)).

(** [$set]: every entry of [s] assigned in [d]. *)
Definition apply_set (s : doc) (d : doc) : doc :=
  fold_left (λ d kv, doc_set kv.1 kv.2 d) s d.

(** Replace the first document satisfying [q]. *)
Fixpoint replace_first (q : doc) (new : doc → doc) (docs : list doc) : list doc :=
  match docs with
  | [] => []
  | d :: docs' =>
      if decide (is_match q d) then new d :: docs'
      else d :: replace_first q new docs'
  end.

Fixpoint remove_first (q : doc) (docs : list doc) : list doc :=
  match docs with
  | [] => []
  | d :: docs' =>
      if decide (is_match q d) then docs' else d :: remove_first q docs'
  end.

(** The document an upsert inserts when nothing matches starts from the
    selector's literal fields. *)
Definition is_literal (kv : string * value) : bool :=
  negb (is_operator kv.1)
  && match kv.2 with
     | VDoc ((op, _) :: _) => negb (is_operator op)
     | _ => true
     end.

Definition seed (selector : doc) : doc := List.filter is_literal selector.

(** [Collection.Upsert(selector, bson.M{"$set": x})] where [x] marshals
    to [set]: the first matching document gets the fields of [set]; when
    none matches a new one is inserted.  The store refuses a change of
    [_id]. *)
Definition store_Upsert (c : string) (selector : doc) (set : option doc)
    (w : World) : goerr * World :=
  match set with
  | None => (Some ErrMarshal, w)
  | Some s =>
      let '(f, w1) := call (EvUpsert c selector set) w in
      match f with
      | Some e => (Some e, w1)
      | None =>
          if negb (well_formed selector) then
            (acknowledged w1 (Some ErrBadQuery), w1)
          else
            let docs := coll c w1 in
            let old :=
              match filter (is_match selector) docs with
              | d :: _ => d
              | [] => seed selector
              end in
            if bool_decide (doc_get "_id" old = None
                            ∨ doc_get "_id" (apply_set s old) = doc_get "_id" old)
            then
              match filter (is_match selector) docs with
              | _ :: _ =>
                  (None, set_coll c (replace_first selector (apply_set s) docs) w1)
              | [] => (None, set_coll c (docs ++ [apply_set s old]) w1)
              end
            else (acknowledged w1 (Some ErrImmutableId), w1)
      end
  end.

(** [Collection.Remove(selector)]: removes the first matching document;
    in safe mode, [ErrNotFound] when there is none. *)
Definition store_Remove (c : string) (selector : doc) (w : World)
    : goerr * World :=
  let '(f, w1) := call (EvRemove c selector) w in
  match f with
  | Some e => (Some e, w1)
  | None =>
      if negb (well_formed selector) then
        (acknowledged w1 (Some ErrBadQuery), w1)
      else
        match filter (is_match selector) (coll c w1) with
        | _ :: _ => (None, set_coll c (remove_first selector (coll c w1)) w1)
        | [] => (acknowledged w1 (Some ErrNotFound), w1)
        end
  end.

(** [Collection.RemoveAll(selector)]: removes every matching document; a
    nil selector matches all. *)
Definition store_RemoveAll (c : string) (selector : option doc) (w : World)
    : goerr * World :=
  let '(f, w1) := call (EvRemoveAll c selector) w in
  match f with
  | Some e => (Some e, w1)
  | None =>
      let q := default [] selector in
      if negb (well_formed q) then
        (acknowledged w1 (Some ErrBadQuery), w1)
      else
        (None, set_coll c (filter (λ d, ¬ is_match q d) (coll c w1)) w1)
  end.

(* --------------------------------------------------------------------- *)
(** *** Running a query *)
(* --------------------------------------------------------------------- *)

(** BSON's order between values of different types, and the usual order
    within one scalar type.  Documents and arrays are not ordered further
    among themselves. *)
Definition bson_rank (v : option value) : Z :=
  match v with
  | None | Some VNil => 1
  | Some (VInt _) => 2
  | Some (VStr _) => 3
  | Some (VDoc _) => 4
  | Some (VSlice _ _) => 5
  | Some (VId _) => 7
  | Some (VBool _) => 8
  | Some (VTime _) => 9
  end.

Definition value_cmp (a b : option value) : comparison :=
  match a, b with
  | Some (VInt x), Some (VInt y) => Z.compare x y
  | Some (VStr x), Some (VStr y) => String.compare x y
  | Some (VId x), Some (VId y) => N.compare x y
  | Some (VBool x), Some (VBool y) => Bool.compare x y
  | Some (VTime x), Some (VTime y) => Z.compare x y
  | _, _ => Z.compare (bson_rank a) (bson_rank b)
  end.

(** Lexicographic comparison of two documents under the sort keys. *)
Fixpoint doc_cmp (keys : list (string * bool)) (d1 d2 : doc) : comparison :=
  match keys with
  | [] => Eq
  | (f, desc) :: keys' =>
      let c := value_cmp (doc_get f d1) (doc_get f d2) in
      match (if desc then CompOpp c else c) with
      | Eq => doc_cmp keys' d1 d2
      | c' => c'
      end
  end.

Definition doc_le (keys : list (string * bool)) (d1 d2 : doc) : bool :=
  match doc_cmp keys d1 d2 with
  | Gt => false
  | _ => true
  end.

(** A stable sort: documents that compare equal keep the store's order. *)
Fixpoint insert_sorted (keys : list (string * bool)) (x : doc) (l : list doc)
  : list doc :=
  match l with
  | [] => [x]
  | y :: l' =>
      if doc_le keys x y then x :: y :: l' else y :: insert_sorted keys x l'
  end.

Definition sort_docs (keys : list (string * bool)) (l : list doc) : list doc :=
  foldr (insert_sorted keys) [] l.

Definition skip_docs (n : Z) (l : list doc) : list doc := drop (Z.to_nat n) l.

(** A limit of zero is no limit; the store takes a negative limit by its
    magnitude. *)
Definition limit_docs (n : Z) (l : list doc) : list doc :=
  if decide (n = 0) then l else take (Z.abs_nat n) l.

(** A projection [{c1: 1, c2: 1, ...}] keeps [_id] and the named fields;
    the empty projection keeps everything. *)
Definition project (sel : doc) (d : doc) : doc :=
  match sel with
  | [] => d
  | _ => filter (λ kv, kv.1 = "_id" ∨ is_Some (doc_get kv.1 sel)) d
  end.

(** The documents of a cursor for [q], in order. *)
Definition cursor (q : MQuery) (w : World) : list doc :=
  project (qselect q)
    <$> limit_docs (qlimit q)
          (skip_docs (qskip q)
             (sort_docs (qsort q) (filter (is_match (qfilter q)) (coll (qcoll q) w)))).

(** What a query returns to the client, by the way it is run. *)
Inductive reply :=
| ROne (d : doc)
| RAll (ds : list doc)
| RCount (n : Z)
| RDistinct (vs : list value).

(** The values the store's [distinct] command takes from one document
    for a top-level key: the field's value, or each element of it when
    it is an array; nothing when the document has no such field. *)
Definition distinct_values (key : string) (d : doc) : list value :=
  match doc_get key d with
  | Some (VSlice _ l) => l
  | Some v => [v]
  | None => []
  end.

(** [Query.One], [Query.All], [Query.Count], [Query.Distinct].  [One]
    returns the cursor's first document or [ErrNotFound]; [Count] counts
    under skip and limit; [Distinct] ranges over every match. *)
Definition store_Run (k : qkind) (q : MQuery) (w : World)
    : (error + reply) * World :=
  let '(f, w1) := call (EvRun k q) w in
  match f with
  | Some e => (inl e, w1)
  | None =>
      if negb (well_formed (qfilter q)) then (inl ErrBadQuery, w1)
      else
        match k with
        | KOne =>
            match cursor q w1 with
            | d :: _ => (inr (ROne d), w1)
            | [] => (inl ErrNotFound, w1)
            end
        | KAll => (inr (RAll (cursor q w1)), w1)
        | KCount => (inr (RCount (Z.of_nat (length (cursor q w1)))), w1)
        | KDistinct key =>
            (inr (RDistinct
                    (remove_dups
                       (filter (is_match (qfilter q)) (coll (qcoll q) w1)
                          ≫= distinct_values key))),
             w1)
        end
  end.

(** [Query.Sort]: a leading [-] sorts descending, a leading [+] or none
    ascending; an empty field name panics: [None]. *)
Definition parse_sort (f : string) : option (string * bool) :=
  match f with
  | "" => None
  | String c rest =>
      if decide (c = "-"%char) then
        (if decide (rest = "") then None else Some (rest, true))
      else if decide (c = "+"%char) then
        (if decide (rest = "") then None else Some (rest, false))
      else Some (f, false)
  end.

Definition parse_sorts (fs : list string) : option (list (string * bool)) :=
  mapM parse_sort fs.

(* ===================================================================== *)
(** ** The operation context and its monad *)
(* ===================================================================== *)

(** [type Do struct].  [session], [collection] and [logCollection] are
    handles into the [World]: the collections are kept by their names.  A
    nil [Query] or [Sort] is [None]. *)
Record Do := MkDo {
  model : iface;
  collection : string;
  logCollection : string;
  Query : option doc;
  Sort : option (list string);
  Skip : Z;
  Limit : Z;
  Operator : string;
  Reason : string;
}.

Record State := MkState {
  ctx : Do;
  world : World;
}.

(** A method call either returns (a value, with the state it leaves) or
    panics. *)
Inductive outcome (A : Type) :=
| Done (a : A) (s : State)
| Panic (msg : string) (s : State).
Arguments Done {A} a s.
Arguments Panic {A} msg s.

Definition M (A : Type) : Type := State → outcome A.

#[global] Instance M_ret : MRet M := λ A a s, Done a s.

#[global] Instance M_bind : MBind M := λ A B k m s,
  match m s with
  | Done a s' => k a s'
  | Panic msg s' => Panic msg s'
  end.

Definition panic {A} (msg : string) : M A := λ s, Panic msg s.

Definition gets {A} (f : Do → A) : M A := λ s, Done (f (ctx s)) s.

Definition set_model (m : iface) (c : Do) : Do :=
  {| model := m; collection := collection c; logCollection := logCollection c;
     Query := Query c; Sort := Sort c; Skip := Skip c; Limit := Limit c;
     Operator := Operator c; Reason := Reason c |}.

Definition set_Query (q : option doc) (c : Do) : Do :=
  {| model := model c; collection := collection c;
     logCollection := logCollection c;
     Query := q; Sort := Sort c; Skip := Skip c; Limit := Limit c;
     Operator := Operator c; Reason := Reason c |}.

Definition modify (f : Do → Do) : M unit :=
  λ s, Done tt {| ctx := f (ctx s); world := world s |}.

(** A call into the world. *)
Definition lift {A} (f : World → A * World) : M A :=
  λ s, let '(a, w) := f (world s) in Done a {| ctx := ctx s; world := w |}.

(** The clock moves on at every reading. *)
Definition tick (w : World) : World :=
  {| db := db w; safe := safe w; clock := Pos.succ (clock w);
     nextId := nextId w; faults := faults w; trace := trace w |}.

(** An id that was handed out is not handed out again. *)
Definition take_id (w : World) : World :=
  {| db := db w; safe := safe w; clock := clock w;
     nextId := Pos.succ (nextId w); faults := faults w; trace := trace w |}.

(** [time.Now()]: the clock's reading, never the zero time. *)
Definition time_Now : M value :=
  lift (λ w, (VTime (Z.pos (clock w)), tick w)).

(** [bson.NewObjectId()]: the next unused id, never the zero id. *)
Definition NewObjectId : M value :=
  lift (λ w, (VId (N.pos (nextId w)), take_id w)).

(** A [reflect.Value] for a field of the model: the field's name when the
    struct has it, the zero [Value] otherwise. *)
Abbreviation rvalue := (option string).

(** [reflect.ValueOf(m.model).Elem().FieldByName(n)]. *)
Definition FieldByName (n : string) : M rvalue :=
  m ← gets model;
  match reflect_Elem m with
  | None => panic "reflect: call of reflect.Value.Elem on a non-pointer Value"
  | Some sv => mret (fname <$> find_field n (sfields sv))
  end.

(** [x.Set(reflect.ValueOf(v))]. *)
Definition Value_Set (x : rvalue) (v : value) : M unit :=
  m ← gets model;
  match x, reflect_Elem m with
  | Some n, Some sv =>
      if settable n v sv then modify (set_model (IPtr (set_field n v sv)))
      else panic "reflect.Set: value is not assignable to the field's type"
  | _, _ => panic "reflect: call of reflect.Value.Set on zero Value"
  end.

(** [x.Interface()]: the field's current value. *)
Definition Value_Interface (x : rvalue) : M value :=
  m ← gets model;
  match x, reflect_Elem m with
  | Some n, Some sv =>
      match find_field n (sfields sv) with
      | Some f => mret (fval f)
      | None => panic "reflect: call of reflect.Value.Interface on zero Value"
      end
  | _, _ => panic "reflect: call of reflect.Value.Interface on zero Value"
  end.

(** [bson.M{"$set": m.model}] as the store will marshal it. *)
Definition marshal_model : M (option doc) :=
  m ← gets model;
  mret match m with
      | IPtr sv | IStruct sv => marshal sv
      | _ => None
      end.

(* ===================================================================== *)
(** ** The change log *)
(* ===================================================================== *)

(** Modelled from the spec: the declarations of the operation kinds
    [UPDATE], [DELETE], [ERASE] passed to [saveLog] are not in
    [mgodo.go]; the spec names them as a closed enumeration of operation
    kinds, taken here as the strings of their names. *)
Definition UPDATE : string := "UPDATE".
Definition DELETE : string := "DELETE".
Definition ERASE : string := "ERASE".

(** Modelled from the spec: the declaration of [type ChangeLog struct] is
    not in [mgodo.go].  Its fields are those [saveLog] assigns, which are
    the spec's "ChangeLog entry"; each is stored under its own name, the
    identity under [_id]. *)
Record ChangeLog := MkChangeLog {
  cl_Id : value;
  cl_CreatedBy : string;
  cl_CreatedAt : value;
  cl_ChangeReason : string;
  cl_Operation : string;
  cl_ModelObjId : value;
  cl_ModelName : string;
  cl_ModelValue : value;
}.

Definition marshal_ChangeLog (cl : ChangeLog) : doc :=
  [ ("_id", cl_Id cl);
    ("CreatedBy", VStr (cl_CreatedBy cl));
    ("CreatedAt", cl_CreatedAt cl);
    ("ChangeReason", VStr (cl_ChangeReason cl));
    ("Operation", VStr (cl_Operation cl));
    ("ModelObjId", cl_ModelObjId cl);
    ("ModelName", VStr (cl_ModelName cl));
    ("ModelValue", cl_ModelValue cl) ].

(* ===================================================================== *)
(** ** The methods of [Do] *)
(* ===================================================================== *)

(** [NewDo]: the record's collection is named after the model, the log's
    is ["ChangeLog"].  [None]: [getModelName] panicked. *)
Definition NewDo (m : iface) (operator reason : string) : option Do :=
  c ← getModelName m;
  Some {| model := m; collection := c; logCollection := "ChangeLog";
          Query := None; Sort := None; Skip := 0; Limit := 0;
          Operator := operator; Reason := reason |}.

(** [m.collection.Upsert(bson.M{"_id": id}, bson.M{"$set": m.model})]. *)
Definition upsert_model (id : value) : M goerr :=
  c ← gets collection;
  set ← marshal_model;
  lift (store_Upsert c [("_id", id)] set).

Definition Create : M goerr :=
  id ← FieldByName "Id";
  oid ← NewObjectId;
  Value_Set id oid;;
  x ← FieldByName "CreatedAt";
  now ← time_Now;
  Value_Set x now;;
  by' ← FieldByName "CreatedBy";
  op ← gets Operator;
  Value_Set by' (VStr op);;
  idv ← Value_Interface id;
  upsert_model idv.

Definition Save : M goerr :=
  id ← FieldByName "Id";
  x ← FieldByName "UpdatedAt";
  now ← time_Now;
  Value_Set x now;;
  by' ← FieldByName "UpdatedBy";
  op ← gets Operator;
  Value_Set by' (VStr op);;
  idv ← Value_Interface id;
  upsert_model idv.

(** [m.collection.RemoveId(id)] is [Remove(bson.D{{"_id", id}})]. *)
Definition Erase : M goerr :=
  id ← FieldByName "Id";
  idv ← Value_Interface id;
  c ← gets collection;
  lift (store_Remove c [("_id", idv)]).

Definition Delete : M goerr :=
  id ← FieldByName "Id";
  x ← FieldByName "RemovedAt";
  now ← time_Now;
  Value_Set x now;;
  by' ← FieldByName "RemovedBy";
  op ← gets Operator;
  Value_Set by' (VStr op);;
  removed ← FieldByName "IsRemoved";
  Value_Set removed (VBool true);;
  idv ← Value_Interface id;
  upsert_model idv.

(** [m.collection.FindId(id)] is [Find(bson.D{{"_id", id}})]. *)
Definition FindId (c : string) (id : value) : MQuery :=
  {| qcoll := c; qfilter := [("_id", id)]; qsort := []; qskip := 0;
     qlimit := 0; qselect := [] |}.

Definition saveLog (operation : string) : M goerr :=
  id ← FieldByName "Id";
  idv ← Value_Interface id;
  match idv with
  | VId _ =>
      c ← gets collection;
      r ← lift (store_Run KOne (FindId c idv));
      match r with
      | inl e => mret (Some e)
      | inr rep =>
          let record := match rep with ROne d => VDoc d | _ => VNil end in
          clid ← NewObjectId;
          op ← gets Operator;
          now ← time_Now;
          reason ← gets Reason;
          m ← gets model;
          match getModelName m with
          | None => panic "invalid memory address or nil pointer dereference"
          | Some name =>
              let cl :=
                {| cl_Id := clid; cl_CreatedBy := op; cl_CreatedAt := now;
                   cl_ChangeReason := reason; cl_Operation := operation;
                   cl_ModelObjId := idv; cl_ModelName := name;
                   cl_ModelValue := record |} in
              lc ← gets logCollection;
              lift (store_Upsert lc [("_id", cl_Id cl)]
                      (Some (marshal_ChangeLog cl)))
          end
      end
  | _ => panic "interface conversion: interface {} is not bson.ObjectId"
  end.

Definition SaveWithLog : M goerr :=
  err ← Save;
  match err with
  | Some e => mret (Some e)
  | None =>
      err ← saveLog UPDATE;
      match err with
      | Some e => mret (Some e)
      | None => mret None
      end
  end.

Definition EraseWithLog : M goerr :=
  err ← saveLog ERASE;
  match err with
  | Some e => mret (Some e)
  | None => Erase
  end.

Definition DeleteWithLog : M goerr :=
  err ← saveLog DELETE;
  match err with
  | Some e => mret (Some e)
  | None =>
      err ← Delete;
      match err with
      | Some e => mret (Some e)
      | None => mret None
      end
  end.

(** The two conditions [findQ] adds: not flagged removed under either
    spelling of the flag. *)
Definition rmQ : list value :=
  [ VDoc [("is_removed", VDoc [("$ne", VBool true)])];
    VDoc [("IsRemoved", VDoc [("$ne", VBool true)])] ].

Definition findQ : M MQuery :=
  q ← gets Query;
  match q with
  | Some q =>
      match doc_get "$and" q with
      | None => modify (set_Query (Some (doc_set "$and" (VSlice SIface rmQ) q)))
      | Some (VSlice SIface v) =>
          modify (set_Query (Some (doc_set "$and" (VSlice SIface (v ++ rmQ)) q)))
      | Some _ =>
          panic "interface conversion: interface {} is not []interface {}"
      end
  | None => modify (set_Query (Some [("$and", VSlice SIface rmQ)]))
  end;;
  q ← gets Query;
  c ← gets collection;
  sort ← gets Sort;
  keys ←
    match sort with
    | Some fs =>
        match parse_sorts fs with
        | Some keys => mret keys
        | None => panic "Sort: empty field name"
        end
    | None => mret [("UpdatedAt", true); ("CreatedAt", true)]
    end;
  skip ← gets Skip;
  limit ← gets Limit;
  mret {| qcoll := c; qfilter := default [] q; qsort := keys;
          qskip := (if decide (skip ≠ 0) then skip else 0);
          qlimit := (if decide (limit ≠ 0) then limit else 0);
          qselect := [] |}.

Definition Q : M MQuery := findQ.

Definition findByIdQ : M MQuery :=
  id ← FieldByName "Id";
  idv ← Value_Interface id;
  modify (set_Query (Some [("_id", idv)]));;
  findQ.

(** [Query.Select]. *)
Definition Select (sCols : doc) (q : MQuery) : MQuery :=
  {| qcoll := qcoll q; qfilter := qfilter q; qsort := qsort q;
     qskip := qskip q; qlimit := qlimit q; qselect := sCols |}.

(** [count, _ := query.Count()]: the error is dropped; a failed count
    leaves [count] at 0. *)
Definition Count : M Z :=
  query ← findQ;
  r ← lift (store_Run KCount query);
  mret match r with
       | inr (RCount n) => n
       | _ => 0
       end.

(** [query.All(i)]: the documents written to [*i], and the error. *)
Definition Query_All (query : MQuery) : M (list doc * goerr) :=
  r ← lift (store_Run KAll query);
  mret match r with
       | inr (RAll ds) => (ds, None)
       | inr _ => ([], None)
       | inl e => ([], Some e)
       end.

(** [query.One(m.model)]: on success the model is overwritten with the
    decoded document; [bson] refuses to decode into anything but a
    pointer. *)
Definition Query_One_model (query : MQuery) : M goerr :=
  r ← lift (store_Run KOne query);
  match r with
  | inr (ROne d) =>
      m ← gets model;
      match m with
      | IPtr sv => modify (set_model (IPtr (unmarshal d sv)));; mret None
      | _ => mret (Some ErrMarshal)
      end
  | inr _ => mret None
  | inl e => mret (Some e)
  end.

Definition FindAll : M (list doc * goerr) :=
  query ← findQ;
  Query_All query.

Definition Get : M goerr :=
  query ← findByIdQ;
  Query_One_model query.

Definition GetByQ : M goerr :=
  query ← findQ;
  Query_One_model query.

(** [sCols[v] = 1] for every [v] of [cols]. *)
Definition select_cols (cols : list string) : doc :=
  fold_left (λ sCols v, doc_set v (VInt 1) sCols) cols [].

Definition FindWithSelect (cols : list string) : M (list doc * goerr) :=
  query ← findQ;
  Query_All (Select (select_cols cols) query).

(** [Query.Distinct(key, i)]: the values written to [*i], and the error. *)
Definition Distinct (key : string) : M (list value * goerr) :=
  query ← findQ;
  r ← lift (store_Run (KDistinct key) query);
  mret match r with
       | inr (RDistinct vs) => (vs, None)
       | inr _ => ([], None)
       | inl e => ([], Some e)
       end.

Definition GetWithSelect (cols : list string) : M goerr :=
  query ← findByIdQ;
  Query_One_model (Select (select_cols cols) query).

Definition EraseAll : M goerr :=
  q ← gets Query;
  c ← gets collection;
  lift (store_RemoveAll c q).

(** The reads that go through the filter builder, as one type, each run
    for its effect on the state. *)
Inductive read_op :=
| OpQ
| OpCount
| OpFindAll
| OpGetByQ
| OpFindWithSelect (cols : list string)
| OpDistinct (key : string)
| OpGet
| OpGetWithSelect (cols : list string).

Definition run_read (o : read_op) : M unit :=
  match o with
  | OpQ => Q;; mret ()
  | OpCount => Count;; mret ()
  | OpFindAll => FindAll;; mret ()
  | OpGetByQ => GetByQ;; mret ()
  | OpFindWithSelect cols => FindWithSelect cols;; mret ()
  | OpDistinct key => Distinct key;; mret ()
  | OpGet => Get;; mret ()
  | OpGetWithSelect cols => GetWithSelect cols;; mret ()
  end.

(** [Get] and [GetWithSelect] build their query with [findByIdQ]. *)
Definition by_identity (o : read_op) : bool :=
  match o with
  | OpGet | OpGetWithSelect _ => true
  | _ => false
  end.

(** A document counts as soft-deleted when its flag equals [true] under
    either spelling. *)
Definition soft_deleted (d : doc) : bool :=
  field_eq (doc_get "is_removed" d) (VBool true)
  || field_eq (doc_get "IsRemoved" d) (VBool true).

(** The calls issued between two states. *)
Definition issued (s s' : State) : list event :=
  drop (length (trace (world s))) (trace (world s')).

(** The value of the model's field [n], when the model is a pointer to a
    struct that has the field. *)
Definition model_field (n : string) (c : Do) : option value :=
  sv ← reflect_Elem (model c);
  fval <$> find_field n (sfields sv).

(* ===================================================================== *)
(** ** Notions the properties are stated with *)
(* ===================================================================== *)

(** The filter [findQ] stores, as a function of the stored one; [None]
    where the type assertion on [$and] panics. *)
Definition compose_filter (q : option doc) : option doc :=
  match q with
  | Some q =>
      match doc_get "$and" q with
      | None => Some (doc_set "$and" (VSlice SIface rmQ) q)
      | Some (VSlice SIface v) =>
          Some (doc_set "$and" (VSlice SIface (v ++ rmQ)) q)
      | Some _ => None
      end
  | None => Some [("$and", VSlice SIface rmQ)]
  end.

Definition sort_keys (sort : option (list string)) : option (list (string * bool)) :=
  match sort with
  | Some fs => parse_sorts fs
  | None => Some [("UpdatedAt", true); ("CreatedAt", true)]
  end.


(** A call recorded in the world, the schedule of failures advanced. *)
Definition called (e : event) (w : World) : World := (call e w).2.

(** The record's persisted state: what [FindId(id).One] finds. *)
Definition stored (c : string) (id : value) (w : World) : option doc :=
  head (filter (is_match [("_id", id)]) (coll c w)).

(** The key a field of the model is stored under. *)
Definition field_key (n : string) (c : Do) : option string :=
  sv ← reflect_Elem (model c);
  fkey <$> find_field n (sfields sv).

(** The entry [saveLog] writes for a record [rec] read in the world [w]. *)
Definition log_entry (op : string) (c : Do) (w : World) (o : N) (name : string)
    (rec : doc) : doc :=
  marshal_ChangeLog
    {| cl_Id := VId (N.pos (nextId w)); cl_CreatedBy := Operator c;
       cl_CreatedAt := VTime (Z.pos (clock w));
       cl_ChangeReason := Reason c; cl_Operation := op;
       cl_ModelObjId := VId o; cl_ModelName := name;
       cl_ModelValue := VDoc rec |}.

(** What each mutating method needs of the record's type: the fields it
    sets, of a type that takes the value set, and the field it reads. *)
Definition has_field (n : string) (sv : structv) : bool :=
  bool_decide (is_Some (find_field n (sfields sv))).

Definition schema_Create (sv : structv) : bool :=
  settable "Id" (VId 0) sv
  && settable "CreatedAt" (VTime 0) sv
  && settable "CreatedBy" (VStr "") sv.

Definition schema_Save (sv : structv) : bool :=
  settable "UpdatedAt" (VTime 0) sv
  && settable "UpdatedBy" (VStr "") sv
  && has_field "Id" sv.

Definition schema_Delete (sv : structv) : bool :=
  settable "RemovedAt" (VTime 0) sv
  && settable "RemovedBy" (VStr "") sv
  && settable "IsRemoved" (VBool false) sv
  && has_field "Id" sv.

Definition schema_Erase (sv : structv) : bool := has_field "Id" sv.

(** Does the model meet what a method needs of it? *)
Definition record_ok (schema : structv → bool) (m : iface) : bool :=
  match reflect_Elem m with
  | Some sv => schema sv
  | None => false
  end.

(** A panic that happened before any call to the store. *)
Definition panics_untouched {A} (o : outcome A) (s : State) : Prop :=
  ∃ msg s', o = Panic msg s'
            ∧ trace (world s') = trace (world s)
            ∧ db (world s') = db (world s).

(** The well-known fields, each with a value of the type the code stores
    in it. *)
Definition well_known : list (string * value) :=
  [ ("Id", VId 0); ("CreatedAt", VTime 0); ("CreatedBy", VStr "");
    ("UpdatedAt", VTime 0); ("UpdatedBy", VStr "");
    ("RemovedAt", VTime 0); ("RemovedBy", VStr "");
    ("IsRemoved", VBool false) ].




(** Two struct values of one type: the same name, and the same fields
    with the same keys and types, in order. *)
Definition same_type (a b : structv) : Prop :=
  sname a = sname b
  ∧ (λ f, (fname f, fkey f, ftype f)) <$> sfields a
    = (λ f, (fname f, fkey f, ftype f)) <$> sfields b.

(** A key that names a top-level field: it has no dot in it. *)
Definition top_level (k : string) : bool :=
  forallb (λ a, negb (bool_decide (a = "."%char))) (String.list_ascii_of_string k).

(** The state a method call ends in, returned or panicked. *)
Definition outcome_state {A} (o : outcome A) : State :=
  match o with
  | Done _ s => s
  | Panic _ s => s
  end.

(** A method keeps an observation [f] of the state: it is the same after
    the call as before, returned or panicked. *)
Definition keeps {X A} (f : State → X) (m : M A) : Prop :=
  ∀ s, f (outcome_state (m s)) = f s.

(** Did the call panic? *)
Definition panicked {A} (o : outcome A) : bool :=
  match o with
  | Done _ _ => false
  | Panic _ _ => true
  end.

(* ===================================================================== *)
(** ** Sample data *)
(* ===================================================================== *)

Module Sample.

(** A record type with every well-known field, tagged the usual way. *)
Definition user (id : value) (name : string) : structv :=
  {| sname := "User";
     sfields :=
       [ Field "Id" "_id" TObjectId id;
         Field "Name" "name" TString (VStr name);
         Field "CreatedAt" "created_at" TTime (VTime 0);
         Field "CreatedBy" "created_by" TString (VStr "");
         Field "UpdatedAt" "updated_at" TTime (VTime 0);
         Field "UpdatedBy" "updated_by" TString (VStr "");
         Field "RemovedAt" "removed_at" TTime (VTime 0);
         Field "RemovedBy" "removed_by" TString (VStr "");
         Field "IsRemoved" "is_removed" TBool (VBool false) ] |}.

(** The stored form of a user. *)
Definition user_doc (id : N) (name : string) (removed : bool) : doc :=
  [ ("_id", VId id); ("name", VStr name); ("created_at", VTime 5);
    ("created_by", VStr "root"); ("updated_at", VTime 0);
    ("updated_by", VStr ""); ("removed_at", VTime 0);
    ("removed_by", VStr ""); ("is_removed", VBool removed) ].

Definition world_of (users : list doc) (fs : list goerr) : World :=
  {| db := {[ "User" := users ]}; safe := true; clock := 100; nextId := 50;
     faults := fs; trace := [] |}.

Definition do_of (m : iface) (q : option doc) : Do :=
  {| model := m; collection := "User"; logCollection := "ChangeLog";
     Query := q; Sort := None; Skip := 0; Limit := 0;
     Operator := "alice"; Reason := "cleanup" |}.

Definition state_of (m : iface) (q : option doc) (users : list doc)
    (fs : list goerr) : State :=
  {| ctx := do_of m q; world := world_of users fs |}.

(** The state a call leaves, whether it returned or panicked. *)
Definition after {A} (o : outcome A) : State :=
  match o with
  | Done _ s => s
  | Panic _ s => s
  end.

End Sample.

(** A record type with an identity and the creation stamps only. *)
Definition bare_record : structv :=
  {| sname := "Note";
     sfields :=
       [ Field "Id" "_id" TObjectId (VId 0);
         Field "CreatedAt" "created_at" TTime (VTime 0);
         Field "CreatedBy" "created_by" TString (VStr "") ] |}.

(** Two live records, and a store whose next call fails. *)
Definition failing_store : State :=
  Sample.state_of INil None
    [Sample.user_doc 1 "A" false; Sample.user_doc 2 "B" false]
    [Some (ErrStore 1)].

Definition working_store : State :=
  Sample.state_of INil None
    [Sample.user_doc 1 "A" false; Sample.user_doc 2 "B" false] [].

(** A live "A", a soft-deleted "A" and a live "B", and a caller who asks
    for the records named "A". *)
Definition erase_all_input : State :=
  Sample.state_of INil (Some [("name", VStr "A")])
    [Sample.user_doc 1 "A" false; Sample.user_doc 2 "A" true;
     Sample.user_doc 3 "B" false] [].




(* ===================================================================== *)
(** * Properties *)
(* ===================================================================== *)

(** ** Documents and filters *)

Lemma doc_get_set_eq k v (d : doc) : doc_get k (doc_set k v d) = Some v.
Proof.
  induction d as [|[k' v'] d IH]; simpl.
  - by rewrite decide_True.
  - destruct (decide (k' = k)) as [->|Hne]; simpl.
    + by rewrite decide_True.
    + by rewrite decide_False.
Qed.

Lemma doc_get_set_ne k k' v (d : doc) :
  k ≠ k' → doc_get k' (doc_set k v d) = doc_get k' d.
Proof.
  intros Hne. induction d as [|[k0 v0] d IH]; simpl.
  - by rewrite decide_False.
  - destruct (decide (k0 = k)) as [->|Hne0]; simpl.
    + by rewrite !decide_False.
    + by rewrite IH.
Qed.

Lemma oand_comm a b : oand a b = oand b a.
Proof. destruct a as [[]|], b as [[]|]; done. Qed.

Lemma oand_assoc a b c : oand a (oand b c) = oand (oand a b) c.
Proof. destruct a as [[]|], b as [[]|], c as [[]|]; done. Qed.

Lemma oand_true_r a : oand a (Some true) = a.
Proof. destruct a as [[]|]; done. Qed.

Lemma oand_true_l a : oand (Some true) a = a.
Proof. destruct a as [[]|]; done. Qed.

Lemma qmatch_all_eq d l :
  (fix all (l : list value) : option bool :=
     match l with
     | [] => Some true
     | x :: l' => oand (qmatch d x) (all l')
     end) l = qmatch_all d l.
Proof. induction l as [|x l IH]; [done|]. simpl. by rewrite IH. Qed.

Lemma qmatch_any_eq d l :
  (fix any (l : list value) : option bool :=
     match l with
     | [] => Some false
     | x :: l' => oor (qmatch d x) (any l')
     end) l = qmatch_any d l.
Proof. induction l as [|x l IH]; [done|]. simpl. by rewrite IH. Qed.

Lemma matches_nil d : matches d [] = Some true.
Proof. done. Qed.

Lemma matches_cons d k v (q : doc) :
  matches d ((k, v) :: q) = oand (qmatch_entry d k v) (matches d q).
Proof.
  unfold matches, qmatch_entry. simpl.
  repeat case_decide; try done.
  - destruct v; try done. by rewrite qmatch_all_eq.
  - destruct v; try done. by rewrite qmatch_any_eq.
Qed.

Lemma qmatch_all_app d l1 l2 :
  qmatch_all d (l1 ++ l2) = oand (qmatch_all d l1) (qmatch_all d l2).
Proof.
  induction l1 as [|x l1 IH].
  - by rewrite oand_true_l.
  - cbn [app qmatch_all]. by rewrite IH, oand_assoc.
Qed.

(** The added conditions hold of exactly the documents that are not
    soft-deleted. *)
Lemma qmatch_all_rmQ d : qmatch_all d rmQ = Some (negb (soft_deleted d)).
Proof.
  unfold rmQ, soft_deleted. simpl.
  destruct (field_eq (doc_get "is_removed" d) (VBool true)),
    (field_eq (doc_get "IsRemoved" d) (VBool true)); done.
Qed.

(** Adding the conditions to a filter without [$and]. *)
Lemma matches_add_and d (q : doc) l :
  doc_get "$and" q = None →
  matches d (doc_set "$and" (VSlice SIface l) q)
  = oand (matches d q) (qmatch_all d l).
Proof.
  induction q as [|[k v] q IH]; simpl; intros Hget.
  - rewrite matches_cons, matches_nil. unfold qmatch_entry. simpl.
    by destruct (qmatch_all d l) as [[]|].
  - destruct (decide (k = "$and")) as [->|Hne]; [done|].
    rewrite !matches_cons, IH by done. by rewrite oand_assoc.
Qed.

(** Appending the conditions to the [$and] of a filter that has one. *)
Lemma matches_extend_and d (q : doc) k v l :
  doc_get "$and" q = Some (VSlice k v) →
  matches d (doc_set "$and" (VSlice SIface (v ++ l)) q)
  = oand (matches d q) (qmatch_all d l).
Proof.
  induction q as [|[k0 v0] q IH]; simpl; intros Hget; [done|].
  destruct (decide (k0 = "$and")) as [->|Hne].
  - injection Hget as ->. rewrite !matches_cons. unfold qmatch_entry. simpl.
    rewrite qmatch_all_app.
    rewrite <- !oand_assoc. f_equal. apply oand_comm.
  - rewrite !matches_cons, IH by done. by rewrite oand_assoc.
Qed.

(** ** The filter builder *)

(** Unfolds the monad's plumbing. *)
Ltac munfold :=
  unfold mbind, M_bind, mret, M_ret, gets, modify, panic, lift in *;
  cbn beta iota in *.

Lemma findQ_Done s query s' :
  findQ s = Done query s' →
  ∃ f keys,
    compose_filter (Query (ctx s)) = Some f
    ∧ sort_keys (Sort (ctx s)) = Some keys
    ∧ s' = {| ctx := set_Query (Some f) (ctx s); world := world s |}
    ∧ query = {| qcoll := collection (ctx s); qfilter := f; qsort := keys;
                 qskip := Skip (ctx s); qlimit := Limit (ctx s);
                 qselect := [] |}.
Proof.
  unfold findQ, compose_filter, sort_keys. munfold.
  destruct s as [c w]; simpl.
  destruct (Query c) as [q|] eqn:HQ; simpl.
  - destruct (doc_get "$and" q) as [[| | | | | | |[] v]|] eqn:Hand; simpl;
      try discriminate.
    + destruct (Sort c) as [fs|]; simpl.
      * destruct (parse_sorts fs) as [keys|]; simpl; [|discriminate].
        intros [= <- <-]. eexists _, _. repeat split; try done.
        f_equal; repeat case_decide; lia.
      * intros [= <- <-]. eexists _, _. repeat split; try done.
        f_equal; repeat case_decide; lia.
    + destruct (Sort c) as [fs|]; simpl.
      * destruct (parse_sorts fs) as [keys|]; simpl; [|discriminate].
        intros [= <- <-]. eexists _, _. repeat split; try done.
        f_equal; repeat case_decide; lia.
      * intros [= <- <-]. eexists _, _. repeat split; try done.
        f_equal; repeat case_decide; lia.
  - destruct (Sort c) as [fs|]; simpl.
    + destruct (parse_sorts fs) as [keys|]; simpl; [|discriminate].
      intros [= <- <-]. eexists _, _. repeat split; try done.
      f_equal; repeat case_decide; lia.
    + intros [= <- <-]. eexists _, _. repeat split; try done.
      f_equal; repeat case_decide; lia.
Qed.

Lemma findQ_total s f keys :
  compose_filter (Query (ctx s)) = Some f →
  sort_keys (Sort (ctx s)) = Some keys →
  findQ s
  = Done {| qcoll := collection (ctx s); qfilter := f; qsort := keys;
            qskip := Skip (ctx s); qlimit := Limit (ctx s); qselect := [] |}
         {| ctx := set_Query (Some f) (ctx s); world := world s |}.
Proof.
  unfold findQ, compose_filter, sort_keys. munfold.
  destruct s as [c w]; simpl.
  destruct (Query c) as [q|] eqn:HQ; simpl.
  - destruct (doc_get "$and" q) as [[| | | | | | |[] v]|] eqn:Hand; simpl;
      try discriminate.
    + intros [= <-]. destruct (Sort c) as [fs|]; simpl.
      * intros ->. simpl. do 2 f_equal; repeat case_decide; lia.
      * intros [= <-]. do 2 f_equal; repeat case_decide; lia.
    + intros [= <-]. destruct (Sort c) as [fs|]; simpl.
      * intros ->. simpl. do 2 f_equal; repeat case_decide; lia.
      * intros [= <-]. do 2 f_equal; repeat case_decide; lia.
  - intros [= <-]. destruct (Sort c) as [fs|]; simpl.
    + intros ->. simpl. do 2 f_equal; repeat case_decide; lia.
    + intros [= <-]. do 2 f_equal; repeat case_decide; lia.
Qed.

(** The composed filter is the conjunction of the stored one with "not
    soft-deleted". *)
Lemma compose_filter_matches q f d :
  compose_filter q = Some f →
  matches d f = oand (matches d (default [] q)) (Some (negb (soft_deleted d))).
Proof.
  unfold compose_filter. destruct q as [q|]; simpl.
  - destruct (doc_get "$and" q) as [[| | | | | | |[] v]|] eqn:Hand;
      try discriminate; intros [= <-].
    + erewrite matches_extend_and by done. by rewrite qmatch_all_rmQ.
    + rewrite matches_add_and by done. by rewrite qmatch_all_rmQ.
  - intros [= <-]. rewrite matches_cons, matches_nil. unfold qmatch_entry.
    rewrite decide_True by done. rewrite qmatch_all_rmQ.
    by destruct (soft_deleted d).
Qed.

(** ** What a store call does to the world *)

Lemma store_Run_world k q w r w' :
  store_Run k q w = (r, w') →
  w' = {| db := db w; safe := safe w; clock := clock w; nextId := nextId w;
          faults := tail (faults w); trace := trace w ++ [EvRun k q] |}.
Proof.
  unfold store_Run, call. simpl.
  destruct (mjoin (head (faults w))); [by intros [= <- <-]|].
  destruct (negb (well_formed (qfilter q))); [by intros [= <- <-]|].
  destruct k; simpl.
  - match goal with |- context [cursor ?a ?b] => destruct (cursor a b) end;
      by intros [= <- <-].
  - by intros [= <- <-].
  - by intros [= <- <-].
  - by intros [= <- <-].
Qed.

Lemma store_Run_fault k q w e :
  mjoin (head (faults w)) = Some e → (store_Run k q w).1 = inl e.
Proof. unfold store_Run, call. simpl. by intros ->. Qed.

Lemma issued_app s s' l :
  trace (world s') = trace (world s) ++ l → issued s s' = l.
Proof. unfold issued. intros ->. by rewrite drop_app_length. Qed.


Lemma findByIdQ_Done s query s' :
  findByIdQ s = Done query s' →
  ∃ idv,
    model_field "Id" (ctx s) = Some idv
    ∧ findQ {| ctx := set_Query (Some [("_id", idv)]) (ctx s);
               world := world s |} = Done query s'.
Proof.
  unfold findByIdQ, FieldByName, Value_Interface, model_field. munfold.
  destruct s as [c w]; simpl.
  destruct (reflect_Elem (model c)) as [sv|] eqn:HE; simpl; [|done].
  rewrite HE.
  destruct (find_field "Id" (sfields sv)) as [f|] eqn:Hf; simpl; [|done].
  assert (fname f = "Id") as ->.
  { clear -Hf. induction (sfields sv) as [|g fs IH]; simpl in Hf; [done|].
    case_decide; [congruence|auto]. }
  rewrite Hf. simpl. intros H. by exists (fval f).
Qed.


(** A flag that is [true] under either spelling makes the document
    soft-deleted. *)
Lemma flagged_soft_deleted d :
  doc_get "is_removed" d = Some (VBool true)
  ∨ doc_get "IsRemoved" d = Some (VBool true) →
  soft_deleted d = true.
Proof.
  unfold soft_deleted. intros [-> | ->]; simpl.
  - done.
  - apply orb_true_r.
Qed.

(* ===================================================================== *)
(** ** C3: the filter every read is run with *)
(* ===================================================================== *)




(* ===================================================================== *)
(** ** C10: building a query rewrites the stored filter *)
(* ===================================================================== *)






(* ===================================================================== *)
(** ** Reflection and the store, in detail *)
(* ===================================================================== *)

Lemma find_field_name n fs f : find_field n fs = Some f → fname f = n.
Proof.
  induction fs as [|g fs IH]; simpl; [done|].
  case_decide; [congruence|auto].
Qed.

Lemma find_field_elem n fs f : find_field n fs = Some f → f ∈ fs.
Proof.
  induction fs as [|g fs IH]; simpl; [done|].
  case_decide; [intros [= ->]; left|right; auto].
Qed.

Lemma find_field_update_eq n v fs f :
  find_field n fs = Some f →
  find_field n (update_field n v fs) = Some (with_fval v f).
Proof.
  induction fs as [|g fs IH]; simpl; [done|].
  destruct (decide (fname g = n)) as [Hn|Hn]; simpl.
  - intros [= ->]. by rewrite decide_True.
  - intros Hf. by rewrite decide_False, IH.
Qed.

Lemma find_field_update_ne n m v fs :
  n ≠ m → find_field m (update_field n v fs) = find_field m fs.
Proof.
  intros Hne. induction fs as [|g fs IH]; simpl; [done|].
  destruct (decide (fname g = n)) as [Hn|Hn]; simpl.
  - rewrite !decide_False by congruence. done.
  - by rewrite IH.
Qed.


(** An entry of a filter on [_id] with an object id is a plain equality. *)
Lemma matches_id d o :
  matches d [("_id", VId o)] = Some (field_eq (doc_get "_id" d) (VId o)).
Proof.
  rewrite matches_cons, matches_nil. unfold qmatch_entry. simpl.
  by destruct (field_eq (doc_get "_id" d) (VId o)).
Qed.

Lemma well_formed_id o : well_formed [("_id", VId o)] = true.
Proof. unfold well_formed. by rewrite matches_id. Qed.

Lemma seed_id o : seed [("_id", VId o)] = [("_id", VId o)].
Proof. done. Qed.

Lemma sort_docs_nil l : sort_docs [] l = l.
Proof.
  induction l as [|x l IH]; [done|]. unfold sort_docs in *. simpl.
  rewrite IH. by destruct l.
Qed.

(** The cursor of [FindId]: the matching documents in the store's order. *)
Lemma cursor_FindId c id w :
  cursor (FindId c id) w = filter (is_match [("_id", id)]) (coll c w).
Proof.
  unfold cursor, FindId, limit_docs, skip_docs, project. simpl.
  rewrite sort_docs_nil. unfold drop. by rewrite list_fmap_id.
Qed.

Lemma coll_set_coll_eq c docs w : coll c (set_coll c docs w) = docs.
Proof. unfold coll, set_coll. simpl. by rewrite lookup_insert_eq. Qed.

Lemma coll_set_coll_ne c c' docs w :
  c ≠ c' → coll c' (set_coll c docs w) = coll c' w.
Proof. intros. unfold coll, set_coll. simpl. by rewrite lookup_insert_ne. Qed.

Lemma filter_replace_first (q : doc) new docs d rest :
  filter (is_match q) docs = d :: rest →
  is_match q (new d) →
  filter (is_match q) (replace_first q new docs) = new d :: rest.
Proof.
  intros Hf Hnew. induction docs as [|x docs IH]; [done|].
  simpl. rewrite filter_cons in Hf.
  destruct (decide (is_match q x)) as [Hx|Hx].
  - injection Hf as -> <-. rewrite filter_cons. by rewrite decide_True.
  - rewrite filter_cons, decide_False by done. auto.
Qed.

Lemma filter_remove_first (q : doc) docs d rest :
  filter (is_match q) docs = d :: rest →
  filter (is_match q) (remove_first q docs) = rest.
Proof.
  intros Hf. induction docs as [|x docs IH]; [done|].
  simpl. rewrite filter_cons in Hf.
  destruct (decide (is_match q x)) as [Hx|Hx].
  - by injection Hf as _ <-.
  - rewrite filter_cons, decide_False by done. auto.
Qed.

(** [$set] with distinct keys leaves each key with its new value, and
    other keys as they were. *)
Lemma apply_set_get_other (s d : doc) k :
  k ∉ s.*1 → doc_get k (apply_set s d) = doc_get k d.
Proof.
  unfold apply_set. revert d. induction s as [|[k' v'] s IH]; intros d Hk.
  - done.
  - simpl. rewrite IH.
    + apply doc_get_set_ne. intros ->. apply Hk. simpl. left.
    + intros Hin. apply Hk. simpl. by right.
Qed.

Lemma apply_set_get (s d : doc) k v :
  NoDup s.*1 → (k, v) ∈ s → doc_get k (apply_set s d) = Some v.
Proof.
  unfold apply_set. revert d. induction s as [|[k' v'] s IH]; intros d Hnd Hin.
  - by apply elem_of_nil in Hin.
  - simpl in *. apply NoDup_cons in Hnd as [Hk' Hnd].
    apply elem_of_cons in Hin as [[= <- <-]|Hin].
    + fold (apply_set s (doc_set k v d)).
      rewrite apply_set_get_other by done. apply doc_get_set_eq.
    + by apply IH.
Qed.

Lemma marshal_Some sv set :
  marshal sv = Some set →
  NoDup set.*1 ∧ ∀ f, f ∈ sfields sv → (fkey f, fval f) ∈ set.
Proof.
  unfold marshal. case_decide as Hnd; [|done]. intros [= <-]. split.
  - by rewrite <- list_fmap_compose.
  - intros f Hf. apply list_elem_of_fmap. by exists f.
Qed.

(** ** The mutating methods, case by case *)

Lemma settable_type n v v' sv :
  type_of v = type_of v' → settable n v sv = settable n v' sv.
Proof. unfold settable. by intros ->. Qed.

Lemma settable_set_field n v m x sv :
  settable n v (set_field m x sv) = settable n v sv.
Proof.
  unfold settable, set_field. simpl.
  destruct (decide (m = n)) as [->|Hne].
  - destruct (find_field n (sfields sv)) as [f|] eqn:Hf.
    + by rewrite (find_field_update_eq _ _ _ _ Hf).
    + assert (find_field n (update_field n x (sfields sv)) = None) as ->; [|done].
      clear -Hf. induction (sfields sv) as [|g fs IH]; simpl in *; [done|].
      case_decide; [done|]. simpl. rewrite decide_False by done. auto.
  - by rewrite find_field_update_ne.
Qed.

Lemma has_field_set_field n m x sv :
  has_field n (set_field m x sv) = has_field n sv.
Proof.
  unfold has_field, set_field. simpl.
  destruct (decide (m = n)) as [->|Hne].
  - destruct (find_field n (sfields sv)) as [f|] eqn:Hf.
    + by rewrite (find_field_update_eq _ _ _ _ Hf).
    + assert (find_field n (update_field n x (sfields sv)) = None) as ->; [|done].
      clear -Hf. induction (sfields sv) as [|g fs IH]; simpl in *; [done|].
      case_decide; [done|]. simpl. rewrite decide_False by done. auto.
  - by rewrite find_field_update_ne.
Qed.

Lemma settable_has_field n v sv : settable n v sv = true → has_field n sv = true.
Proof.
  unfold settable, has_field.
  destruct (find_field n (sfields sv)); [|done]. intros _.
  by apply bool_decide_eq_true.
Qed.

Lemma bind_eq {A B} (m : M A) (k : A → M B) s :
  (m ≫= k) s
  = match m s with
    | Done a s' => k a s'
    | Panic msg s' => Panic msg s'
    end.
Proof. done. Qed.

Lemma FieldByName_run n c w sv :
  model c = IPtr sv →
  FieldByName n {| ctx := c; world := w |}
  = Done (if has_field n sv then Some n else None) {| ctx := c; world := w |}.
Proof.
  intros Hm. unfold FieldByName, has_field. munfold. simpl. rewrite Hm. simpl.
  destruct (find_field n (sfields sv)) as [f|] eqn:Hf; simpl.
  - by rewrite (find_field_name _ _ _ Hf).
  - done.
Qed.

Lemma FieldByName_panics n c w :
  reflect_Elem (model c) = None →
  ∃ msg, FieldByName n {| ctx := c; world := w |}
         = Panic msg {| ctx := c; world := w |}.
Proof.
  intros Hm. unfold FieldByName. munfold. simpl. rewrite Hm. eauto.
Qed.

Lemma Value_Set_run n v c w sv :
  model c = IPtr sv →
  settable n v sv = true →
  Value_Set (Some n) v {| ctx := c; world := w |}
  = Done () {| ctx := set_model (IPtr (set_field n v sv)) c; world := w |}.
Proof.
  intros Hm Hs. unfold Value_Set. munfold. simpl. rewrite Hm. simpl.
  by rewrite Hs.
Qed.

Lemma Value_Set_panics x v c w sv :
  model c = IPtr sv →
  (if has_field (default "" x) sv then x = None else True)
  ∨ (∃ n, x = Some n ∧ settable n v sv = false) →
  ∃ msg, Value_Set x v {| ctx := c; world := w |}
         = Panic msg {| ctx := c; world := w |}.
Proof.
  intros Hm Hx. unfold Value_Set. munfold. simpl. rewrite Hm. simpl.
  destruct x as [n|]; [|eauto].
  destruct (settable n v sv) eqn:Hs; [|eauto].
  destruct Hx as [Hx|(n' & [= <-] & Hn)]; [|congruence].
  simpl in Hx. rewrite (settable_has_field _ _ _ Hs) in Hx. done.
Qed.

Lemma Value_Interface_run n c w sv f :
  model c = IPtr sv →
  find_field n (sfields sv) = Some f →
  Value_Interface (Some n) {| ctx := c; world := w |}
  = Done (fval f) {| ctx := c; world := w |}.
Proof.
  intros Hm Hf. unfold Value_Interface. munfold. simpl. rewrite Hm. simpl.
  by rewrite Hf.
Qed.

Lemma Value_Interface_panics c w :
  ∃ msg, Value_Interface None {| ctx := c; world := w |}
         = Panic msg {| ctx := c; world := w |}.
Proof.
  unfold Value_Interface. munfold. simpl.
  destruct (reflect_Elem (model c)); eauto.
Qed.

Lemma time_Now_run c w :
  time_Now {| ctx := c; world := w |}
  = Done (VTime (Z.pos (clock w))) {| ctx := c; world := tick w |}.
Proof. done. Qed.

Lemma NewObjectId_run c w :
  NewObjectId {| ctx := c; world := w |}
  = Done (VId (N.pos (nextId w))) {| ctx := c; world := take_id w |}.
Proof. done. Qed.

Lemma gets_run {A} (f : Do → A) c w :
  gets f {| ctx := c; world := w |} = Done (f c) {| ctx := c; world := w |}.
Proof. done. Qed.

Lemma upsert_model_run id c w sv :
  model c = IPtr sv →
  upsert_model id {| ctx := c; world := w |}
  = let r := store_Upsert (collection c) [("_id", id)] (marshal sv) w in
    Done r.1 {| ctx := c; world := r.2 |}.
Proof.
  intros Hm. unfold upsert_model, marshal_model. munfold. simpl. rewrite Hm.
  by destruct (store_Upsert _ _ _ _).
Qed.

Lemma model_set_model m c : model (set_model m c) = m.
Proof. done. Qed.

(** Runs the reflection steps of a method whose record has the fields
    it needs. *)
Ltac run_step :=
  rewrite bind_eq;
  first
    [ erewrite FieldByName_run by (rewrite ?model_set_model; eassumption || reflexivity)
    | erewrite Value_Set_run
        by (rewrite ?model_set_model, ?settable_set_field;
            eassumption || reflexivity)
    | rewrite time_Now_run
    | rewrite NewObjectId_run
    | rewrite gets_run ].

(** A method run on anything but a pointer to a struct panics at its
    first [Elem]. *)
Lemma not_pointer_panics {A} (k : rvalue → M A) n s :
  reflect_Elem (model (ctx s)) = None →
  panics_untouched ((FieldByName n ≫= k) s) s.
Proof.
  destruct s as [c w]. intros Hm. rewrite bind_eq.
  destruct (FieldByName_panics n c w Hm) as [msg ->].
  by exists msg, {| ctx := c; world := w |}.
Qed.

Lemma reflect_Elem_Some m sv : reflect_Elem m = Some sv ↔ m = IPtr sv.
Proof. destruct m; simpl; split; congruence. Qed.

Lemma has_field_Some n sv :
  has_field n sv = true → ∃ f, find_field n (sfields sv) = Some f.
Proof. unfold has_field. intros H. by apply bool_decide_eq_true in H as [f Hf]; eauto. Qed.

Lemma Save_ok c w sv idf :
  model c = IPtr sv →
  schema_Save sv = true →
  find_field "Id" (sfields sv) = Some idf →
  let sv' := set_field "UpdatedBy" (VStr (Operator c))
               (set_field "UpdatedAt" (VTime (Z.pos (clock w))) sv) in
  let r := store_Upsert (collection c) [("_id", fval idf)] (marshal sv')
             (tick w) in
  Save {| ctx := c; world := w |}
  = Done r.1 {| ctx := set_model (IPtr sv') c; world := r.2 |}.
Proof.
  intros Hm Hs Hid. unfold schema_Save in Hs.
  apply andb_true_iff in Hs as [Hs H3]. apply andb_true_iff in Hs as [H1 H2].
  rewrite (settable_type _ _ (VTime (Z.pos (clock w)))) in H1 by done.
  rewrite (settable_type _ _ (VStr (Operator c))) in H2 by done.
  unfold Save.
  run_step. rewrite H3.
  run_step. rewrite (settable_has_field _ _ _ H1).
  run_step. run_step.
  run_step. rewrite has_field_set_field, (settable_has_field _ _ _ H2).
  run_step. run_step.
  rewrite bind_eq.
  erewrite Value_Interface_run; [|done|].
  2:{ simpl. rewrite !find_field_update_ne by done. exact Hid. }
  by erewrite upsert_model_run by done.
Qed.

Lemma Value_Set_handle_panics n v c w sv :
  model c = IPtr sv →
  settable n v sv = false →
  ∃ msg, Value_Set (if has_field n sv then Some n else None) v
           {| ctx := c; world := w |}
         = Panic msg {| ctx := c; world := w |}.
Proof.
  intros Hm Hs. eapply Value_Set_panics; [done|].
  destruct (has_field n sv) eqn:Hn.
  - right. by exists n.
  - left. simpl. by destruct (has_field "" sv).
Qed.

(** Closes a goal [panics_untouched] once the method is run up to the
    [Set] that panics; [H] says that the record cannot take the value. *)
Ltac panic_here Hm H :=
  rewrite bind_eq;
  match goal with
  | |- context [Value_Set (if has_field ?n ?sv' then _ else _) ?v
                  {| ctx := ?c; world := ?w |}] =>
      let msg := fresh "msg" in
      let E := fresh "E" in
      destruct (Value_Set_handle_panics n v c w sv') as [msg E];
      [ first [exact Hm | reflexivity]
      | rewrite ?settable_set_field; erewrite settable_type;
        [exact H | reflexivity]
      | rewrite E; eexists _, _; split; [reflexivity|split; reflexivity] ]
  end.

(** Runs a [Set] that goes through; [H] says that the record takes the
    value. *)
Ltac set_ok H :=
  rewrite ?has_field_set_field, (settable_has_field _ _ _ H);
  rewrite bind_eq;
  erewrite Value_Set_run;
  [ | first [eassumption | reflexivity]
    | rewrite ?settable_set_field; erewrite settable_type;
      [exact H | reflexivity] ].

Lemma Save_panics c w sv :
  model c = IPtr sv →
  schema_Save sv = false →
  panics_untouched (Save {| ctx := c; world := w |}) {| ctx := c; world := w |}.
Proof.
  intros Hm Hs. unfold schema_Save in Hs. unfold panics_untouched, Save.
  run_step. run_step. run_step.
  destruct (settable "UpdatedAt" (VTime 0) sv) eqn:H1; [|panic_here Hm H1].
  set_ok H1. run_step. run_step.
  destruct (settable "UpdatedBy" (VStr "") sv) eqn:H2; [|panic_here Hm H2].
  set_ok H2. simpl in Hs. rewrite Hs.
  rewrite bind_eq.
  match goal with |- context [Value_Interface None {| ctx := ?c'; world := ?w' |}] =>
    destruct (Value_Interface_panics c' w') as [msg ->] end.
  eexists _, _. split; [reflexivity|split; reflexivity].
Qed.

Lemma Create_ok c w sv :
  model c = IPtr sv →
  schema_Create sv = true →
  let oid := VId (N.pos (nextId w)) in
  let sv' := set_field "CreatedBy" (VStr (Operator c))
               (set_field "CreatedAt" (VTime (Z.pos (clock w)))
                  (set_field "Id" oid sv)) in
  let r := store_Upsert (collection c) [("_id", oid)] (marshal sv')
             (tick (take_id w)) in
  Create {| ctx := c; world := w |}
  = Done r.1 {| ctx := set_model (IPtr sv') c; world := r.2 |}.
Proof.
  intros Hm Hs. unfold schema_Create in Hs.
  apply andb_true_iff in Hs as [Hs H3]. apply andb_true_iff in Hs as [H1 H2].
  rewrite (settable_type _ _ (VId (N.pos (nextId w)))) in H1 by done.
  rewrite (settable_type _ _ (VTime (Z.pos (clock w)))) in H2 by done.
  rewrite (settable_type _ _ (VStr (Operator c))) in H3 by done.
  unfold Create.
  run_step. rewrite (settable_has_field _ _ _ H1).
  run_step. run_step.
  run_step. rewrite has_field_set_field, (settable_has_field _ _ _ H2).
  run_step. run_step.
  run_step. rewrite !has_field_set_field, (settable_has_field _ _ _ H3).
  run_step. run_step.
  rewrite bind_eq.
  destruct (has_field_Some _ _ (settable_has_field _ _ _ H1)) as [idf Hid].
  erewrite Value_Interface_run; [|done|].
  2:{ simpl. rewrite !find_field_update_ne by done.
      by apply find_field_update_eq. }
  by erewrite upsert_model_run by done.
Qed.

Lemma Create_panics c w sv :
  model c = IPtr sv →
  schema_Create sv = false →
  panics_untouched (Create {| ctx := c; world := w |})
    {| ctx := c; world := w |}.
Proof.
  intros Hm Hs. unfold schema_Create in Hs. unfold panics_untouched, Create.
  run_step. run_step.
  destruct (settable "Id" (VId 0) sv) eqn:H1; [|panic_here Hm H1].
  set_ok H1. run_step. run_step.
  destruct (settable "CreatedAt" (VTime 0) sv) eqn:H2; [|panic_here Hm H2].
  set_ok H2. run_step. run_step.
  simpl in Hs. panic_here Hm Hs.
Qed.

Lemma Delete_ok c w sv idf :
  model c = IPtr sv →
  schema_Delete sv = true →
  find_field "Id" (sfields sv) = Some idf →
  let sv' := set_field "IsRemoved" (VBool true)
               (set_field "RemovedBy" (VStr (Operator c))
                  (set_field "RemovedAt" (VTime (Z.pos (clock w))) sv)) in
  let r := store_Upsert (collection c) [("_id", fval idf)] (marshal sv')
             (tick w) in
  Delete {| ctx := c; world := w |}
  = Done r.1 {| ctx := set_model (IPtr sv') c; world := r.2 |}.
Proof.
  intros Hm Hs Hid. unfold schema_Delete in Hs.
  apply andb_true_iff in Hs as [Hs H4]. apply andb_true_iff in Hs as [Hs H3].
  apply andb_true_iff in Hs as [H1 H2].
  unfold Delete.
  run_step. rewrite H4.
  run_step. run_step. set_ok H1.
  run_step. run_step. set_ok H2.
  run_step. set_ok H3.
  rewrite bind_eq.
  erewrite Value_Interface_run; [|done|].
  2:{ simpl. rewrite !find_field_update_ne by done. exact Hid. }
  by erewrite upsert_model_run by done.
Qed.

Lemma Delete_panics c w sv :
  model c = IPtr sv →
  schema_Delete sv = false →
  panics_untouched (Delete {| ctx := c; world := w |})
    {| ctx := c; world := w |}.
Proof.
  intros Hm Hs. unfold schema_Delete in Hs. unfold panics_untouched, Delete.
  run_step. run_step. run_step.
  destruct (settable "RemovedAt" (VTime 0) sv) eqn:H1; [|panic_here Hm H1].
  set_ok H1. run_step. run_step.
  destruct (settable "RemovedBy" (VStr "") sv) eqn:H2; [|panic_here Hm H2].
  set_ok H2. run_step.
  destruct (settable "IsRemoved" (VBool false) sv) eqn:H3; [|panic_here Hm H3].
  set_ok H3. simpl in Hs. rewrite Hs.
  rewrite bind_eq.
  match goal with |- context [Value_Interface None {| ctx := ?c'; world := ?w' |}] =>
    destruct (Value_Interface_panics c' w') as [msg ->] end.
  eexists _, _. split; [reflexivity|split; reflexivity].
Qed.

Lemma Erase_ok c w sv idf :
  model c = IPtr sv →
  find_field "Id" (sfields sv) = Some idf →
  let r := store_Remove (collection c) [("_id", fval idf)] w in
  Erase {| ctx := c; world := w |} = Done r.1 {| ctx := c; world := r.2 |}.
Proof.
  intros Hm Hid. unfold Erase.
  run_step. unfold has_field. rewrite Hid. simpl.
  rewrite bind_eq. erewrite Value_Interface_run by done.
  run_step. munfold. by destruct (store_Remove _ _ _).
Qed.

Lemma Erase_panics c w sv :
  model c = IPtr sv →
  schema_Erase sv = false →
  panics_untouched (Erase {| ctx := c; world := w |})
    {| ctx := c; world := w |}.
Proof.
  intros Hm Hs. unfold schema_Erase in Hs. unfold panics_untouched, Erase.
  run_step. rewrite Hs. rewrite bind_eq.
  destruct (Value_Interface_panics c w) as [msg ->].
  eexists _, _. split; [reflexivity|split; reflexivity].
Qed.

(* ===================================================================== *)
(** ** C9: records that lack a well-known field *)
(* ===================================================================== *)

(** C9 as stated fails: a record type without [IsRemoved] (nor the update
    and removal stamps) lacks well-known fields, and [Create] on it
    returns normally. *)
Lemma create_needs_only_its_own_fields :
  ¬ (∀ sv c w,
       model c = IPtr sv →
       (∃ n v, (n, v) ∈ well_known ∧ settable n v sv = false) →
       ∃ msg s', Create {| ctx := c; world := w |} = Panic msg s').
Proof.
  intros H.
  destruct (H bare_record (Sample.do_of (IPtr bare_record) None)
              (Sample.world_of [] []) eq_refl) as (msg & s' & E).
  - exists "IsRemoved", (VBool false). split; [|done].
    unfold well_known. repeat first [by left | right].
  - vm_compute in E. discriminate.
Qed.

(** C9, amended.  Each mutating method panics, before any call to the
    store and without returning an error value, exactly when the model
    is not a pointer to a struct or the struct fails what that method
    itself touches: [Create] sets [Id], [CreatedAt], [CreatedBy] (which
    must exist and take an object id, a time and a string); [Save] sets
    [UpdatedAt], [UpdatedBy] and reads [Id]; [Delete] sets [RemovedAt],
    [RemovedBy], [IsRemoved] and reads [Id]; [Erase] reads [Id].  A field
    that is only read may be of any type.  Otherwise the method returns. *)
Theorem schema_violation_panics s :
  (if record_ok schema_Create (model (ctx s))
   then ∃ e s', Create s = Done e s'
   else panics_untouched (Create s) s)
  ∧ (if record_ok schema_Save (model (ctx s))
     then ∃ e s', Save s = Done e s'
     else panics_untouched (Save s) s)
  ∧ (if record_ok schema_Delete (model (ctx s))
     then ∃ e s', Delete s = Done e s'
     else panics_untouched (Delete s) s)
  ∧ (if record_ok schema_Erase (model (ctx s))
     then ∃ e s', Erase s = Done e s'
     else panics_untouched (Erase s) s).
Proof.
  destruct s as [c w]. unfold record_ok. simpl.
  destruct (reflect_Elem (model c)) as [sv|] eqn:HE.
  - apply reflect_Elem_Some in HE. repeat split.
    + destruct (schema_Create sv) eqn:Hs.
      * rewrite (Create_ok _ _ _ HE Hs). eauto.
      * by apply (Create_panics _ _ sv).
    + destruct (schema_Save sv) eqn:Hs.
      * pose proof Hs as Hs'. unfold schema_Save in Hs'.
        apply andb_true_iff in Hs' as [_ Hid].
        destruct (has_field_Some _ _ Hid) as [idf Hidf].
        rewrite (Save_ok _ _ _ _ HE Hs Hidf). eauto.
      * by apply (Save_panics _ _ sv).
    + destruct (schema_Delete sv) eqn:Hs.
      * pose proof Hs as Hs'. unfold schema_Delete in Hs'.
        apply andb_true_iff in Hs' as [_ Hid].
        destruct (has_field_Some _ _ Hid) as [idf Hidf].
        rewrite (Delete_ok _ _ _ _ HE Hs Hidf). eauto.
      * by apply (Delete_panics _ _ sv).
    + destruct (schema_Erase sv) eqn:Hs.
      * destruct (has_field_Some _ _ Hs) as [idf Hidf].
        rewrite (Erase_ok _ _ _ _ HE Hidf). eauto.
      * by apply (Erase_panics _ _ sv).
  - repeat split;
      apply (not_pointer_panics _ "Id" {| ctx := c; world := w |} HE).
Qed.

Lemma coll_called c e w : coll c (called e w) = coll c w.
Proof. done. Qed.

Lemma store_Remove_id c o w :
  mjoin (head (faults w)) = None →
  store_Remove c [("_id", VId o)] w
  = match filter (is_match [("_id", VId o)]) (coll c w) with
    | _ :: _ =>
        (None,
         set_coll c (remove_first [("_id", VId o)] (coll c w))
           (called (EvRemove c [("_id", VId o)]) w))
    | [] =>
        (acknowledged w (Some ErrNotFound),
         called (EvRemove c [("_id", VId o)]) w)
    end.
Proof.
  intros Hf. unfold store_Remove, called, call. cbn [fst snd]. rewrite Hf.
  rewrite well_formed_id. cbn [negb].
  change (coll c _) with (coll c w). by destruct (filter _ _).
Qed.

(* ===================================================================== *)
(** ** C4: erasing a record that is not there *)
(* ===================================================================== *)

(** C4 as stated fails: in a session in safe mode, [Erase] of an
    identity the collection does not hold returns [ErrNotFound]. *)
Lemma erase_of_absent_record_is_an_error :
  ¬ (∀ c w sv idf,
       model c = IPtr sv →
       find_field "Id" (sfields sv) = Some idf →
       filter (is_match [("_id", fval idf)]) (coll (collection c) w) = [] →
       ∃ s', Erase {| ctx := c; world := w |} = Done None s').
Proof.
  intros H.
  destruct (H (Sample.do_of (IPtr (Sample.user (VId 7) "A")) None)
              (Sample.world_of [] []) (Sample.user (VId 7) "A")
              (Field "Id" "_id" TObjectId (VId 7)) eq_refl eq_refl eq_refl)
    as [s' E].
  vm_compute in E. discriminate.
Qed.

(** C4, amended.  [Erase] returns what the store's [RemoveId] returns.
    When the store reports no failure of its own: with a record of that
    identity in the collection, the first such record is removed and the
    result is nil; with none, the collection is left as it was and the
    result is [ErrNotFound] in a session in safe mode, nil only when safe
    mode is off. *)
Theorem Erase_returns_store_result c w sv o :
  model c = IPtr sv →
  fval <$> find_field "Id" (sfields sv) = Some (VId o) →
  mjoin (head (faults w)) = None →
  ∃ s',
    match filter (is_match [("_id", VId o)]) (coll (collection c) w) with
    | _ :: rest =>
        Erase {| ctx := c; world := w |} = Done None s'
        ∧ coll (collection c) (world s')
          = remove_first [("_id", VId o)] (coll (collection c) w)
        ∧ filter (is_match [("_id", VId o)]) (coll (collection c) (world s'))
          = rest
    | [] =>
        Erase {| ctx := c; world := w |}
        = Done (if safe w then Some ErrNotFound else None) s'
        ∧ coll (collection c) (world s') = coll (collection c) w
    end.
Proof.
  intros Hm Hid Hf.
  destruct (find_field "Id" (sfields sv)) as [idf|] eqn:Hidf; [|done].
  injection Hid as Hid.
  rewrite (Erase_ok _ _ _ _ Hm Hidf). rewrite Hid.
  rewrite (store_Remove_id _ _ _ Hf).
  destruct (filter (is_match [("_id", VId o)]) (coll (collection c) w))
    as [|d rest] eqn:Hfilter; cbn [fst snd].
  - eexists. split; [reflexivity|]. done.
  - eexists. split; [reflexivity|]. cbn [world]. rewrite coll_set_coll_eq.
    split; [done|]. by eapply filter_remove_first.
Qed.

(** The theorem at work: one record with the identity, then none. *)
Lemma Erase_returns_store_result_witness :
  (∃ s', Erase (Sample.state_of (IPtr (Sample.user (VId 7) "A")) None
                  [Sample.user_doc 7 "A" false] []) = Done None s'
         ∧ coll "User" (world s') = [])
  ∧ (∃ s', Erase (Sample.state_of (IPtr (Sample.user (VId 7) "A")) None
                    [] []) = Done (Some ErrNotFound) s'
           ∧ coll "User" (world s') = []).
Proof.
  split.
  - destruct (Erase_returns_store_result
                (Sample.do_of (IPtr (Sample.user (VId 7) "A")) None)
                (Sample.world_of [Sample.user_doc 7 "A" false] [])
                (Sample.user (VId 7) "A") 7 eq_refl eq_refl eq_refl)
      as [s' H].
    exists s'. vm_compute in H. destruct H as (H1 & H2 & _). split; assumption.
  - destruct (Erase_returns_store_result
                (Sample.do_of (IPtr (Sample.user (VId 7) "A")) None)
                (Sample.world_of [] [])
                (Sample.user (VId 7) "A") 7 eq_refl eq_refl eq_refl)
      as [s' H].
    exists s'. vm_compute in H. destruct H as (H1 & H2). split; assumption.
Defined.

(* ===================================================================== *)
(** ** C5: what becomes of the store's errors *)
(* ===================================================================== *)

(** C5 at its failing input.  With two live records, [Count] returns 2
    when the store answers; when the store's count fails it returns 0 and
    nothing else, the error being dropped, where [FindAll] on the same
    state hands the store's error to its caller. *)
Theorem Count_drops_the_store_error :
  (∃ s', Count working_store = Done 2 s')
  ∧ (∃ s', Count failing_store = Done 0 s'
           ∧ issued failing_store s'
             = [EvRun KCount
                  {| qcoll := "User";
                     qfilter := [("$and", VSlice SIface rmQ)];
                     qsort := [("UpdatedAt", true); ("CreatedAt", true)];
                     qskip := 0; qlimit := 0; qselect := [] |}])
  ∧ (∃ s', FindAll failing_store = Done ([], Some (ErrStore 1)) s').
Proof.
  split; [|split].
  - eexists. vm_compute. reflexivity.
  - eexists. split; vm_compute; reflexivity.
  - eexists. vm_compute. reflexivity.
Qed.

(* ===================================================================== *)
(** ** C6: the filter [EraseAll] sends *)
(* ===================================================================== *)

(** C6 at its failing input.  On a fresh context [EraseAll] sends the
    caller's filter and removes both records named "A".  After a [Count]
    on the same context it sends the filter [findQ] left behind, with the
    soft-delete exclusion in it, and the soft-deleted "A" survives. *)
Theorem EraseAll_after_a_read_spares_soft_deleted :
  (∃ e s', EraseAll erase_all_input = Done e s'
           ∧ issued erase_all_input s'
             = [EvRemoveAll "User" (Some [("name", VStr "A")])]
           ∧ coll "User" (world s') = [Sample.user_doc 3 "B" false])
  ∧ (∃ e s1 s', run_read OpCount erase_all_input = Done () s1
                ∧ EraseAll s1 = Done e s'
                ∧ issued s1 s'
                  = [EvRemoveAll "User"
                       (Some [("name", VStr "A"); ("$and", VSlice SIface rmQ)])]
                ∧ coll "User" (world s')
                  = [Sample.user_doc 2 "A" true; Sample.user_doc 3 "B" false]).
Proof.
  split.
  - eexists _, _. split; [vm_compute; reflexivity|].
    split; vm_compute; reflexivity.
  - eexists _, _, _. split; [vm_compute; reflexivity|].
    split; [vm_compute; reflexivity|]. split; vm_compute; reflexivity.
Qed.

(* ===================================================================== *)
(** ** Writing and reading a record by its identity *)
(* ===================================================================== *)

Lemma is_match_id d d' o :
  doc_get "_id" d' = doc_get "_id" d →
  is_match [("_id", VId o)] d → is_match [("_id", VId o)] d'.
Proof. unfold is_match. rewrite !matches_id. by intros ->. Qed.

Lemma is_match_id_Some d o :
  is_match [("_id", VId o)] d → doc_get "_id" d ≠ None.
Proof.
  unfold is_match. rewrite matches_id. intros H Hn. rewrite Hn in H.
  by vm_compute in H.
Qed.

Lemma is_match_seed o : is_match [("_id", VId o)] [("_id", VId o)].
Proof.
  unfold is_match. rewrite matches_id. cbn [doc_get].
  rewrite decide_True by done. unfold field_eq.
  by rewrite bool_decide_eq_true_2.
Qed.

Lemma store_Run_FindId c o w :
  store_Run KOne (FindId c (VId o)) w
  = (match mjoin (head (faults w)) with
     | Some e => inl e
     | None =>
         match stored c (VId o) w with
         | Some d => inr (ROne d)
         | None => inl ErrNotFound
         end
     end,
     called (EvRun KOne (FindId c (VId o))) w).
Proof.
  unfold store_Run, called, call, stored. cbn [fst snd].
  destruct (mjoin (head (faults w))); [done|].
  change (qfilter (FindId c (VId o))) with [("_id", VId o)].
  rewrite well_formed_id. cbn [negb]. rewrite cursor_FindId.
  change (coll c _) with (coll c w).
  by destruct (filter _ _).
Qed.

(** An upsert by identity that the store acknowledges as done leaves the
    record stored with every field of the update. *)
Lemma store_Upsert_id_done c o set w w' :
  safe w = true →
  store_Upsert c [("_id", VId o)] (Some set) w = (None, w') →
  ∃ docs,
    w' = set_coll c docs (called (EvUpsert c [("_id", VId o)] (Some set)) w)
    ∧ stored c (VId o) w'
      = Some (apply_set set (default [("_id", VId o)] (stored c (VId o) w)))
    ∧ (stored c (VId o) w = None →
       docs = coll c w ++ [apply_set set [("_id", VId o)]]).
Proof.
  intros Hsafe. unfold store_Upsert, called, call, stored, acknowledged.
  cbn [fst snd]. rewrite Hsafe.
  destruct (mjoin (head (faults w))); [done|].
  rewrite well_formed_id. cbn [negb]. rewrite seed_id.
  change (coll c {| db := db w; safe := _; clock := _; nextId := _;
                    faults := _; trace := _ |}) with (coll c w).
  destruct (filter (is_match [("_id", VId o)]) (coll c w)) as [|d rest] eqn:Hf;
    cbn [head default].
  - case_bool_decide as Hid; [|done]. intros [= <-].
    eexists. split; [reflexivity|]. rewrite coll_set_coll_eq.
    rewrite filter_app, Hf. rewrite filter_cons, decide_True.
    + done.
    + destruct Hid as [Hid|Hid]; [done|].
      eapply is_match_id; [exact Hid|apply is_match_seed].
  - case_bool_decide as Hid; [|done]. intros [= <-].
    eexists. split; [reflexivity|]. rewrite coll_set_coll_eq.
    assert (is_match [("_id", VId o)] d) as Hd.
    { apply (list_elem_of_filter (is_match [("_id", VId o)]) (coll c w)).
      rewrite Hf. left. }
    erewrite filter_replace_first; [done|exact Hf|].
    destruct Hid as [Hid|Hid]; [by apply is_match_id_Some in Hd|].
    by eapply is_match_id.
Qed.

(** [saveLog] on a record whose [Id] holds an object id. *)
Lemma saveLog_run op c w sv o :
  model c = IPtr sv →
  fval <$> find_field "Id" (sfields sv) = Some (VId o) →
  saveLog op {| ctx := c; world := w |}
  = let w1 := called (EvRun KOne (FindId (collection c) (VId o))) w in
    match mjoin (head (faults w)) with
    | Some e => Done (Some e) {| ctx := c; world := w1 |}
    | None =>
        match stored (collection c) (VId o) w with
        | None => Done (Some ErrNotFound) {| ctx := c; world := w1 |}
        | Some rec =>
            let cl :=
              {| cl_Id := VId (N.pos (nextId w)); cl_CreatedBy := Operator c;
                 cl_CreatedAt := VTime (Z.pos (clock w));
                 cl_ChangeReason := Reason c; cl_Operation := op;
                 cl_ModelObjId := VId o; cl_ModelName := sname sv;
                 cl_ModelValue := VDoc rec |} in
            let r := store_Upsert (logCollection c) [("_id", cl_Id cl)]
                       (Some (marshal_ChangeLog cl)) (tick (take_id w1)) in
            Done r.1 {| ctx := c; world := r.2 |}
        end
    end.
Proof.
  intros Hm Hid.
  destruct (find_field "Id" (sfields sv)) as [idf|] eqn:Hidf; [|done].
  injection Hid as Hid.
  unfold saveLog. run_step. unfold has_field. rewrite Hidf. cbn [bool_decide].
  rewrite bool_decide_eq_true_2 by eauto.
  rewrite bind_eq. erewrite Value_Interface_run by done. rewrite Hid.
  run_step. rewrite bind_eq. unfold lift at 1. cbn [world ctx].
  rewrite store_Run_FindId.
  destruct (mjoin (head (faults w))) as [e|]; [done|].
  destruct (stored (collection c) (VId o) w) as [rec|]; [|done].
  run_step. run_step. run_step. run_step. run_step. rewrite Hm.
  cbn [getModelName]. run_step. unfold lift. cbn [world ctx].
  by destruct (store_Upsert _ _ _ _).
Qed.

(** [saveLog] returns only on a pointer to a struct whose [Id] holds an
    object id; it panics otherwise. *)
Lemma saveLog_Done op s e s' :
  saveLog op s = Done e s' →
  ∃ sv o, model (ctx s) = IPtr sv
          ∧ fval <$> find_field "Id" (sfields sv) = Some (VId o).
Proof.
  destruct s as [c w]. cbn [ctx].
  destruct (reflect_Elem (model c)) as [sv|] eqn:HE.
  2:{ unfold saveLog. rewrite bind_eq.
      destruct (FieldByName_panics "Id" c w HE) as [msg ->]. done. }
  apply reflect_Elem_Some in HE. unfold saveLog. run_step.
  unfold has_field.
  destruct (find_field "Id" (sfields sv)) as [idf|] eqn:Hidf.
  2:{ rewrite bool_decide_eq_false_2 by (by intros [? ?]).
      rewrite bind_eq. destruct (Value_Interface_panics c w) as [msg ->]. done. }
  rewrite bool_decide_eq_true_2 by eauto.
  rewrite bind_eq. erewrite Value_Interface_run by done.
  destruct (fval idf) as [| | | | |o| |] eqn:Hv; try done.
  intros _. exists sv, o. split; [done|].
  rewrite Hidf. change (Some (fval idf) = Some (VId o)). by rewrite Hv.
Qed.

Lemma model_field_IPtr n c sv :
  model c = IPtr sv →
  model_field n c = fval <$> find_field n (sfields sv).
Proof. unfold model_field. by intros ->. Qed.

(** An upsert under an identity the collection does not hold adds the
    update as a new document. *)
Lemma store_Upsert_fresh c o set w :
  stored c (VId o) w = None →
  doc_get "_id" (apply_set set [("_id", VId o)]) = Some (VId o) →
  store_Upsert c [("_id", VId o)] (Some set) w
  = match mjoin (head (faults w)) with
    | Some e =>
        (Some e, called (EvUpsert c [("_id", VId o)] (Some set)) w)
    | None =>
        (None,
         set_coll c (coll c w ++ [apply_set set [("_id", VId o)]])
           (called (EvUpsert c [("_id", VId o)] (Some set)) w))
    end.
Proof.
  intros Hst Hid. unfold store_Upsert, called, call, stored in *.
  cbn [fst snd].
  destruct (mjoin (head (faults w))); [done|].
  rewrite well_formed_id. cbn [negb]. rewrite seed_id.
  change (coll c {| db := db w; safe := _; clock := _; nextId := _;
                    faults := _; trace := _ |}) with (coll c w).
  destruct (filter (is_match [("_id", VId o)]) (coll c w)); [|done].
  rewrite bool_decide_eq_true_2; [done|]. right. by rewrite Hid.
Qed.

Lemma apply_set_ChangeLog id cby cat reason op oid name v :
  apply_set (marshal_ChangeLog (MkChangeLog id cby cat reason op oid name v))
    [("_id", id)]
  = marshal_ChangeLog (MkChangeLog id cby cat reason op oid name v).
Proof. done. Qed.

(** [saveLog], outcome by outcome, when the id it draws for the entry is
    not in use in the log: either the read or the write fails, and the
    database is as before; or the entry, holding the record as read, is
    added to the log. *)
Lemma saveLog_cases op c w sv o :
  model c = IPtr sv →
  fval <$> find_field "Id" (sfields sv) = Some (VId o) →
  stored (logCollection c) (VId (N.pos (nextId w))) w = None →
  let s := {| ctx := c; world := w |} in
  let read := EvRun KOne (FindId (collection c) (VId o)) in
  (∃ err w', saveLog op s = Done (Some err) {| ctx := c; world := w' |}
             ∧ db w' = db w
             ∧ safe w' = safe w
             ∧ (trace w' = trace w ++ [read]
                ∨ ∃ entry, trace w' = trace w ++
                     [read; EvUpsert (logCollection c)
                              [("_id", VId (N.pos (nextId w)))] (Some entry)]))
  ∨ (∃ rec w',
       stored (collection c) (VId o) w = Some rec
       ∧ saveLog op s = Done None {| ctx := c; world := w' |}
       ∧ db w' = <[logCollection c :=
                     coll (logCollection c) w
                     ++ [log_entry op c w o (sname sv) rec]]> (db w)
       ∧ safe w' = safe w
       ∧ faults w' = tail (tail (faults w))
       ∧ trace w' = trace w ++
           [read; EvUpsert (logCollection c) [("_id", VId (N.pos (nextId w)))]
                    (Some (log_entry op c w o (sname sv) rec))]).
Proof.
  intros Hm Hid Hfresh s read. subst s read.
  rewrite (saveLog_run _ _ _ _ _ Hm Hid). cbn zeta.
  destruct (mjoin (head (faults w))) as [e|] eqn:Hf.
  { left. eexists _, _. split; [reflexivity|]. repeat split; try done.
    by left. }
  destruct (stored (collection c) (VId o) w) as [rec|] eqn:Hrec.
  2:{ left. eexists _, _. split; [reflexivity|]. repeat split; try done.
      by left. }
  cbn [cl_Id]. rewrite store_Upsert_fresh; [|exact Hfresh|done].
  rewrite apply_set_ChangeLog.
  match goal with |- context [mjoin (head (faults ?w1))] =>
    destruct (mjoin (head (faults w1))) as [e|] eqn:Hf2 end.
  - left. eexists _, _. split; [reflexivity|]. repeat split; try done.
    right. eexists. cbn. rewrite <- app_assoc. reflexivity.
  - right. exists rec. eexists. split; [done|]. split; [reflexivity|].
    repeat split; try done.
    cbn. rewrite <- app_assoc. reflexivity.
Qed.

Lemma store_Remove_trace c q w :
  trace (store_Remove c q w).2 = trace w ++ [EvRemove c q].
Proof.
  unfold store_Remove, call. cbn [fst snd].
  destruct (mjoin (head (faults w))); [done|].
  destruct (negb (well_formed q)); [done|].
  by destruct (filter _ _).
Qed.

Lemma store_Upsert_trace c q set w :
  trace (store_Upsert c q (Some set) w).2 = trace w ++ [EvUpsert c q (Some set)].
Proof.
  unfold store_Upsert, call. cbn [fst snd].
  destruct (mjoin (head (faults w))); [done|].
  destruct (negb (well_formed q)); [done|].
  case_bool_decide; [|done]. by destruct (filter _ _).
Qed.

(* ===================================================================== *)
(** ** C2: [EraseWithLog] *)
(* ===================================================================== *)

(** C2.  Whenever [EraseWithLog] returns, on a log where the id drawn
    for the new entry is not in use: either the log step (reading the
    record, then writing the entry) failed, and then that error is
    returned, no removal was asked of the store and the database is as it
    was; or exactly one entry was added to the log, holding under
    [ModelValue] the record's persisted state as it was before the
    removal, and only then was the removal asked of the store, whose
    result is returned. *)
Theorem EraseWithLog_logs_before_erasing s e s' :
  stored (logCollection (ctx s)) (VId (N.pos (nextId (world s)))) (world s)
  = None →
  EraseWithLog s = Done e s' →
  ∃ o,
    model_field "Id" (ctx s) = Some (VId o)
    ∧ ((∃ err, e = Some err
          ∧ saveLog ERASE s = Done (Some err) s'
          ∧ db (world s') = db (world s)
          ∧ ∀ c q, EvRemove c q ∉ issued s s')
       ∨ (∃ rec entry s1,
            stored (collection (ctx s)) (VId o) (world s) = Some rec
            ∧ saveLog ERASE s = Done None s1
            ∧ Erase s1 = Done e s'
            ∧ doc_get "ModelValue" entry = Some (VDoc rec)
            ∧ doc_get "Operation" entry = Some (VStr ERASE)
            ∧ doc_get "ModelObjId" entry = Some (VId o)
            ∧ coll (logCollection (ctx s)) (world s1)
              = coll (logCollection (ctx s)) (world s) ++ [entry]
            ∧ (∀ c', c' ≠ logCollection (ctx s) →
                     coll c' (world s1) = coll c' (world s))
            ∧ issued s s'
              = [EvRun KOne (FindId (collection (ctx s)) (VId o));
                 EvUpsert (logCollection (ctx s))
                   [("_id", VId (N.pos (nextId (world s))))] (Some entry);
                 EvRemove (collection (ctx s)) [("_id", VId o)]])).
Proof.
  intros Hfresh Hrun. unfold EraseWithLog in Hrun. rewrite bind_eq in Hrun.
  destruct (saveLog ERASE s) as [e1 s1|] eqn:HL; [|done].
  destruct (saveLog_Done _ _ _ _ HL) as (sv & o & Hm & Hid).
  destruct s as [c w]. cbn [ctx world] in *.
  exists o. split; [by rewrite (model_field_IPtr _ _ _ Hm)|].
  destruct (saveLog_cases ERASE c w sv o Hm Hid Hfresh)
    as [(err & w' & HL' & Hdb & Hsafe & Htr)
       |(rec & w' & Hrec & HL' & Hdb & Hsafe & Hfl & Htr)];
    cbn zeta in HL'; rewrite HL in HL'; injection HL' as -> ->.
  - left. injection Hrun as <- <-. exists err.
    split; [done|]. split; [done|]. split; [done|].
    intros c' q Hin.
    destruct Htr as [Htr|[entry Htr]];
      rewrite (issued_app {| ctx := c; world := w |}
                 {| ctx := c; world := w' |} _ Htr) in Hin;
      repeat (apply elem_of_cons in Hin as [Hin|Hin]; [discriminate|]);
      by apply elem_of_nil in Hin.
  - right.
    destruct (find_field "Id" (sfields sv)) as [idf|] eqn:Hidf; [|done].
    injection Hid as Hid.
    rewrite (Erase_ok _ _ _ _ Hm Hidf) in Hrun. cbn zeta in Hrun.
    rewrite Hid in Hrun. injection Hrun as <- <-.
    exists rec, (log_entry ERASE c w o (sname sv) rec),
      {| ctx := c; world := w' |}.
    split; [done|]. split; [done|].
    split; [by rewrite (Erase_ok _ _ _ _ Hm Hidf), Hid|].
    split; [done|]. split; [done|]. split; [done|].
    split; [unfold coll at 1; cbn [world]; by rewrite Hdb, lookup_insert_eq|].
    split.
    { intros c' Hne. unfold coll. cbn [world].
      by rewrite Hdb, lookup_insert_ne. }
    apply issued_app. cbn [world]. rewrite store_Remove_trace, Htr.
    by rewrite <- app_assoc.
Qed.

(** The theorem at work: a stored record is erased with its log entry. *)
Lemma EraseWithLog_logs_before_erasing_witness :
  ∃ s',
    EraseWithLog (Sample.state_of (IPtr (Sample.user (VId 7) "A")) None
                    [Sample.user_doc 7 "A" false] []) = Done None s'
    ∧ coll "User" (world s') = []
    ∧ ∃ entry, coll "ChangeLog" (world s') = [entry]
               ∧ doc_get "ModelValue" entry
                 = Some (VDoc (Sample.user_doc 7 "A" false)).
Proof.
  pose (s := Sample.state_of (IPtr (Sample.user (VId 7) "A")) None
               [Sample.user_doc 7 "A" false] []).
  pose (s' := Sample.after (EraseWithLog s)).
  destruct (EraseWithLog_logs_before_erasing s None s')
    as (o & Hid & [(err & He & _)|(rec & entry & s1 & Hrec & HL & HE & Hmv & _)]).
  - vm_compute. reflexivity.
  - vm_compute. reflexivity.
  - discriminate.
  - exists s'. split; [vm_compute; reflexivity|].
    split; [vm_compute; reflexivity|].
    eexists. split; vm_compute; reflexivity.
Defined.

(* ===================================================================== *)
(** ** C1: [SaveWithLog] and [DeleteWithLog] *)
(* ===================================================================== *)

Lemma store_Upsert_safe c q set w : safe (store_Upsert c q set w).2 = safe w.
Proof.
  unfold store_Upsert, call. destruct set as [s|]; [|done]. cbn [fst snd].
  destruct (mjoin (head (faults w))); [done|].
  destruct (negb (well_formed q)); [done|].
  case_bool_decide; [|done]. by destruct (filter _ _).
Qed.

Lemma store_Upsert_marshal c q set w w' :
  store_Upsert c q set w = (None, w') → ∃ s, set = Some s.
Proof. destruct set; [eauto|done]. Qed.

(** After a [$set] of the marshalled struct, the document holds every
    field of the struct under its key. *)
Lemma apply_set_marshal sv set n f d :
  marshal sv = Some set →
  find_field n (sfields sv) = Some f →
  doc_get (fkey f) (apply_set set d) = Some (fval f).
Proof.
  intros Hset Hf. destruct (marshal_Some _ _ Hset) as [Hnd Hin].
  apply apply_set_get; [done|]. apply Hin. by eapply find_field_elem.
Qed.

(** [SaveWithLog]: the record is written first; the entry then logged
    holds the record as stored by that write, new [UpdatedAt] and
    [UpdatedBy] included. *)
Lemma SaveWithLog_snapshot s s' :
  safe (world s) = true →
  SaveWithLog s = Done None s' →
  ∃ o s1 set rec entry kAt kBy,
    model_field "Id" (ctx s) = Some (VId o)
    ∧ Save s = Done None s1
    ∧ saveLog UPDATE s1 = Done None s'
    ∧ stored (collection (ctx s)) (VId o) (world s1) = Some rec
    ∧ field_key "UpdatedAt" (ctx s) = Some kAt
    ∧ doc_get kAt rec = Some (VTime (Z.pos (clock (world s))))
    ∧ field_key "UpdatedBy" (ctx s) = Some kBy
    ∧ doc_get kBy rec = Some (VStr (Operator (ctx s)))
    ∧ doc_get "ModelValue" entry = Some (VDoc rec)
    ∧ doc_get "Operation" entry = Some (VStr UPDATE)
    ∧ issued s s'
      = [EvUpsert (collection (ctx s)) [("_id", VId o)] (Some set);
         EvRun KOne (FindId (collection (ctx s)) (VId o));
         EvUpsert (logCollection (ctx s))
           [("_id", VId (N.pos (nextId (world s))))] (Some entry)].
Proof.
  intros Hsafe Hrun. unfold SaveWithLog in Hrun. rewrite bind_eq in Hrun.
  destruct (Save s) as [[e1|] s1|] eqn:HS; [by injection Hrun|..|done].
  rewrite bind_eq in Hrun.
  destruct (saveLog UPDATE s1) as [[e2|] s2|] eqn:HL;
    [by injection Hrun| |done].
  injection Hrun as <-.
  destruct s as [c w]. cbn [ctx world] in *.
  (* the record's type *)
  destruct (reflect_Elem (model c)) as [sv|] eqn:HE.
  2:{ unfold Save in HS. rewrite bind_eq in HS.
      destruct (FieldByName_panics "Id" c w HE) as [msg E].
      by rewrite E in HS. }
  apply reflect_Elem_Some in HE.
  destruct (schema_Save sv) eqn:Hschema.
  2:{ destruct (Save_panics c w sv HE Hschema) as (msg & sx & E & _).
      by rewrite E in HS. }
  pose proof Hschema as Hs'. unfold schema_Save in Hs'.
  apply andb_true_iff in Hs' as [Hs' Hhas].
  apply andb_true_iff in Hs' as [HAt HBy].
  destruct (has_field_Some _ _ Hhas) as [idf Hidf].
  destruct (has_field_Some _ _ (settable_has_field _ _ _ HAt)) as [fAt HfAt].
  destruct (has_field_Some _ _ (settable_has_field _ _ _ HBy)) as [fBy HfBy].
  (* the save *)
  rewrite (Save_ok _ _ _ _ HE Hschema Hidf) in HS. cbn zeta in HS.
  set (sv' := set_field "UpdatedBy" (VStr (Operator c))
                (set_field "UpdatedAt" (VTime (Z.pos (clock w))) sv)) in *.
  destruct (store_Upsert (collection c) [("_id", fval idf)] (marshal sv')
              (tick w)) as [r w1] eqn:HU.
  cbn [fst snd] in HS. injection HS as -> <-.
  (* the log: the identity is an object id *)
  destruct (saveLog_Done _ _ _ _ HL) as (sv2 & o & Hm2 & Hid2).
  cbn [ctx model set_model] in Hm2. injection Hm2 as <-.
  assert (find_field "Id" (sfields sv') = Some idf) as Hidf'.
  { subst sv'. cbn [set_field sfields].
    by rewrite !find_field_update_ne by done. }
  rewrite Hidf' in Hid2. injection Hid2 as Hid2. rewrite Hid2 in HU.
  destruct (store_Upsert_marshal _ _ _ _ _ HU) as [set Hset].
  rewrite Hset in HU.
  destruct (store_Upsert_id_done _ _ _ (tick w) _ Hsafe HU)
    as (docs & Hw1 & Hst & _).
  change (stored (collection c) (VId o) (tick w))
    with (stored (collection c) (VId o) w) in Hst.
  set (old := default [("_id", VId o)] (stored (collection c) (VId o) w)) in *.
  assert (fval <$> find_field "Id" (sfields sv') = Some (VId o)) as Hid'
    by (rewrite Hidf'; exact (f_equal Some Hid2)).
  pose proof HL as HL0.
  rewrite (saveLog_run UPDATE (set_model (IPtr sv') c) w1 sv' o eq_refl Hid')
    in HL.
  cbn [collection set_model logCollection Operator Reason] in HL.
  cbn zeta in HL.
  destruct (mjoin (head (faults w1))) as [e|]; [by injection HL|].
  rewrite Hst in HL.
  match type of HL with
  | context [store_Upsert ?a ?b (Some ?en) ?d] =>
      pose proof (store_Upsert_trace a b en d) as Htr;
      destruct (store_Upsert a b (Some en) d) as [r2 w2] eqn:HU2;
      set (entry := en) in *
  end.
  cbn [fst snd] in HL, Htr. injection HL as -> <-.
  exists o, {| ctx := set_model (IPtr sv') c; world := w1 |}, set,
    (apply_set set old), entry, (fkey fAt), (fkey fBy).
  split; [rewrite (model_field_IPtr _ _ _ HE), Hidf;
          exact (f_equal Some Hid2)|].
  split; [done|]. split; [exact HL0|]. split; [done|].
  split; [unfold field_key; by rewrite HE; cbn; rewrite HfAt|].
  split.
  { assert (find_field "UpdatedAt" (sfields sv')
            = Some (with_fval (VTime (Z.pos (clock w))) fAt)) as Hf'.
    { subst sv'. cbn [set_field sfields].
      rewrite find_field_update_ne by done.
      by apply find_field_update_eq. }
    apply (apply_set_marshal _ _ _ _ old Hset Hf'). }
  split; [unfold field_key; by rewrite HE; cbn; rewrite HfBy|].
  split.
  { assert (find_field "UpdatedBy" (sfields sv')
            = Some (with_fval (VStr (Operator c)) fBy)) as Hf'.
    { subst sv'. cbn [set_field sfields].
      apply find_field_update_eq.
      by rewrite find_field_update_ne by done. }
    apply (apply_set_marshal _ _ _ _ old Hset Hf'). }
  split; [done|]. split; [done|].
  apply issued_app. cbn [world]. rewrite Htr. subst w1. cbn.
  rewrite <- !app_assoc. reflexivity.
Qed.

(** [DeleteWithLog]: the entry is logged first, holding the record as
    stored before the soft delete; the record is flagged afterwards. *)
Lemma DeleteWithLog_snapshot s s' :
  safe (world s) = true →
  DeleteWithLog s = Done None s' →
  ∃ o s1 set rec entry kRm rec',
    model_field "Id" (ctx s) = Some (VId o)
    ∧ saveLog DELETE s = Done None s1
    ∧ Delete s1 = Done None s'
    ∧ stored (collection (ctx s)) (VId o) (world s) = Some rec
    ∧ doc_get "ModelValue" entry = Some (VDoc rec)
    ∧ doc_get "Operation" entry = Some (VStr DELETE)
    ∧ field_key "IsRemoved" (ctx s) = Some kRm
    ∧ stored (collection (ctx s)) (VId o) (world s') = Some rec'
    ∧ doc_get kRm rec' = Some (VBool true)
    ∧ issued s s'
      = [EvRun KOne (FindId (collection (ctx s)) (VId o));
         EvUpsert (logCollection (ctx s))
           [("_id", VId (N.pos (nextId (world s))))] (Some entry);
         EvUpsert (collection (ctx s)) [("_id", VId o)] (Some set)].
Proof.
  intros Hsafe Hrun. unfold DeleteWithLog in Hrun. rewrite bind_eq in Hrun.
  destruct (saveLog DELETE s) as [[e1|] s1|] eqn:HL;
    [by injection Hrun|..|done].
  rewrite bind_eq in Hrun.
  destruct (Delete s1) as [[e2|] s2|] eqn:HD; [by injection Hrun| |done].
  injection Hrun as <-.
  destruct (saveLog_Done _ _ _ _ HL) as (sv & o & Hm & Hid).
  destruct s as [c w]. cbn [ctx world] in *.
  pose proof HL as HL0. pose proof HD as HD0.
  (* the log *)
  rewrite (saveLog_run DELETE c w sv o Hm Hid) in HL. cbn zeta in HL.
  destruct (mjoin (head (faults w))) as [e|]; [by injection HL|].
  destruct (stored (collection c) (VId o) w) as [rec|] eqn:Hrec;
    [|by injection HL].
  match type of HL with
  | context [store_Upsert ?a ?b (Some ?en) ?d] =>
      pose proof (store_Upsert_trace a b en d) as Htr;
      pose proof (store_Upsert_safe a b (Some en) d) as Hsafe2;
      destruct (store_Upsert a b (Some en) d) as [r2 w2] eqn:HU2;
      set (entry := en) in *
  end.
  cbn [fst snd] in HL, Htr, Hsafe2. injection HL as -> <-.
  (* the soft delete *)
  destruct (schema_Delete sv) eqn:Hschema.
  2:{ destruct (Delete_panics c w2 sv Hm Hschema) as (msg & sx & E & _).
      by rewrite E in HD. }
  pose proof Hschema as Hs'. unfold schema_Delete in Hs'.
  apply andb_true_iff in Hs' as [Hs' Hhas].
  apply andb_true_iff in Hs' as [Hs' HRm].
  destruct (has_field_Some _ _ Hhas) as [idf Hidf].
  destruct (has_field_Some _ _ (settable_has_field _ _ _ HRm)) as [fRm HfRm].
  rewrite Hidf in Hid. injection Hid as Hid.
  rewrite (Delete_ok _ _ _ _ Hm Hschema Hidf) in HD. cbn zeta in HD.
  set (sv' := set_field "IsRemoved" (VBool true)
                (set_field "RemovedBy" (VStr (Operator c))
                   (set_field "RemovedAt" (VTime (Z.pos (clock w2))) sv))) in *.
  rewrite Hid in HD.
  destruct (store_Upsert (collection c) [("_id", VId o)] (marshal sv')
              (tick w2)) as [r w3] eqn:HU.
  cbn [fst snd] in HD. injection HD as -> <-.
  destruct (store_Upsert_marshal _ _ _ _ _ HU) as [set Hset].
  rewrite Hset in HU.
  pose proof (store_Upsert_trace (collection c) [("_id", VId o)] set (tick w2))
    as Htr3.
  rewrite HU in Htr3. cbn [snd] in Htr3.
  destruct (store_Upsert_id_done _ _ _ (tick w2) _
              (eq_trans Hsafe2 Hsafe) HU) as (docs & Hw3 & Hst & _).
  set (old := default [("_id", VId o)]
                (stored (collection c) (VId o) (tick w2))) in *.
  exists o, {| ctx := c; world := w2 |}, set, rec, entry, (fkey fRm),
    (apply_set set old).
  split; [rewrite (model_field_IPtr _ _ _ Hm), Hidf;
          exact (f_equal Some Hid)|].
  split; [done|]. split; [exact HD0|]. split; [done|].
  split; [done|]. split; [done|].
  split; [unfold field_key; by rewrite Hm; cbn; rewrite HfRm|].
  split; [done|].
  split.
  { assert (find_field "IsRemoved" (sfields sv')
            = Some (with_fval (VBool true) fRm)) as Hf'.
    { subst sv'. cbn [set_field sfields].
      apply find_field_update_eq.
      by rewrite !find_field_update_ne by done. }
    apply (apply_set_marshal _ _ _ _ old Hset Hf'). }
  apply issued_app. cbn [world]. rewrite Htr3. cbn [trace tick].
  rewrite Htr. cbn. rewrite <- !app_assoc. reflexivity.
Qed.

(** C1 as stated fails for [DeleteWithLog]: the entry it logs holds the
    record as it was before the soft delete.  Here the record is live;
    after [DeleteWithLog] it is stored with [is_removed] true, and the
    logged [ModelValue] has [is_removed] false. *)
Lemma delete_log_holds_the_state_before :
  ¬ (∀ s s' o entry,
       DeleteWithLog s = Done None s' →
       model_field "Id" (ctx s) = Some (VId o) →
       last (coll (logCollection (ctx s)) (world s')) = Some entry →
       doc_get "ModelValue" entry
       = VDoc <$> stored (collection (ctx s)) (VId o) (world s')).
Proof.
  intros H.
  pose (s := Sample.state_of (IPtr (Sample.user (VId 7) "A")) None
               [Sample.user_doc 7 "A" false] []).
  specialize (H s (Sample.after (DeleteWithLog s)) 7%N
                [ ("_id", VId 50); ("CreatedBy", VStr "alice");
                  ("CreatedAt", VTime 100); ("ChangeReason", VStr "cleanup");
                  ("Operation", VStr "DELETE"); ("ModelObjId", VId 7);
                  ("ModelName", VStr "User");
                  ("ModelValue", VDoc (Sample.user_doc 7 "A" false)) ]).
  assert (DeleteWithLog s = Done None (Sample.after (DeleteWithLog s))) as H1
    by (vm_compute; reflexivity).
  specialize (H H1).
  assert (model_field "Id" (ctx s) = Some (VId 7)) as H2
    by (vm_compute; reflexivity).
  specialize (H H2).
  match type of H with
  | ?P → _ => assert P as H3 by (vm_compute; reflexivity)
  end.
  specialize (H H3). revert H.
  apply (proj1 (bool_decide_eq_false _)). vm_compute. reflexivity.
Qed.

(** C1, amended.  In a session in safe mode, whenever [SaveWithLog]
    returns without error it has first saved the record and then logged
    one entry whose [ModelValue] is the record as stored by that save,
    with the new [UpdatedAt] and [UpdatedBy].  Whenever [DeleteWithLog]
    returns without error it has first logged one entry whose
    [ModelValue] is the record as stored before the soft delete, and then
    performed the soft delete, after which the stored record has
    [IsRemoved] true. *)
Theorem with_log_order s s' :
  safe (world s) = true →
  (SaveWithLog s = Done None s' →
   ∃ o s1 set rec entry kAt kBy,
     model_field "Id" (ctx s) = Some (VId o)
     ∧ Save s = Done None s1
     ∧ saveLog UPDATE s1 = Done None s'
     ∧ stored (collection (ctx s)) (VId o) (world s1) = Some rec
     ∧ field_key "UpdatedAt" (ctx s) = Some kAt
     ∧ doc_get kAt rec = Some (VTime (Z.pos (clock (world s))))
     ∧ field_key "UpdatedBy" (ctx s) = Some kBy
     ∧ doc_get kBy rec = Some (VStr (Operator (ctx s)))
     ∧ doc_get "ModelValue" entry = Some (VDoc rec)
     ∧ doc_get "Operation" entry = Some (VStr UPDATE)
     ∧ issued s s'
       = [EvUpsert (collection (ctx s)) [("_id", VId o)] (Some set);
          EvRun KOne (FindId (collection (ctx s)) (VId o));
          EvUpsert (logCollection (ctx s))
            [("_id", VId (N.pos (nextId (world s))))] (Some entry)])
  ∧ (DeleteWithLog s = Done None s' →
     ∃ o s1 set rec entry kRm rec',
       model_field "Id" (ctx s) = Some (VId o)
       ∧ saveLog DELETE s = Done None s1
       ∧ Delete s1 = Done None s'
       ∧ stored (collection (ctx s)) (VId o) (world s) = Some rec
       ∧ doc_get "ModelValue" entry = Some (VDoc rec)
       ∧ doc_get "Operation" entry = Some (VStr DELETE)
       ∧ field_key "IsRemoved" (ctx s) = Some kRm
       ∧ stored (collection (ctx s)) (VId o) (world s') = Some rec'
       ∧ doc_get kRm rec' = Some (VBool true)
       ∧ issued s s'
         = [EvRun KOne (FindId (collection (ctx s)) (VId o));
            EvUpsert (logCollection (ctx s))
              [("_id", VId (N.pos (nextId (world s))))] (Some entry);
            EvUpsert (collection (ctx s)) [("_id", VId o)] (Some set)]).
Proof.
  intros Hsafe. split.
  - by apply SaveWithLog_snapshot.
  - by apply DeleteWithLog_snapshot.
Qed.

(** The theorem at work, on a stored live record: the entry logged by
    [SaveWithLog] has the new update stamp, the one logged by
    [DeleteWithLog] is the record before it was flagged. *)
Lemma with_log_order_witness :
  (∃ rec entry,
     last (coll "ChangeLog"
             (world (Sample.after
                       (SaveWithLog
                          (Sample.state_of (IPtr (Sample.user (VId 7) "A")) None
                             [Sample.user_doc 7 "A" false] [])))))
     = Some entry
     ∧ doc_get "ModelValue" entry = Some (VDoc rec)
     ∧ doc_get "updated_at" rec = Some (VTime 100)
     ∧ doc_get "updated_by" rec = Some (VStr "alice"))
  ∧ (∃ rec entry,
       last (coll "ChangeLog"
               (world (Sample.after
                         (DeleteWithLog
                            (Sample.state_of (IPtr (Sample.user (VId 7) "A"))
                               None [Sample.user_doc 7 "A" false] [])))))
       = Some entry
       ∧ doc_get "ModelValue" entry = Some (VDoc rec)
       ∧ rec = Sample.user_doc 7 "A" false).
Proof.
  pose (s := Sample.state_of (IPtr (Sample.user (VId 7) "A")) None
               [Sample.user_doc 7 "A" false] []).
  split.
  - destruct (with_log_order s (Sample.after (SaveWithLog s)) eq_refl)
      as [HS _].
    destruct HS as (o & s1 & set & rec & entry & kAt & kBy & _ & _ & _ & _
                    & HkAt & HAt & HkBy & HBy & _); [vm_compute; reflexivity|].
    vm_compute in HkAt, HkBy. injection HkAt as <-. injection HkBy as <-.
    eexists _, _. split; [vm_compute; reflexivity|].
    split; [vm_compute; reflexivity|]. split; vm_compute; reflexivity.
  - destruct (with_log_order s (Sample.after (DeleteWithLog s)) eq_refl)
      as [_ HD].
    destruct HD as (o & s1 & set & rec & entry & _); [vm_compute; reflexivity|].
    eexists _, _. split; [vm_compute; reflexivity|].
    split; [vm_compute; reflexivity|]. reflexivity.
Defined.

(* ===================================================================== *)
(** ** The cursor: order, skip and limit *)
(* ===================================================================== *)


Section Sorting.

Variable keys : list (string * bool).



Lemma insert_sorted_perm x l : insert_sorted keys x l ≡ₚ x :: l.
Proof.
  induction l as [|y l IH]; [done|]. cbn [insert_sorted].
  destruct (doc_le keys x y); [done|].
  rewrite IH. apply perm_swap.
Qed.

Lemma sort_docs_perm l : sort_docs keys l ≡ₚ l.
Proof.
  induction l as [|x l IH]; [done|]. unfold sort_docs in *. cbn [foldr].
  rewrite insert_sorted_perm. by rewrite IH.
Qed.




End Sorting.






Lemma cursor_unfold q w :
  qselect q = [] →
  cursor q w
  = limit_docs (qlimit q)
      (skip_docs (qskip q)
         (sort_docs (qsort q)
            (filter (is_match (qfilter q)) (coll (qcoll q) w)))).
Proof. unfold cursor, project. intros ->. apply list_fmap_id. Qed.



(* ===================================================================== *)
(** ** C8: the default order, and zero skip and limit *)
(* ===================================================================== *)




(* ===================================================================== *)
(** ** C7: [Create], then [Get] *)
(* ===================================================================== *)




Lemma find_field_decode n d fs :
  find_field n (decode_field d <$> fs) = decode_field d <$> find_field n fs.
Proof.
  induction fs as [|f fs IH]; [done|]. rewrite fmap_cons. cbn [find_field].
  cbn [decode_field with_fval fname]. case_decide; [done|apply IH].
Qed.

(** Decoding gives a field back the value the document holds for it,
    when the field's type takes that value. *)
Lemma decode_field_value d f v :
  doc_get (fkey f) d = Some v →
  settable (fname f) v {| sname := ""; sfields := [f] |} = true →
  fval (decode_field d f) = v.
Proof.
  unfold decode_field, settable. cbn [sfields find_field fval with_fval].
  rewrite decide_True by done. intros ->.
  destruct (type_of v); [|done]. by intros ->.
Qed.

Lemma settable_field n v sv f :
  find_field n (sfields sv) = Some f →
  settable n v sv = true →
  settable (fname f) v {| sname := ""; sfields := [f] |} = true.
Proof.
  unfold settable. cbn [sfields find_field]. intros ->.
  by rewrite decide_True.
Qed.

Lemma filter_nil_impl {A} (P Q : A → Prop) `{∀ x, Decision (P x)}
    `{∀ x, Decision (Q x)} (l : list A) :
  (∀ x, P x → Q x) → filter Q l = [] → filter P l = [].
Proof.
  intros HPQ. induction l as [|x l IH]; [done|].
  rewrite !filter_cons. destruct (decide (Q x)); [done|].
  rewrite decide_False by auto. done.
Qed.

Lemma find_field_set_eq n v sv f :
  find_field n (sfields sv) = Some f →
  find_field n (sfields (set_field n v sv)) = Some (with_fval v f).
Proof. apply find_field_update_eq. Qed.

Lemma find_field_set_ne n m v sv :
  n ≠ m →
  find_field m (sfields (set_field n v sv)) = find_field m (sfields sv).
Proof. apply find_field_update_ne. Qed.

Lemma well_formed_by_id o :
  well_formed [("_id", VId o); ("$and", VSlice SIface rmQ)] = true.
Proof.
  unfold well_formed. apply bool_decide_eq_true.
  rewrite (compose_filter_matches (Some [("_id", VId o)])
             [("_id", VId o); ("$and", VSlice SIface rmQ)] [] eq_refl).
  change (default [] (Some [("_id", VId o)])) with [("_id", VId o)].
  by rewrite matches_id.
Qed.

Lemma is_match_by_id o d :
  is_match [("_id", VId o); ("$and", VSlice SIface rmQ)] d
  ↔ soft_deleted d = false ∧ is_match [("_id", VId o)] d.
Proof.
  unfold is_match.
  rewrite (compose_filter_matches (Some [("_id", VId o)])
             [("_id", VId o); ("$and", VSlice SIface rmQ)] d eq_refl).
  change (default [] (Some [("_id", VId o)])) with [("_id", VId o)].
  rewrite matches_id.
  destruct (field_eq (doc_get "_id" d) (VId o)), (soft_deleted d);
    cbn; split; try done; by intros [? ?].
Qed.


(** Reading a stored record back into the struct it was marshalled from
    restores each field. *)
Lemma unmarshal_field n sv set d f :
  marshal sv = Some set →
  find_field n (sfields sv) = Some f →
  settable n (fval f) sv = true →
  fval <$> find_field n (sfields (unmarshal (apply_set set d) sv))
  = Some (fval f).
Proof.
  intros Hset Hf Hs. unfold unmarshal. cbn [sfields].
  rewrite find_field_decode, Hf.
  change (Some (fval (decode_field (apply_set set d) f)) = Some (fval f)).
  f_equal. apply decode_field_value.
  - by eapply apply_set_marshal.
  - by eapply settable_field.
Qed.




Lemma same_type_refl sv : same_type sv sv.
Proof. done. Qed.








(* ===================================================================== *)
(** ** Beyond the claims: the store's failure, method by method *)
(* ===================================================================== *)

Lemma store_Upsert_fault c q set w e :
  mjoin (head (faults w)) = Some e →
  (store_Upsert c q set w).1 = Some e ∨ (store_Upsert c q set w).1 = Some ErrMarshal.
Proof.
  intros Hf. unfold store_Upsert, call. destruct set as [s|]; [|by right].
  cbn [fst snd]. rewrite Hf. by left.
Qed.

Lemma store_Remove_fault c q w e :
  mjoin (head (faults w)) = Some e → (store_Remove c q w).1 = Some e.
Proof. intros Hf. unfold store_Remove, call. cbn [fst snd]. by rewrite Hf. Qed.

Lemma store_RemoveAll_fault c q w e :
  mjoin (head (faults w)) = Some e → (store_RemoveAll c q w).1 = Some e.
Proof. intros Hf. unfold store_RemoveAll, call. cbn [fst snd]. by rewrite Hf. Qed.

Lemma Query_One_model_fault query s e r s' :
  mjoin (head (faults (world s))) = Some e →
  Query_One_model query s = Done r s' → r = Some e.
Proof.
  intros Hf. unfold Query_One_model. rewrite bind_eq. unfold lift.
  pose proof (store_Run_fault KOne query (world s) e Hf) as HR.
  destruct (store_Run KOne query (world s)) as [x w']. cbn [fst] in HR.
  subst x. by intros [= <- <-].
Qed.

Lemma Query_All_fault query s e r s' :
  mjoin (head (faults (world s))) = Some e →
  Query_All query s = Done r s' → r.2 = Some e.
Proof.
  intros Hf. unfold Query_All. rewrite bind_eq. unfold lift.
  pose proof (store_Run_fault KAll query (world s) e Hf) as HR.
  destruct (store_Run KAll query (world s)) as [x w']. cbn [fst] in HR.
  subst x. by intros [= <- <-].
Qed.

Lemma findQ_world s query s' : findQ s = Done query s' → world s' = world s.
Proof. intros HF. by destruct (findQ_Done _ _ _ HF) as (f & keys & _ & _ & -> & _). Qed.

Lemma findByIdQ_world s query s' :
  findByIdQ s = Done query s' → world s' = world s.
Proof.
  intros HF. destruct (findByIdQ_Done _ _ _ HF) as (idv & _ & HQ).
  by apply findQ_world in HQ.
Qed.

(** X1.  When the store's next call is going to fail with [e], every method
    that returns hands [e] to its caller (a mutation whose record [bson]
    refuses to encode returns that refusal instead, having called
    nothing), except [Count], which returns 0. *)
Theorem store_failure_is_returned s e :
  mjoin (head (faults (world s))) = Some e →
  (∀ r s', FindAll s = Done r s' → r.2 = Some e)
  ∧ (∀ cols r s', FindWithSelect cols s = Done r s' → r.2 = Some e)
  ∧ (∀ key r s', Distinct key s = Done r s' → r.2 = Some e)
  ∧ (∀ r s', GetByQ s = Done r s' → r = Some e)
  ∧ (∀ r s', Get s = Done r s' → r = Some e)
  ∧ (∀ cols r s', GetWithSelect cols s = Done r s' → r = Some e)
  ∧ (∀ r s', Erase s = Done r s' → r = Some e)
  ∧ (∀ r s', EraseAll s = Done r s' → r = Some e)
  ∧ (∀ r s', EraseWithLog s = Done r s' → r = Some e)
  ∧ (∀ r s', DeleteWithLog s = Done r s' → r = Some e)
  ∧ (∀ r s', Create s = Done r s' → r = Some e ∨ r = Some ErrMarshal)
  ∧ (∀ r s', Save s = Done r s' → r = Some e ∨ r = Some ErrMarshal)
  ∧ (∀ r s', Delete s = Done r s' → r = Some e ∨ r = Some ErrMarshal)
  ∧ (∀ r s', SaveWithLog s = Done r s' → r = Some e ∨ r = Some ErrMarshal)
  ∧ (∀ n s', Count s = Done n s' → n = 0).
Proof.
  intros Hf. repeat split.
  - intros r s'. unfold FindAll. rewrite bind_eq.
    destruct (findQ s) as [query s1|] eqn:HF; [|done].
    apply findQ_world in HF. apply Query_All_fault. by rewrite HF.
  - intros cols r s'. unfold FindWithSelect. rewrite bind_eq.
    destruct (findQ s) as [query s1|] eqn:HF; [|done].
    apply findQ_world in HF. apply Query_All_fault. by rewrite HF.
  - intros key r s'. unfold Distinct. rewrite bind_eq.
    destruct (findQ s) as [query s1|] eqn:HF; [|done].
    apply findQ_world in HF. rewrite bind_eq. unfold lift.
    pose proof (store_Run_fault (KDistinct key) query (world s1) e) as HR.
    rewrite HF in HR. specialize (HR Hf). rewrite HF.
    destruct (store_Run (KDistinct key) query (world s)) as [x w'].
    cbn [fst] in HR. subst x. by intros [= <- <-].
  - intros r s'. unfold GetByQ. rewrite bind_eq.
    destruct (findQ s) as [query s1|] eqn:HF; [|done].
    apply findQ_world in HF. apply Query_One_model_fault. by rewrite HF.
  - intros r s'. unfold Get. rewrite bind_eq.
    destruct (findByIdQ s) as [query s1|] eqn:HF; [|done].
    apply findByIdQ_world in HF. apply Query_One_model_fault. by rewrite HF.
  - intros cols r s'. unfold GetWithSelect. rewrite bind_eq.
    destruct (findByIdQ s) as [query s1|] eqn:HF; [|done].
    apply findByIdQ_world in HF. apply Query_One_model_fault. by rewrite HF.
  - intros r s' HE. destruct s as [c w].
    destruct (reflect_Elem (model c)) as [sv|] eqn:Hm.
    2:{ unfold Erase in HE. rewrite bind_eq in HE.
        destruct (FieldByName_panics "Id" c w Hm) as [msg E].
        rewrite E in *. discriminate. }
    apply reflect_Elem_Some in Hm.
    destruct (schema_Erase sv) eqn:Hs.
    2:{ destruct (Erase_panics c w sv Hm Hs) as (msg & sx & E & _).
        rewrite E in *. discriminate. }
    destruct (has_field_Some _ _ Hs) as [idf Hidf].
    rewrite (Erase_ok _ _ _ _ Hm Hidf) in HE. injection HE as <- _.
    by apply store_Remove_fault.
  - intros r s'. destruct s as [c w]. unfold EraseAll.
    rewrite bind_eq, gets_run, bind_eq, gets_run. unfold lift.
    cbn [ctx world].
    pose proof (store_RemoveAll_fault (collection c) (Query c) w e Hf) as HR.
    destruct (store_RemoveAll (collection c) (Query c) w) as [x w'].
    cbn [fst] in HR. subst x. by intros [= <- <-].
  - intros r s' HE. unfold EraseWithLog in HE. rewrite bind_eq in HE.
    destruct (saveLog ERASE s) as [r1 s1|] eqn:HL; [|done].
    destruct (saveLog_Done _ _ _ _ HL) as (sv & o & Hm & Hid).
    destruct s as [c w]. rewrite (saveLog_run _ _ _ _ _ Hm Hid) in HL.
    cbn zeta in HL. cbn [world] in Hf. rewrite Hf in HL.
    injection HL as <- <-. by injection HE as <- _.
  - intros r s' HE. unfold DeleteWithLog in HE. rewrite bind_eq in HE.
    destruct (saveLog DELETE s) as [r1 s1|] eqn:HL; [|done].
    destruct (saveLog_Done _ _ _ _ HL) as (sv & o & Hm & Hid).
    destruct s as [c w]. rewrite (saveLog_run _ _ _ _ _ Hm Hid) in HL.
    cbn zeta in HL. cbn [world] in Hf. rewrite Hf in HL.
    injection HL as <- <-. by injection HE as <- _.
  - intros r s' HE. destruct s as [c w].
    destruct (reflect_Elem (model c)) as [sv|] eqn:Hm.
    2:{ unfold Create in HE. rewrite bind_eq in HE.
        destruct (FieldByName_panics "Id" c w Hm) as [msg E].
        rewrite E in *. discriminate. }
    apply reflect_Elem_Some in Hm.
    destruct (schema_Create sv) eqn:Hs.
    2:{ destruct (Create_panics c w sv Hm Hs) as (msg & sx & E & _).
        rewrite E in *. discriminate. }
    rewrite (Create_ok _ _ _ Hm Hs) in HE. injection HE as <- _.
    by apply store_Upsert_fault.
  - intros r s' HE. destruct s as [c w].
    destruct (reflect_Elem (model c)) as [sv|] eqn:Hm.
    2:{ unfold Save in HE. rewrite bind_eq in HE.
        destruct (FieldByName_panics "Id" c w Hm) as [msg E].
        rewrite E in *. discriminate. }
    apply reflect_Elem_Some in Hm.
    destruct (schema_Save sv) eqn:Hs.
    2:{ destruct (Save_panics c w sv Hm Hs) as (msg & sx & E & _).
        rewrite E in *. discriminate. }
    pose proof Hs as Hs'. unfold schema_Save in Hs'.
    apply andb_true_iff in Hs' as [_ Hhas].
    destruct (has_field_Some _ _ Hhas) as [idf Hidf].
    rewrite (Save_ok _ _ _ _ Hm Hs Hidf) in HE. injection HE as <- _.
    by apply store_Upsert_fault.
  - intros r s' HE. destruct s as [c w].
    destruct (reflect_Elem (model c)) as [sv|] eqn:Hm.
    2:{ unfold Delete in HE. rewrite bind_eq in HE.
        destruct (FieldByName_panics "Id" c w Hm) as [msg E].
        rewrite E in *. discriminate. }
    apply reflect_Elem_Some in Hm.
    destruct (schema_Delete sv) eqn:Hs.
    2:{ destruct (Delete_panics c w sv Hm Hs) as (msg & sx & E & _).
        rewrite E in *. discriminate. }
    pose proof Hs as Hs'. unfold schema_Delete in Hs'.
    apply andb_true_iff in Hs' as [_ Hhas].
    destruct (has_field_Some _ _ Hhas) as [idf Hidf].
    rewrite (Delete_ok _ _ _ _ Hm Hs Hidf) in HE. injection HE as <- _.
    by apply store_Upsert_fault.
  - intros r s' HE. unfold SaveWithLog in HE. rewrite bind_eq in HE.
    destruct (Save s) as [r1 s1|] eqn:HS; [|done].
    assert (r1 = Some e ∨ r1 = Some ErrMarshal) as Hr1.
    { destruct s as [c w].
      destruct (reflect_Elem (model c)) as [sv|] eqn:Hm.
      2:{ unfold Save in HS. rewrite bind_eq in HS.
          destruct (FieldByName_panics "Id" c w Hm) as [msg E].
        rewrite E in *. discriminate. }
      apply reflect_Elem_Some in Hm.
      destruct (schema_Save sv) eqn:Hs.
      2:{ destruct (Save_panics c w sv Hm Hs) as (msg & sx & E & _).
        rewrite E in *. discriminate. }
      pose proof Hs as Hs'. unfold schema_Save in Hs'.
      apply andb_true_iff in Hs' as [_ Hhas].
      destruct (has_field_Some _ _ Hhas) as [idf Hidf].
      rewrite (Save_ok _ _ _ _ Hm Hs Hidf) in HS. injection HS as <- _.
      by apply store_Upsert_fault. }
    destruct Hr1 as [-> | ->]; injection HE as <- _; auto.
  - intros n s'. unfold Count. rewrite bind_eq.
    destruct (findQ s) as [query s1|] eqn:HF; [|done].
    apply findQ_world in HF. rewrite bind_eq. unfold lift.
    pose proof (store_Run_fault KCount query (world s1) e) as HR.
    rewrite HF in HR. specialize (HR Hf). rewrite HF.
    destruct (store_Run KCount query (world s)) as [x w'].
    cbn [fst] in HR. subst x. by intros [= <- <-].
Qed.

(** The theorem at work: [FindAll] and [Count] on a failing store. *)
Lemma store_failure_is_returned_witness :
  (∀ r s', FindAll failing_store = Done r s' → r.2 = Some (ErrStore 1))
  ∧ (∀ n s', Count failing_store = Done n s' → n = 0).
Proof.
  destruct (store_failure_is_returned failing_store (ErrStore 1) eq_refl)
    as (H1 & _ & _ & _ & _ & _ & _ & _ & _ & _ & _ & _ & _ & _ & H2).
  split; assumption.
Defined.

(* ===================================================================== *)
(** ** Beyond the claims: what the filter builder does on its way *)
(* ===================================================================== *)

(** [findQ] touches nothing outside the context, whether it returns or
    panics. *)
Lemma findQ_outcome_world s : world (outcome_state (findQ s)) = world s.
Proof.
  unfold findQ. munfold. destruct s as [c w]. cbn [ctx world].
  destruct (Query c) as [q|]; cbn.
  - destruct (doc_get "$and" q) as [[| | | | | | |[] v]|]; cbn; try done;
      destruct (Sort c) as [fs|]; cbn; try done;
      destruct (parse_sorts fs); done.
  - destruct (Sort c) as [fs|]; cbn; try done.
    destruct (parse_sorts fs); done.
Qed.

(** A panic on the type assertion leaves the context as it was. *)
Lemma findQ_foreign_and s q v :
  Query (ctx s) = Some q →
  doc_get "$and" q = Some v →
  (∀ l, v ≠ VSlice SIface l) →
  ∃ msg, findQ s = Panic msg s.
Proof.
  intros HQ Hand Hv. unfold findQ. munfold. destruct s as [c w].
  cbn [ctx world] in *. rewrite HQ, Hand.
  destruct v as [| | | | | | |[] l]; try (eexists; reflexivity).
  by destruct (Hv l).
Qed.

(** X2.  When the caller's filter has an [$and] entry whose value is not
    a [[]interface{}] (a [[]bson.M], say, or nil), every read built on
    [findQ] panics on the type assertion, before anything is asked of the
    store and with the context left as it was. *)
Theorem foreign_and_panics o s q v :
  by_identity o = false →
  Query (ctx s) = Some q →
  doc_get "$and" q = Some v →
  (∀ l, v ≠ VSlice SIface l) →
  ∃ msg, run_read o s = Panic msg s.
Proof.
  intros Hid HQ Hand Hv.
  destruct (findQ_foreign_and s q v HQ Hand Hv) as [msg HF].
  exists msg.
  destruct o; try discriminate; cbn [run_read];
    unfold Q, Count, FindAll, GetByQ, FindWithSelect, Distinct;
    rewrite !bind_eq, HF; reflexivity.
Qed.

(** The theorem at work: [Count] with [$and] given as a [[]bson.M]. *)
Lemma foreign_and_panics_witness :
  ∃ msg,
    run_read OpCount
      (Sample.state_of INil
         (Some [("$and", VSlice SDocs [VDoc [("name", VStr "A")]])])
         [Sample.user_doc 1 "A" false] [])
    = Panic msg
        (Sample.state_of INil
           (Some [("$and", VSlice SDocs [VDoc [("name", VStr "A")]])])
           [Sample.user_doc 1 "A" false] []).
Proof.
  apply (foreign_and_panics OpCount _
           [("$and", VSlice SDocs [VDoc [("name", VStr "A")]])]
           (VSlice SDocs [VDoc [("name", VStr "A")]]));
    [reflexivity..|]. intros l. discriminate.
Defined.

Lemma store_Run_db k q w : db (store_Run k q w).2 = db w.
Proof.
  destruct (store_Run k q w) as [r w'] eqn:HR.
  apply store_Run_world in HR. by subst.
Qed.

(** How [keeps] composes along the monad. *)
Lemma keeps_bind {X A B} (f : State → X) (m : M A) (k : A → M B) :
  keeps f m → (∀ a, keeps f (k a)) → keeps f (m ≫= k).
Proof.
  intros Hm Hk s. rewrite bind_eq. specialize (Hm s).
  destruct (m s) as [a s1|msg s1]; cbn [outcome_state] in *.
  - by rewrite Hk.
  - done.
Qed.

Lemma keeps_ret {X A} (f : State → X) (a : A) : keeps f (mret a).
Proof. done. Qed.

Lemma keeps_panic {X A} (f : State → X) msg : keeps f (@panic A msg).
Proof. done. Qed.

Lemma keeps_gets {X A} (f : State → X) (g : Do → A) : keeps f (gets g).
Proof. done. Qed.

(** What depends on the world only is kept by a change of the context,
    and what depends on the context only by a call into the world. *)
Lemma keeps_modify {X} (f : World → X) g : keeps (f ∘ world) (modify g).
Proof. done. Qed.

Lemma keeps_lift_ctx {X A} (f : Do → X) (g : World → A * World) :
  keeps (f ∘ ctx) (lift g).
Proof. intros s. unfold lift. by destruct (g (world s)). Qed.

Lemma keeps_lift {X A} (f : World → X) (g : World → A * World) :
  (∀ w, f (g w).2 = f w) → keeps (f ∘ world) (lift g).
Proof.
  intros Hg s. unfold lift. specialize (Hg (world s)).
  by destruct (g (world s)).
Qed.

Lemma keeps_FieldByName {X} (f : State → X) n : keeps f (FieldByName n).
Proof.
  intros s. unfold FieldByName. munfold.
  by destruct (reflect_Elem (model (ctx s))).
Qed.

Lemma keeps_Value_Interface {X} (f : State → X) x :
  keeps f (Value_Interface x).
Proof.
  intros s. unfold Value_Interface. munfold.
  destruct x as [n|], (reflect_Elem (model (ctx s))) as [sv|]; try done.
  by destruct (find_field n (sfields sv)).
Qed.

Lemma keeps_Value_Set {X} (f : World → X) x v :
  keeps (f ∘ world) (Value_Set x v).
Proof.
  intros s. unfold Value_Set. munfold.
  destruct x as [n|], (reflect_Elem (model (ctx s))) as [sv|]; try done.
  by destruct (settable n v sv).
Qed.

Lemma keeps_findQ {X} (f : World → X) : keeps (f ∘ world) findQ.
Proof. intros s. cbn. by rewrite findQ_outcome_world. Qed.

Lemma keeps_findByIdQ {X} (f : World → X) : keeps (f ∘ world) findByIdQ.
Proof.
  unfold findByIdQ.
  apply keeps_bind; [apply keeps_FieldByName|intros x].
  apply keeps_bind; [apply keeps_Value_Interface|intros idv].
  apply keeps_bind; [apply keeps_modify|intros _]. apply keeps_findQ.
Qed.

Lemma keeps_Query_All {X} (f : World → X) query :
  (∀ k q w, f (store_Run k q w).2 = f w) → keeps (f ∘ world) (Query_All query).
Proof.
  intros Hf. unfold Query_All.
  apply keeps_bind; [by apply keeps_lift|intros r]. apply keeps_ret.
Qed.

Lemma keeps_Query_One_model {X} (f : World → X) query :
  (∀ k q w, f (store_Run k q w).2 = f w) →
  keeps (f ∘ world) (Query_One_model query).
Proof.
  intros Hf. unfold Query_One_model.
  apply keeps_bind; [by apply keeps_lift|intros r].
  destruct r as [e|[d|ds|n|vs]]; try apply keeps_ret.
  apply keeps_bind; [apply keeps_gets|intros m].
  destruct m; try apply keeps_ret.
  apply keeps_bind; [apply keeps_modify|intros _]. apply keeps_ret.
Qed.

(** Every read keeps whatever the store's query calls keep. *)
Lemma keeps_run_read {X} (f : World → X) o :
  (∀ k q w, f (store_Run k q w).2 = f w) → keeps (f ∘ world) (run_read o).
Proof.
  intros Hf.
  destruct o; cbn [run_read];
    unfold Q, Count, FindAll, GetByQ, FindWithSelect, Distinct, Get,
      GetWithSelect;
    (apply keeps_bind; [|intros ?; apply keeps_ret]);
    try (apply keeps_bind;
         [first [apply keeps_findQ | apply keeps_findByIdQ]|intros query]);
    try apply keeps_findQ;
    try (by apply keeps_Query_All);
    try (by apply keeps_Query_One_model);
    (apply keeps_bind; [by apply keeps_lift|intros r]); apply keeps_ret.
Qed.

(** X3.  No read changes the database: whatever a read through the
    filter builder does (return, return an error, panic), every
    collection holds afterwards what it held before. *)
Theorem reads_leave_the_database_alone o s :
  db (world (outcome_state (run_read o s))) = db (world s).
Proof. apply (keeps_run_read db o). intros k q w. apply store_Run_db. Qed.

(* ===================================================================== *)
(** ** Beyond the claims: what the reads return *)
(* ===================================================================== *)

Lemma cursor_elem q w d :
  qselect q = [] →
  d ∈ cursor q w → d ∈ filter (is_match (qfilter q)) (coll (qcoll q) w).
Proof.
  intros Hsel. rewrite cursor_unfold by done.
  unfold limit_docs, skip_docs. intros Hd.
  assert (d ∈ sort_docs (qsort q)
                (filter (is_match (qfilter q)) (coll (qcoll q) w))) as Hs.
  { case_decide.
    - eapply elem_of_sublist; [exact Hd|apply sublist_drop].
    - eapply elem_of_sublist; [exact Hd|].
      etrans; [apply sublist_take|apply sublist_drop]. }
  by rewrite sort_docs_perm in Hs.
Qed.

Lemma composed_match q f d :
  compose_filter q = Some f →
  is_match f d →
  soft_deleted d = false ∧ matches d (default [] q) = Some true.
Proof.
  intros Hc. unfold is_match. rewrite (compose_filter_matches _ _ d Hc).
  destruct (matches d (default [] q)) as [[]|], (soft_deleted d); cbn; try done.
Qed.

(** The documents [FindAll] returns, one by one. *)
Lemma FindAll_elem s docs err s' d :
  FindAll s = Done (docs, err) s' →
  d ∈ docs →
  d ∈ coll (collection (ctx s)) (world s)
  ∧ soft_deleted d = false
  ∧ matches d (default [] (Query (ctx s))) = Some true.
Proof.
  intros HA Hd. unfold FindAll in HA. rewrite bind_eq in HA.
  destruct (findQ s) as [query s1|] eqn:HF; [|done].
  destruct (findQ_Done _ _ _ HF) as (f & keys & Hc & _ & -> & ->).
  unfold Query_All in HA. rewrite bind_eq in HA. unfold lift in HA.
  cbn [world ctx] in HA. unfold store_Run, call in HA. cbn [fst snd] in HA.
  destruct (mjoin (head (faults (world s))));
    [injection HA as <- _; by apply elem_of_nil in Hd|].
  cbn [qfilter] in HA.
  destruct (negb (well_formed f));
    [injection HA as <- _; by apply elem_of_nil in Hd|].
  injection HA as <- _ _.
  apply cursor_elem in Hd; [|done]. cbn [qfilter qcoll] in Hd.
  apply list_elem_of_filter in Hd as [Hm Hin].
  split; [exact Hin|]. by apply (composed_match _ f).
Qed.

(** X4.  Every document [FindAll] returns is a document of the record's
    collection that is not soft-deleted (its flag is [true] under
    neither [is_removed] nor [IsRemoved]) and that satisfies the filter
    the caller had set. *)
Theorem FindAll_returns_live_matches s docs err s' d :
  FindAll s = Done (docs, err) s' →
  d ∈ docs →
  d ∈ coll (collection (ctx s)) (world s)
  ∧ soft_deleted d = false
  ∧ matches d (default [] (Query (ctx s))) = Some true.
Proof. apply FindAll_elem. Qed.

(** The theorem at work: of a live "A", a soft-deleted "A" and a live
    "B", [FindAll] with the filter [{"name": "A"}] returns the first. *)
Lemma FindAll_returns_live_matches_witness :
  ∃ s',
    FindAll erase_all_input = Done ([Sample.user_doc 1 "A" false], None) s'
    ∧ soft_deleted (Sample.user_doc 1 "A" false) = false
    ∧ matches (Sample.user_doc 1 "A" false) [("name", VStr "A")] = Some true.
Proof.
  assert (∃ s', FindAll erase_all_input
                = Done ([Sample.user_doc 1 "A" false], None) s') as [s' HA].
  { eexists. vm_compute. reflexivity. }
  destruct (FindAll_returns_live_matches erase_all_input _ _ s'
              (Sample.user_doc 1 "A" false) HA) as (_ & H1 & H2); [left|].
  exists s'. repeat split; assumption.
Defined.

(** X5.  [Distinct] reports the values of the live records.  For a
    top-level key, each value reported is taken from a document of the
    collection that is not soft-deleted and satisfies the caller's
    filter: it is the key's value there, or one of its elements when that
    value is an array.  When [Distinct] returns no error, every value so
    taken from such a document is reported.  A value that only
    soft-deleted documents carry is not reported. *)
Theorem Distinct_reports_live_values key s vs err s' :
  top_level key = true →
  Distinct key s = Done (vs, err) s' →
  let live d :=
    d ∈ coll (collection (ctx s)) (world s)
    ∧ soft_deleted d = false
    ∧ matches d (default [] (Query (ctx s))) = Some true in
  (∀ v, v ∈ vs → ∃ d, live d ∧ v ∈ distinct_values key d)
  ∧ (err = None → ∀ d v, live d → v ∈ distinct_values key d → v ∈ vs).
Proof.
  intros _ HD live. unfold Distinct in HD. rewrite bind_eq in HD.
  destruct (findQ s) as [query s1|] eqn:HF; [|done].
  destruct (findQ_Done _ _ _ HF) as (f & keys & Hc & _ & -> & ->).
  rewrite bind_eq in HD. unfold lift in HD.
  cbn [world ctx] in HD. unfold store_Run, call in HD. cbn [fst snd] in HD.
  destruct (mjoin (head (faults (world s)))).
  { injection HD as <- <- _. split; [|done].
    intros v Hv. by apply elem_of_nil in Hv. }
  cbn [qfilter] in HD.
  destruct (negb (well_formed f)).
  { injection HD as <- <- _. split; [|done].
    intros v Hv. by apply elem_of_nil in Hv. }
  injection HD as <- _ _. cbn [qcoll]. split.
  - intros v Hv. rewrite elem_of_remove_dups in Hv.
    apply list_elem_of_bind in Hv as (d & Hv & Hd).
    apply list_elem_of_filter in Hd as [Hm Hin].
    exists d. split; [|exact Hv]. split; [exact Hin|].
    by apply (composed_match _ f).
  - intros _ d v (Hin & Hlive & Hq) Hv. rewrite elem_of_remove_dups.
    apply list_elem_of_bind. exists d. split; [exact Hv|].
    apply list_elem_of_filter. split; [|exact Hin].
    unfold is_match. rewrite (compose_filter_matches _ _ d Hc), Hq, Hlive.
    reflexivity.
Qed.

(** The theorem at work: the tags of the live records, taken one by one
    from the arrays that hold them. *)
Lemma Distinct_reports_live_values_witness :
  let tagged (id : N) (tags : list value) (removed : bool) : doc :=
    [("_id", VId id); ("tags", VSlice SIface tags);
     ("is_removed", VBool removed)] in
  ∃ s',
    Distinct "tags"
      (Sample.state_of INil None
         [tagged 1%N [VStr "x"; VStr "y"] false; tagged 2%N [VStr "y"] false;
          tagged 3%N [VStr "z"] true] [])
    = Done ([VStr "x"; VStr "y"], None) s'
    ∧ VStr "y" ∈ [VStr "x"; VStr "y"].
Proof.
  intros tagged.
  assert (∃ s', Distinct "tags"
                  (Sample.state_of INil None
                     [tagged 1%N [VStr "x"; VStr "y"] false;
                      tagged 2%N [VStr "y"] false;
                      tagged 3%N [VStr "z"] true] [])
                = Done ([VStr "x"; VStr "y"], None) s') as [s' HD].
  { eexists. vm_compute. reflexivity. }
  destruct (Distinct_reports_live_values "tags" _ _ _ _ eq_refl HD)
    as [_ Hall].
  exists s'. split; [exact HD|].
  apply (Hall eq_refl (tagged 2%N [VStr "y"] false)).
  - split; [|split]; [|reflexivity|reflexivity].
    apply list_elem_of_In. right. left. reflexivity.
  - apply list_elem_of_In. left. reflexivity.
Defined.

(* ===================================================================== *)
(** ** Beyond the claims: what the mutations write *)
(* ===================================================================== *)

Lemma store_Upsert_other c c' q set w :
  c ≠ c' → coll c' (store_Upsert c q set w).2 = coll c' w.
Proof.
  intros Hne. unfold store_Upsert, call. destruct set as [s|]; [|done].
  cbn [fst snd]. destruct (mjoin (head (faults w))); [done|].
  destruct (negb (well_formed q)); [done|].
  case_bool_decide; [|done].
  destruct (filter _ _); cbn [snd]; by rewrite coll_set_coll_ne.
Qed.

Lemma store_Remove_other c c' q w :
  c ≠ c' → coll c' (store_Remove c q w).2 = coll c' w.
Proof.
  intros Hne. unfold store_Remove, call. cbn [fst snd].
  destruct (mjoin (head (faults w))); [done|].
  destruct (negb (well_formed q)); [done|].
  destruct (filter _ _); cbn [snd]; [done|by rewrite coll_set_coll_ne].
Qed.

Lemma store_RemoveAll_other c c' q w :
  c ≠ c' → coll c' (store_RemoveAll c q w).2 = coll c' w.
Proof.
  intros Hne. unfold store_RemoveAll, call. cbn [fst snd].
  destruct (mjoin (head (faults w))); [done|].
  destruct (negb (well_formed _)); cbn [snd]; [done|].
  by rewrite coll_set_coll_ne.
Qed.

(** A store call that reports an error has changed nothing. *)
Lemma store_Upsert_error c q set w e :
  (store_Upsert c q set w).1 = Some e → db (store_Upsert c q set w).2 = db w.
Proof.
  unfold store_Upsert, call, acknowledged. destruct set as [s|]; [|done].
  cbn [fst snd]. destruct (mjoin (head (faults w))); [done|].
  destruct (negb (well_formed q)); [done|].
  case_bool_decide; [|done]. by destruct (filter _ _).
Qed.


(** The outcomes of [saveLog]: a panic before anything is asked of the
    store, or a run on a record whose identity is an object id. *)
Lemma saveLog_outcome op s :
  (∃ msg, saveLog op s = Panic msg s)
  ∨ (∃ sv o, model (ctx s) = IPtr sv
             ∧ fval <$> find_field "Id" (sfields sv) = Some (VId o)).
Proof.
  destruct s as [c w]. cbn [ctx].
  destruct (reflect_Elem (model c)) as [sv|] eqn:HE.
  2:{ left. unfold saveLog. rewrite bind_eq.
      destruct (FieldByName_panics "Id" c w HE) as [msg ->]. eauto. }
  apply reflect_Elem_Some in HE.
  destruct (find_field "Id" (sfields sv)) as [idf|] eqn:Hidf.
  2:{ left. unfold saveLog. run_step. unfold has_field. rewrite Hidf.
      rewrite bool_decide_eq_false_2 by (by intros [? ?]).
      rewrite bind_eq. destruct (Value_Interface_panics c w) as [msg ->].
      eauto. }
  destruct (fval idf) as [| | | | |o| |] eqn:Hv;
    try (left; unfold saveLog; run_step; unfold has_field; rewrite Hidf;
         rewrite bool_decide_eq_true_2 by eauto;
         rewrite bind_eq; erewrite Value_Interface_run by done;
         rewrite Hv; eexists; reflexivity).
  right. exists sv, o. split; [done|].
  rewrite Hidf. cbn. by rewrite Hv.
Qed.

(** [saveLog] writes to the log collection only, and writes nothing when
    it reports an error. *)
Lemma saveLog_frame op s :
  (∀ c', c' ≠ logCollection (ctx s) →
         coll c' (world (outcome_state (saveLog op s))) = coll c' (world s))
  ∧ (∀ e s', saveLog op s = Done (Some e) s' → db (world s') = db (world s))
  ∧ ctx (outcome_state (saveLog op s)) = ctx s
  ∧ safe (world (outcome_state (saveLog op s))) = safe (world s).
Proof.
  destruct (saveLog_outcome op s) as [[msg ->]|(sv & o & Hm & Hid)];
    [by repeat split|].
  destruct s as [c w]. cbn [ctx world] in *.
  rewrite (saveLog_run _ _ _ _ _ Hm Hid). cbn zeta.
  destruct (mjoin (head (faults w))); [by repeat split; intros; simplify_eq|].
  destruct (stored (collection c) (VId o) w) as [rec|];
    [|by repeat split; intros; simplify_eq].
  cbn [outcome_state world ctx].
  match goal with
  | |- context [store_Upsert ?a ?b ?s ?d] =>
      pose proof (store_Upsert_safe a b s d) as Hsafe;
      pose proof (λ e, store_Upsert_error a b s d e) as Herr;
      pose proof (λ c' H, store_Upsert_other a c' b s d H) as Hother;
      destruct (store_Upsert a b s d) as [r w2]
  end.
  cbn [fst snd] in *. repeat split; try done.
  - intros c' Hne. rewrite Hother by done. done.
  - intros e s' [= -> <-]. cbn [world]. by rewrite (Herr e).
Qed.

Lemma panics_untouched_coll {A} (o : outcome A) s c' :
  panics_untouched o s →
  coll c' (world (outcome_state o)) = coll c' (world s).
Proof. intros (msg & s' & -> & _ & Hdb). unfold coll. cbn. by rewrite Hdb. Qed.

(** The outcomes of the four single-write methods: a panic before the
    store is asked anything, or the one store call. *)
Lemma Create_outcome c w :
  panics_untouched (Create {| ctx := c; world := w |}) {| ctx := c; world := w |}
  ∨ ∃ sv, model c = IPtr sv ∧ schema_Create sv = true.
Proof.
  destruct (reflect_Elem (model c)) as [sv|] eqn:HE.
  - apply reflect_Elem_Some in HE.
    destruct (schema_Create sv) eqn:Hs; [right; eauto|left].
    by apply (Create_panics c w sv).
  - left. by apply (not_pointer_panics _ "Id" {| ctx := c; world := w |}).
Qed.

Lemma Save_outcome c w :
  panics_untouched (Save {| ctx := c; world := w |}) {| ctx := c; world := w |}
  ∨ ∃ sv idf, model c = IPtr sv ∧ schema_Save sv = true
              ∧ find_field "Id" (sfields sv) = Some idf.
Proof.
  destruct (reflect_Elem (model c)) as [sv|] eqn:HE.
  - apply reflect_Elem_Some in HE.
    destruct (schema_Save sv) eqn:Hs; [right|left; by apply (Save_panics c w sv)].
    pose proof Hs as Hs'. unfold schema_Save in Hs'.
    apply andb_true_iff in Hs' as [_ H3].
    destruct (has_field_Some _ _ H3) as [idf Hidf]. eauto.
  - left. by apply (not_pointer_panics _ "Id" {| ctx := c; world := w |}).
Qed.

Lemma Delete_outcome c w :
  panics_untouched (Delete {| ctx := c; world := w |}) {| ctx := c; world := w |}
  ∨ ∃ sv idf, model c = IPtr sv ∧ schema_Delete sv = true
              ∧ find_field "Id" (sfields sv) = Some idf.
Proof.
  destruct (reflect_Elem (model c)) as [sv|] eqn:HE.
  - apply reflect_Elem_Some in HE.
    destruct (schema_Delete sv) eqn:Hs;
      [right|left; by apply (Delete_panics c w sv)].
    pose proof Hs as Hs'. unfold schema_Delete in Hs'.
    apply andb_true_iff in Hs' as [_ H3].
    destruct (has_field_Some _ _ H3) as [idf Hidf]. eauto.
  - left. by apply (not_pointer_panics _ "Id" {| ctx := c; world := w |}).
Qed.

Lemma Erase_outcome c w :
  panics_untouched (Erase {| ctx := c; world := w |}) {| ctx := c; world := w |}
  ∨ ∃ sv idf, model c = IPtr sv
              ∧ find_field "Id" (sfields sv) = Some idf.
Proof.
  destruct (reflect_Elem (model c)) as [sv|] eqn:HE.
  - apply reflect_Elem_Some in HE.
    destruct (schema_Erase sv) eqn:Hs;
      [right|left; by apply (Erase_panics c w sv)].
    destruct (has_field_Some _ _ Hs) as [idf Hidf]. eauto.
  - left. by apply (not_pointer_panics _ "Id" {| ctx := c; world := w |}).
Qed.

(** Each single-write method writes to the record's collection only, and
    leaves the context's collections, operator and reason as they are. *)
Lemma Create_frame s c' :
  collection (ctx s) ≠ c' →
  coll c' (world (outcome_state (Create s))) = coll c' (world s).
Proof.
  destruct s as [c w]. cbn [ctx world]. intros Hne.
  destruct (Create_outcome c w) as [Hp|(sv & Hm & Hs)];
    [by apply (panics_untouched_coll _ _ c') in Hp|].
  rewrite (Create_ok c w sv Hm Hs). cbn zeta. cbn [outcome_state world].
  by rewrite store_Upsert_other.
Qed.

Lemma Save_frame s c' :
  collection (ctx s) ≠ c' →
  coll c' (world (outcome_state (Save s))) = coll c' (world s).
Proof.
  destruct s as [c w]. cbn [ctx world]. intros Hne.
  destruct (Save_outcome c w) as [Hp|(sv & idf & Hm & Hs & Hid)];
    [by apply (panics_untouched_coll _ _ c') in Hp|].
  rewrite (Save_ok c w sv idf Hm Hs Hid). cbn zeta. cbn [outcome_state world].
  by rewrite store_Upsert_other.
Qed.

Lemma Delete_frame s c' :
  collection (ctx s) ≠ c' →
  coll c' (world (outcome_state (Delete s))) = coll c' (world s).
Proof.
  destruct s as [c w]. cbn [ctx world]. intros Hne.
  destruct (Delete_outcome c w) as [Hp|(sv & idf & Hm & Hs & Hid)];
    [by apply (panics_untouched_coll _ _ c') in Hp|].
  rewrite (Delete_ok c w sv idf Hm Hs Hid). cbn zeta. cbn [outcome_state world].
  by rewrite store_Upsert_other.
Qed.

Lemma Erase_frame s c' :
  collection (ctx s) ≠ c' →
  coll c' (world (outcome_state (Erase s))) = coll c' (world s).
Proof.
  destruct s as [c w]. cbn [ctx world]. intros Hne.
  destruct (Erase_outcome c w) as [Hp|(sv & idf & Hm & Hid)];
    [by apply (panics_untouched_coll _ _ c') in Hp|].
  rewrite (Erase_ok c w sv idf Hm Hid). cbn zeta. cbn [outcome_state world].
  by rewrite store_Remove_other.
Qed.

Lemma EraseAll_frame s c' :
  collection (ctx s) ≠ c' →
  coll c' (world (outcome_state (EraseAll s))) = coll c' (world s).
Proof.
  destruct s as [c w]. cbn [ctx world]. intros Hne. unfold EraseAll.
  rewrite bind_eq, gets_run, bind_eq, gets_run. unfold lift. cbn [ctx world].
  pose proof (store_RemoveAll_other (collection c) c' (Query c) w Hne) as H.
  destruct (store_RemoveAll _ _ _). exact H.
Qed.

Lemma SaveWithLog_frame s c' :
  collection (ctx s) ≠ c' → logCollection (ctx s) ≠ c' →
  coll c' (world (outcome_state (SaveWithLog s))) = coll c' (world s).
Proof.
  intros Hc Hlc. pose proof (Save_frame s c' Hc) as HS.
  destruct s as [c w]. cbn [ctx world] in *. unfold SaveWithLog.
  rewrite bind_eq.
  destruct (Save_outcome c w) as [(msg & s' & E & _)|(sv & idf & Hm & Hs & Hid)].
  { rewrite E in *. exact HS. }
  rewrite (Save_ok c w sv idf Hm Hs Hid) in *. cbn zeta in *.
  destruct (store_Upsert _ _ _ _) as [r w1]. cbn [fst snd outcome_state world] in *.
  destruct r as [e|]; [exact HS|]. rewrite bind_eq.
  destruct (saveLog_frame UPDATE
              {| ctx := set_model
                          (IPtr (set_field "UpdatedBy" (VStr (Operator c))
                                   (set_field "UpdatedAt"
                                      (VTime (Z.pos (clock w))) sv))) c;
                 world := w1 |}) as (Hf & _).
  specialize (Hf c' (not_eq_sym Hlc)). cbn [world] in Hf.
  destruct (saveLog _ _) as [[e|] s2|msg s2];
    (etrans; [|exact HS]); (etrans; [|exact Hf]); reflexivity.
Qed.

Lemma EraseWithLog_frame s c' :
  collection (ctx s) ≠ c' → logCollection (ctx s) ≠ c' →
  coll c' (world (outcome_state (EraseWithLog s))) = coll c' (world s).
Proof.
  intros Hc Hlc. unfold EraseWithLog. rewrite bind_eq.
  destruct (saveLog_frame ERASE s) as (Hf & _ & Hctx & _).
  specialize (Hf c' (not_eq_sym Hlc)).
  destruct (saveLog _ _) as [[e|] s2|msg s2]; cbn [outcome_state] in *;
    try exact Hf.
  etrans; [|exact Hf]. apply Erase_frame. by rewrite Hctx.
Qed.

Lemma DeleteWithLog_frame s c' :
  collection (ctx s) ≠ c' → logCollection (ctx s) ≠ c' →
  coll c' (world (outcome_state (DeleteWithLog s))) = coll c' (world s).
Proof.
  intros Hc Hlc. unfold DeleteWithLog. rewrite bind_eq.
  destruct (saveLog_frame DELETE s) as (Hf & _ & Hctx & _).
  specialize (Hf c' (not_eq_sym Hlc)).
  destruct (saveLog _ _) as [[e|] s2|msg s2]; cbn [outcome_state] in *;
    try exact Hf.
  rewrite bind_eq.
  pose proof (Delete_frame s2 c') as HD. rewrite Hctx in HD.
  specialize (HD Hc).
  destruct (Delete s2) as [[e|] s3|msg s3];
    (etrans; [|exact Hf]); (etrans; [|exact HD]); reflexivity.
Qed.

(** X6. Every mutating method writes to its own collections only.  Let
    [c'] be a collection other than the record's: [Create], [Save],
    [Delete], [Erase] and [EraseAll] leave it as it was; so do
    [SaveWithLog], [DeleteWithLog] and [EraseWithLog] when it is not the
    log's collection either.  This holds whether the method returns nil,
    returns an error or panics. *)
Theorem mutations_keep_to_their_collections s c' :
  collection (ctx s) ≠ c' →
  let same {A} (m : M A) :=
    coll c' (world (outcome_state (m s))) = coll c' (world s) in
  same Create ∧ same Save ∧ same Delete ∧ same Erase ∧ same EraseAll
  ∧ (logCollection (ctx s) ≠ c' →
     same SaveWithLog ∧ same DeleteWithLog ∧ same EraseWithLog).
Proof.
  intros Hc same. unfold same.
  split; [by apply Create_frame|]. split; [by apply Save_frame|].
  split; [by apply Delete_frame|]. split; [by apply Erase_frame|].
  split; [by apply EraseAll_frame|]. intros Hlc.
  split; [by apply SaveWithLog_frame|].
  split; [by apply DeleteWithLog_frame|by apply EraseWithLog_frame].
Qed.

(** The theorem at work: a database with a second collection, which the
    methods run on a user leave alone. *)
Lemma mutations_keep_to_their_collections_witness :
  let s :=
    {| ctx := Sample.do_of (IPtr (Sample.user (VId 1) "A")) None;
       world :=
         {| db := {[ "User" := [Sample.user_doc 1 "A" false];
                     "Audit" := [[("_id", VId 9)]] ]};
            safe := true; clock := 100; nextId := 50; faults := [];
            trace := [] |} |} in
  coll "Audit" (world (outcome_state (Delete s))) = [[("_id", VId 9)]]
  ∧ coll "Audit" (world (outcome_state (EraseWithLog s))) = [[("_id", VId 9)]].
Proof.
  intros s.
  destruct (mutations_keep_to_their_collections s "Audit")
    as (_ & _ & HD & _ & _ & HL); [discriminate|].
  destruct HL as (_ & _ & HE); [discriminate|].
  split; [exact HD|exact HE].
Defined.

(* ===================================================================== *)
(** ** Beyond the claims: removing a record, then reading it *)
(* ===================================================================== *)

(** The documents of an identity after an upsert by that identity which
    the store acknowledged: the first takes the update, the others stay. *)
Lemma store_Upsert_id_filter c o set w w' :
  safe w = true →
  store_Upsert c [("_id", VId o)] (Some set) w = (None, w') →
  filter (is_match [("_id", VId o)]) (coll c w')
  = apply_set set
      (default [("_id", VId o)]
         (head (filter (is_match [("_id", VId o)]) (coll c w))))
    :: tail (filter (is_match [("_id", VId o)]) (coll c w)).
Proof.
  intros Hsafe. unfold store_Upsert, called, call, acknowledged.
  cbn [fst snd]. rewrite Hsafe.
  destruct (mjoin (head (faults w))); [done|].
  rewrite well_formed_id. cbn [negb]. rewrite seed_id.
  change (coll c {| db := db w; safe := _; clock := _; nextId := _;
                    faults := _; trace := _ |}) with (coll c w).
  destruct (filter (is_match [("_id", VId o)]) (coll c w)) as [|d rest] eqn:Hf;
    cbn [head default tail].
  - case_bool_decide as Hid; [|done]. intros [= <-].
    rewrite coll_set_coll_eq.
    rewrite filter_app, Hf. rewrite filter_cons, decide_True; [done|].
    destruct Hid as [Hid|Hid]; [done|].
    eapply is_match_id; [exact Hid|apply is_match_seed].
  - case_bool_decide as Hid; [|done]. intros [= <-].
    rewrite coll_set_coll_eq.
    assert (is_match [("_id", VId o)] d) as Hd.
    { apply (list_elem_of_filter (is_match [("_id", VId o)]) (coll c w)).
      rewrite Hf. left. }
    erewrite filter_replace_first; [done|exact Hf|].
    destruct Hid as [Hid|Hid]; [by apply is_match_id_Some in Hd|].
    by eapply is_match_id.
Qed.

(** [Get] when every document of the model's identity is soft-deleted,
    or there is none: [ErrNotFound], and the model is left as it was. *)
Lemma Get_hidden c w sv o keys :
  model c = IPtr sv →
  fval <$> find_field "Id" (sfields sv) = Some (VId o) →
  sort_keys (Sort c) = Some keys →
  mjoin (head (faults w)) = None →
  (∀ d, d ∈ coll (collection c) w → is_match [("_id", VId o)] d →
        soft_deleted d = true) →
  ∃ w',
    Get {| ctx := c; world := w |}
    = Done (Some ErrNotFound)
        {| ctx := set_Query
                    (Some [("_id", VId o); ("$and", VSlice SIface rmQ)]) c;
           world := w' |}
    ∧ db w' = db w.
Proof.
  intros Hm Hid Hkeys Hfault Hall.
  destruct (find_field "Id" (sfields sv)) as [idf|] eqn:Hidf; [|done].
  injection Hid as Hid.
  unfold Get, findByIdQ. rewrite bind_eq. run_step.
  unfold has_field. rewrite Hidf. rewrite bool_decide_eq_true_2 by eauto.
  rewrite bind_eq. erewrite Value_Interface_run by done. rewrite Hid.
  rewrite bind_eq. unfold modify at 1. cbn [ctx world].
  rewrite (findQ_total
             {| ctx := set_Query (Some [("_id", VId o)]) c; world := w |}
             [("_id", VId o); ("$and", VSlice SIface rmQ)] keys
             eq_refl Hkeys).
  cbn [ctx world collection set_Query Skip Limit].
  unfold Query_One_model. rewrite bind_eq. unfold lift. cbn [ctx world].
  unfold store_Run, call. cbn [fst snd]. rewrite Hfault.
  cbn [qfilter]. rewrite well_formed_by_id. cbn [negb].
  rewrite cursor_unfold by done. cbn [qlimit qskip qsort qfilter qcoll].
  match goal with |- context [coll ?a ?b] => change (coll a b) with
      (coll (collection c) w) end.
  assert (filter (is_match [("_id", VId o); ("$and", VSlice SIface rmQ)])
            (coll (collection c) w) = []) as ->.
  { apply elem_of_nil_inv. intros d [Hmatch Hd]%list_elem_of_filter.
    apply is_match_by_id in Hmatch as [Hlive Hmatch].
    rewrite (Hall d Hd Hmatch) in Hlive. done. }
  unfold skip_docs, limit_docs, sort_docs. cbn [foldr].
  rewrite drop_nil. rewrite take_nil.
  assert ((if decide (Limit c = 0) then @nil doc else []) = []) as ->
    by (by case_decide).
  eexists. split; reflexivity.
Qed.

Lemma short_tail {A} (l : list A) : (length l ≤ 1)%nat → tail l = [].
Proof. destruct l as [|x [|y l]]; cbn; [done..|lia]. Qed.

(** X7.  A soft-deleted record is hidden from [Get].  Let the record's
    [IsRemoved] field be stored under [is_removed] or [IsRemoved], and the
    collection hold at most one document of the record's identity (the
    store's unique index on [_id]).  After a [Delete] that returned nil in
    a safe-mode session, [Get] on the same context returns
    [mgo.ErrNotFound] when the store answers, and changes nothing in the
    database. *)
Theorem Delete_then_Get_not_found c w sv o f keys s1 :
  model c = IPtr sv →
  fval <$> find_field "Id" (sfields sv) = Some (VId o) →
  find_field "IsRemoved" (sfields sv) = Some f →
  fkey f = "is_removed" ∨ fkey f = "IsRemoved" →
  sort_keys (Sort c) = Some keys →
  safe w = true →
  (length (filter (is_match [("_id", VId o)]) (coll (collection c) w)) ≤ 1)%nat →
  Delete {| ctx := c; world := w |} = Done None s1 →
  mjoin (head (faults (world s1))) = None →
  ∃ s2, Get s1 = Done (Some ErrNotFound) s2
        ∧ db (world s2) = db (world s1).
Proof.
  intros Hm Hid Hf Hkey Hkeys Hsafe Huniq HD Hfault.
  destruct (Delete_outcome c w) as [(msg & s' & E & _)|(sv0 & idf & Hm0 & Hs & Hidf)];
    [congruence|].
  assert (sv0 = sv) as -> by congruence.
  rewrite Hidf in Hid. injection Hid as Hid.
  rewrite (Delete_ok c w sv idf Hm Hs Hidf) in HD. cbn zeta in HD.
  rewrite Hid in HD.
  remember (set_field "IsRemoved" (VBool true)
              (set_field "RemovedBy" (VStr (Operator c))
                 (set_field "RemovedAt" (VTime (Z.pos (clock w))) sv)))
    as sv' eqn:Hsv'.
  destruct (store_Upsert (collection c) [("_id", VId o)] (marshal sv') (tick w))
    as [r w1] eqn:HU.
  cbn [fst snd] in HD. injection HD as -> <-. cbn [world] in Hfault.
  destruct (store_Upsert_marshal _ _ _ _ _ HU) as [set Hset].
  rewrite Hset in HU.
  pose proof (store_Upsert_id_filter _ _ _ (tick w) _ Hsafe HU) as HF.
  change (coll (collection c) (tick w)) with (coll (collection c) w) in HF.
  rewrite (short_tail _ Huniq) in HF.
  assert (find_field "IsRemoved" (sfields sv')
          = Some (with_fval (VBool true) f)) as Hf'.
  { rewrite Hsv'. apply find_field_set_eq.
    by rewrite !find_field_set_ne by done. }
  assert (fval <$> find_field "Id" (sfields sv') = Some (VId o)) as Hid'.
  { rewrite Hsv'. rewrite !find_field_set_ne by done. by rewrite Hidf, <- Hid. }
  destruct (Get_hidden (set_model (IPtr sv') c) w1 sv' o keys)
    as (w2 & HG & Hdb); [done|exact Hid'|exact Hkeys|exact Hfault| |].
  - intros d Hd Hmatch.
    assert (d ∈ filter (is_match [("_id", VId o)]) (coll (collection c) w1))
      as Hin by (by apply list_elem_of_filter).
    rewrite HF in Hin. apply list_elem_of_singleton in Hin as ->.
    apply flagged_soft_deleted.
    pose proof (apply_set_marshal sv' set "IsRemoved" _
                  (default [("_id", VId o)]
                     (head (filter (is_match [("_id", VId o)])
                              (coll (collection c) w)))) Hset Hf') as Hget.
    cbn [with_fval fkey fval] in Hget.
    destruct Hkey as [Hk|Hk]; rewrite Hk in Hget; auto.
  - eexists. split; [exact HG|exact Hdb].
Qed.

(** The theorem at work: a stored user is soft-deleted, then asked for. *)
Lemma Delete_then_Get_not_found_witness :
  ∃ s1 s2,
    Delete (Sample.state_of (IPtr (Sample.user (VId 1) "A")) None
              [Sample.user_doc 1 "A" false; Sample.user_doc 2 "B" false] [])
    = Done None s1
    ∧ Get s1 = Done (Some ErrNotFound) s2
    ∧ db (world s2) = db (world s1).
Proof.
  assert (∃ s1,
            Delete (Sample.state_of (IPtr (Sample.user (VId 1) "A")) None
                      [Sample.user_doc 1 "A" false; Sample.user_doc 2 "B" false]
                      [])
            = Done None s1
            ∧ mjoin (head (faults (world s1))) = None) as (s1 & HD & Hfl).
  { eexists. split; vm_compute; reflexivity. }
  destruct (Delete_then_Get_not_found
              (Sample.do_of (IPtr (Sample.user (VId 1) "A")) None)
              (Sample.world_of
                 [Sample.user_doc 1 "A" false; Sample.user_doc 2 "B" false] [])
              (Sample.user (VId 1) "A") 1%N
              (Field "IsRemoved" "is_removed" TBool (VBool false))
              [("UpdatedAt", true); ("CreatedAt", true)] s1
              eq_refl eq_refl eq_refl (or_introl eq_refl) eq_refl eq_refl)
    as (s2 & HG & Hdb); [vm_compute; lia|exact HD|exact Hfl|].
  exists s1, s2. repeat split; assumption.
Defined.




(** X9.  An erased record is gone for [Get].  Let the collection hold at
    most one document of the record's identity.  After an [Erase] that
    returned nil, [Get] on the same context returns [mgo.ErrNotFound]
    when the store answers. *)
Theorem Erase_then_Get_not_found c w sv o keys s1 :
  model c = IPtr sv →
  fval <$> find_field "Id" (sfields sv) = Some (VId o) →
  sort_keys (Sort c) = Some keys →
  (length (filter (is_match [("_id", VId o)]) (coll (collection c) w)) ≤ 1)%nat →
  Erase {| ctx := c; world := w |} = Done None s1 →
  mjoin (head (faults (world s1))) = None →
  ∃ s2, Get s1 = Done (Some ErrNotFound) s2
        ∧ db (world s2) = db (world s1).
Proof.
  intros Hm Hid Hkeys Huniq HE Hfault.
  destruct (find_field "Id" (sfields sv)) as [idf|] eqn:Hidf; [|done].
  injection Hid as Hid.
  rewrite (Erase_ok c w sv idf Hm Hidf) in HE. cbn zeta in HE. rewrite Hid in HE.
  destruct (mjoin (head (faults w))) as [e|] eqn:Hfw.
  { pose proof (store_Remove_fault (collection c) [("_id", VId o)] w e Hfw) as H.
    destruct (store_Remove _ _ _) as [r w1]. cbn [fst] in *. congruence. }
  rewrite (store_Remove_id _ _ _ Hfw) in HE.
  assert (filter (is_match [("_id", VId o)]) (coll (collection c) (world s1)) = [])
    as Hgone.
  { destruct (filter (is_match [("_id", VId o)]) (coll (collection c) w))
      as [|d rest] eqn:HF; cbn [fst snd] in HE.
    - injection HE as _ <-. cbn [world]. by rewrite coll_called.
    - injection HE as <-. cbn [world].
      rewrite coll_set_coll_eq. rewrite (filter_remove_first _ _ _ _ HF).
      destruct rest; [done|]. cbn in Huniq. lia. }
  destruct s1 as [c1 w1].
  assert (c1 = c) as ->.
  { destruct (filter _ _); cbn [fst snd] in HE; by injection HE. }
  cbn [world] in *.
  destruct (Get_hidden c w1 sv o keys) as (w2 & HG & Hdb); try done.
  - rewrite Hidf. cbn. by rewrite Hid.
  - intros d Hd Hmatch.
    assert (d ∈ filter (is_match [("_id", VId o)]) (coll (collection c) w1))
      as Hin by (by apply list_elem_of_filter).
    rewrite Hgone in Hin. by apply elem_of_nil in Hin.
  - eexists. split; [exact HG|exact Hdb].
Qed.

(** The theorem at work: a stored user is erased, then asked for. *)
Lemma Erase_then_Get_not_found_witness :
  ∃ s1 s2,
    Erase (Sample.state_of (IPtr (Sample.user (VId 1) "A")) None
             [Sample.user_doc 1 "A" false; Sample.user_doc 2 "B" false] [])
    = Done None s1
    ∧ Get s1 = Done (Some ErrNotFound) s2
    ∧ db (world s2) = db (world s1).
Proof.
  assert (∃ s1,
            Erase (Sample.state_of (IPtr (Sample.user (VId 1) "A")) None
                     [Sample.user_doc 1 "A" false; Sample.user_doc 2 "B" false]
                     [])
            = Done None s1
            ∧ mjoin (head (faults (world s1))) = None) as (s1 & HD & Hfl).
  { eexists. split; vm_compute; reflexivity. }
  destruct (Erase_then_Get_not_found
              (Sample.do_of (IPtr (Sample.user (VId 1) "A")) None)
              (Sample.world_of
                 [Sample.user_doc 1 "A" false; Sample.user_doc 2 "B" false] [])
              (Sample.user (VId 1) "A") 1%N
              [("UpdatedAt", true); ("CreatedAt", true)] s1
              eq_refl eq_refl eq_refl)
    as (s2 & HG & Hdb); [vm_compute; lia|exact HD|exact Hfl|].
  exists s1, s2. repeat split; assumption.
Defined.

(* ===================================================================== *)
(** ** Beyond the claims: [Save] and [Delete] as upserts *)
(* ===================================================================== *)




(* ===================================================================== *)
(** ** Beyond the claims: the logged methods, step by step *)
(* ===================================================================== *)





(** X12.  [DeleteWithLog] and [EraseWithLog] refuse a record that was
    never stored.  When the collection holds no document of the record's
    identity and the store answers, both return [mgo.ErrNotFound] from
    the log's read of the record, and write nothing: neither a log entry
    nor, for [DeleteWithLog], the flagged record that [Delete] alone
    would have inserted. *)
Theorem logged_removal_of_an_unsaved_record c w sv o :
  model c = IPtr sv →
  fval <$> find_field "Id" (sfields sv) = Some (VId o) →
  stored (collection c) (VId o) w = None →
  mjoin (head (faults w)) = None →
  (∃ s', DeleteWithLog {| ctx := c; world := w |} = Done (Some ErrNotFound) s'
         ∧ db (world s') = db w)
  ∧ (∃ s', EraseWithLog {| ctx := c; world := w |} = Done (Some ErrNotFound) s'
           ∧ db (world s') = db w).
Proof.
  intros Hm Hid Hst Hfault. split.
  - unfold DeleteWithLog. rewrite bind_eq, (saveLog_run _ _ _ _ _ Hm Hid).
    cbn zeta. rewrite Hfault, Hst. eexists. split; reflexivity.
  - unfold EraseWithLog. rewrite bind_eq, (saveLog_run _ _ _ _ _ Hm Hid).
    cbn zeta. rewrite Hfault, Hst. eexists. split; reflexivity.
Qed.

(** The theorem at work: user 3 is not among the stored users. *)
Lemma logged_removal_of_an_unsaved_record_witness :
  ∃ s',
    DeleteWithLog
      (Sample.state_of (IPtr (Sample.user (VId 3) "C")) None
         [Sample.user_doc 1 "A" false] [])
    = Done (Some ErrNotFound) s'
    ∧ db (world s') = {[ "User" := [Sample.user_doc 1 "A" false] ]}.
Proof.
  destruct (logged_removal_of_an_unsaved_record
              (Sample.do_of (IPtr (Sample.user (VId 3) "C")) None)
              (Sample.world_of [Sample.user_doc 1 "A" false] [])
              (Sample.user (VId 3) "C") 3%N eq_refl eq_refl)
    as [(s' & HD & Hdb) _]; [vm_compute; reflexivity..|].
  exists s'. split; [exact HD|exact Hdb].
Defined.

Lemma store_Upsert_nextId c q set w : nextId (store_Upsert c q set w).2 = nextId w.
Proof.
  unfold store_Upsert, call. destruct set as [s|]; [|done].
  cbn [fst snd]. destruct (mjoin (head (faults w))); [done|].
  destruct (negb (well_formed q)); [done|].
  case_bool_decide; [|done]. by destruct (filter _ _).
Qed.

Lemma appended_nothing {A} (x y : list A) :
  x = y → ∃ l, x = y ++ l ∧ (length l ≤ 1)%nat.
Proof. intros ->. exists []. split; [by rewrite app_nil_r|cbn; lia]. Qed.

(** [saveLog] adds at most one entry to the log, after those it holds,
    when the id it draws is not in use there. *)
Lemma saveLog_appends op s :
  stored (logCollection (ctx s)) (VId (N.pos (nextId (world s)))) (world s)
  = None →
  ∃ l, coll (logCollection (ctx s)) (world (outcome_state (saveLog op s)))
       = coll (logCollection (ctx s)) (world s) ++ l
       ∧ (length l ≤ 1)%nat.
Proof.
  intros Hfresh.
  destruct (saveLog_outcome op s) as [[msg ->]|(sv & o & Hm & Hid)].
  { by apply appended_nothing. }
  destruct s as [c w]. cbn [ctx world] in *.
  destruct (saveLog_cases op c w sv o Hm Hid Hfresh)
    as [(err & w' & -> & Hdb & _)|(rec & w' & _ & -> & Hdb & _)];
    cbn [outcome_state world].
  - apply appended_nothing. unfold coll. by rewrite Hdb.
  - eexists [_]. split; [|cbn; lia]. unfold coll at 1. rewrite Hdb.
    by rewrite lookup_insert_eq.
Qed.

(** X13.  The logged methods only ever add to the log.  When the log is
    another collection than the record's and the id drawn for the entry
    is not in use in the log, [SaveWithLog], [DeleteWithLog] and
    [EraseWithLog] leave every entry of the log in place and add at most
    one entry after them, whether they return nil, return an error or
    panic. *)
Theorem the_log_only_grows s :
  collection (ctx s) ≠ logCollection (ctx s) →
  stored (logCollection (ctx s)) (VId (N.pos (nextId (world s)))) (world s)
  = None →
  let grows (m : M goerr) :=
    ∃ l, coll (logCollection (ctx s)) (world (outcome_state (m s)))
         = coll (logCollection (ctx s)) (world s) ++ l
         ∧ (length l ≤ 1)%nat in
  grows SaveWithLog ∧ grows DeleteWithLog ∧ grows EraseWithLog.
Proof.
  intros Hne Hfresh grows. unfold grows. split; [|split].
  - pose proof (Save_frame s _ Hne) as HS.
    destruct s as [c w]. cbn [ctx world] in *. unfold SaveWithLog.
    rewrite bind_eq.
    destruct (Save_outcome c w)
      as [(msg & s' & E & _)|(sv & idf & Hm & Hs & Hid)].
    { rewrite E in *. by apply appended_nothing. }
    rewrite (Save_ok c w sv idf Hm Hs Hid) in *. cbn zeta in *.
    match goal with
    | |- context [store_Upsert ?a ?b ?x ?d] =>
        pose proof (store_Upsert_nextId a b x d) as Hnext;
        destruct (store_Upsert a b x d) as [r w1]
    end.
    cbn [fst snd outcome_state world] in *.
    destruct r as [e|]; [by apply appended_nothing|]. rewrite bind_eq.
    match goal with
    | |- context [saveLog UPDATE ?s1] =>
        destruct (saveLog_appends UPDATE s1) as (l & Hl & Hlen)
    end.
    { cbn [ctx world logCollection set_model]. rewrite Hnext.
      unfold stored in *. by rewrite HS. }
    cbn [ctx world logCollection set_model] in Hl. rewrite HS in Hl.
    exists l. split; [|done]. rewrite <- Hl.
    by destruct (saveLog _ _) as [[e|] s2|msg s2].
  - unfold DeleteWithLog. rewrite bind_eq.
    destruct (saveLog_appends DELETE s Hfresh) as (l & Hl & Hlen).
    destruct (saveLog_frame DELETE s) as (_ & _ & Hctx & _).
    exists l. split; [|done]. rewrite <- Hl.
    destruct (saveLog DELETE s) as [[e|] s2|msg s2]; cbn [outcome_state] in *;
      [done| |done].
    rewrite bind_eq. pose proof (Delete_frame s2 (logCollection (ctx s))) as HD.
    rewrite Hctx in HD. specialize (HD Hne).
    by destruct (Delete s2) as [[e|] s3|msg s3].
  - unfold EraseWithLog. rewrite bind_eq.
    destruct (saveLog_appends ERASE s Hfresh) as (l & Hl & Hlen).
    destruct (saveLog_frame ERASE s) as (_ & _ & Hctx & _).
    exists l. split; [|done]. rewrite <- Hl.
    destruct (saveLog ERASE s) as [[e|] s2|msg s2]; cbn [outcome_state] in *;
      [done| |done].
    apply Erase_frame. by rewrite Hctx.
Qed.

(** The theorem at work: a log that holds an entry already. *)
Lemma the_log_only_grows_witness :
  let s :=
    {| ctx := Sample.do_of (IPtr (Sample.user (VId 1) "B")) None;
       world :=
         {| db := {[ "User" := [Sample.user_doc 1 "A" false];
                     "ChangeLog" := [[("_id", VId 9)]] ]};
            safe := true; clock := 100; nextId := 50; faults := [];
            trace := [] |} |} in
  ∃ l, coll "ChangeLog" (world (outcome_state (DeleteWithLog s)))
       = [("_id", VId 9)] :: l
       ∧ (length l ≤ 1)%nat.
Proof.
  intros s.
  destruct (the_log_only_grows s) as (_ & (l & Hl & Hlen) & _);
    [discriminate|vm_compute; reflexivity|].
  exists l. split; [exact Hl|exact Hlen].
Defined.

(* ===================================================================== *)
(** ** Beyond the claims: a context over a model that is no pointer *)
(* ===================================================================== *)

Lemma NewDo_Some m operator reason c :
  NewDo m operator reason = Some c →
  ∃ name, getModelName m = Some name
          ∧ c = {| model := m; collection := name; logCollection := "ChangeLog";
                   Query := None; Sort := None; Skip := 0; Limit := 0;
                   Operator := operator; Reason := reason |}.
Proof.
  unfold NewDo. destruct (getModelName m) as [name|]; [|done].
  intros [= <-]. eauto.
Qed.

Lemma findQ_fresh c w :
  Query c = None → Sort c = None →
  ∃ query s', findQ {| ctx := c; world := w |} = Done query s'.
Proof.
  intros HQ HS. eexists _, _.
  apply (findQ_total {| ctx := c; world := w |}
           [("$and", VSlice SIface rmQ)] [("UpdatedAt", true); ("CreatedAt", true)]).
  - cbn [ctx]. by rewrite HQ.
  - cbn [ctx]. by rewrite HS.
Qed.

(** X14.  [NewDo] takes a collection's name or a struct by value for the
    model as well as a pointer to a struct, and names the collection
    after it; the log is always [ChangeLog].  On a context made from a
    model that is no pointer, every method that reflects on the model
    panics at once, the state untouched: [Create], [Save], [Delete],
    [Erase], their logged variants, [Get] and [GetWithSelect].  The
    methods that do not reflect on it do not panic: [Count], [FindAll],
    [FindWithSelect], [Distinct] and [EraseAll]. *)
Theorem model_must_be_a_pointer m operator reason c w cols key :
  NewDo m operator reason = Some c →
  (∀ sv, m ≠ IPtr sv) →
  let s := {| ctx := c; world := w |} in
  getModelName m = Some (collection c)
  ∧ logCollection c = "ChangeLog"
  ∧ Forall (λ method : M goerr, ∃ msg, method s = Panic msg s)
      [Create; Save; Delete; Erase; SaveWithLog; DeleteWithLog; EraseWithLog;
       Get; GetWithSelect cols]
  ∧ panicked (Count s) = false
  ∧ panicked (FindAll s) = false
  ∧ panicked (FindWithSelect cols s) = false
  ∧ panicked (Distinct key s) = false
  ∧ panicked (EraseAll s) = false.
Proof.
  intros HN Hptr s.
  destruct (NewDo_Some _ _ _ _ HN) as (name & Hname & Hc).
  assert (reflect_Elem (model c) = None) as HE.
  { rewrite Hc. cbn [model]. destruct m; try done. by destruct (Hptr sv). }
  assert (∀ n, ∃ msg, FieldByName n s = Panic msg s) as HF
    by (intros n; apply FieldByName_panics, HE).
  destruct (findQ_fresh c w) as (query & s' & HQ); [by rewrite Hc..|].
  fold s in HQ.
  split; [by rewrite Hc|]. split; [by rewrite Hc|]. split.
  { repeat apply Forall_cons_2; [..|apply Forall_nil_2].
    - unfold Create. rewrite bind_eq. destruct (HF "Id") as [msg ->]. eauto.
    - unfold Save. rewrite bind_eq. destruct (HF "Id") as [msg ->]. eauto.
    - unfold Delete. rewrite bind_eq. destruct (HF "Id") as [msg ->]. eauto.
    - unfold Erase. rewrite bind_eq. destruct (HF "Id") as [msg ->]. eauto.
    - unfold SaveWithLog, Save. rewrite !bind_eq.
      destruct (HF "Id") as [msg ->]. eauto.
    - unfold DeleteWithLog, saveLog. rewrite !bind_eq.
      destruct (HF "Id") as [msg ->]. eauto.
    - unfold EraseWithLog, saveLog. rewrite !bind_eq.
      destruct (HF "Id") as [msg ->]. eauto.
    - unfold Get, findByIdQ. rewrite !bind_eq.
      destruct (HF "Id") as [msg ->]. eauto.
    - unfold GetWithSelect, findByIdQ. rewrite !bind_eq.
      destruct (HF "Id") as [msg ->]. eauto. }
  split; [|split; [|split; [|split]]].
  - unfold Count. rewrite bind_eq, HQ, bind_eq. unfold lift.
    by destruct (store_Run _ _ _).
  - unfold FindAll, Query_All. rewrite bind_eq, HQ, bind_eq. unfold lift.
    by destruct (store_Run _ _ _).
  - unfold FindWithSelect, Query_All. rewrite bind_eq, HQ, bind_eq. unfold lift.
    by destruct (store_Run _ _ _).
  - unfold Distinct. rewrite bind_eq, HQ, bind_eq. unfold lift.
    by destruct (store_Run _ _ _).
  - unfold EraseAll. subst s. rewrite bind_eq, gets_run, bind_eq, gets_run.
    unfold lift. by destruct (store_RemoveAll _ _ _).
Qed.

(** The theorem at work: a context made from the name of a collection. *)
Lemma model_must_be_a_pointer_witness :
  ∃ c,
    NewDo (IString "User") "alice" "cleanup" = Some c
    ∧ collection c = "User"
    ∧ (∃ msg, Create {| ctx := c; world := Sample.world_of [] [] |}
              = Panic msg {| ctx := c; world := Sample.world_of [] [] |})
    ∧ panicked (FindAll {| ctx := c; world := Sample.world_of [] [] |}) = false.
Proof.
  eexists. split; [reflexivity|].
  destruct (model_must_be_a_pointer (IString "User") "alice" "cleanup" _
              (Sample.world_of [] []) [] "name" eq_refl)
    as (Hn & _ & HP & _ & HA & _); [discriminate|].
  split; [reflexivity|]. split; [|exact HA].
  by apply Forall_cons_1 in HP as [HP _].
Defined.

(* ===================================================================== *)
(** ** Beyond the claims: the reads against each other *)
(* ===================================================================== *)





Lemma store_Run_Count_All q w :
  (∃ e, (store_Run KAll q w).1 = inl e ∧ (store_Run KCount q w).1 = inl e)
  ∨ (∃ ds, (store_Run KAll q w).1 = inr (RAll ds)
           ∧ (store_Run KCount q w).1 = inr (RCount (Z.of_nat (length ds)))).
Proof.
  unfold store_Run, call. cbn [fst snd].
  destruct (mjoin (head (faults w))); [left; eauto|].
  destruct (negb (well_formed (qfilter q))); [left; eauto|right; eauto].
Qed.



(** X16.  [Count] is the number of documents [FindAll] returns on the
    same state, under the context's skip and limit; where [FindAll]
    returns an error and no document, [Count] is 0. *)
Theorem Count_is_the_length_of_FindAll s docs err s1 :
  FindAll s = Done (docs, err) s1 →
  ∃ s2, Count s = Done (Z.of_nat (length docs)) s2 ∧ ctx s2 = ctx s1.
Proof.
  intros HA. unfold FindAll, Count, Query_All in *.
  rewrite bind_eq in HA. rewrite bind_eq.
  destruct (findQ s) as [query s0|msg s0] eqn:HQ; [|done].
  rewrite bind_eq in HA. rewrite bind_eq. unfold lift in *.
  destruct (store_Run_Count_All query (world s0))
    as [(e & H1 & H2)|(ds & H1 & H2)];
    destruct (store_Run KCount query (world s0)) as [rc wc];
    destruct (store_Run KAll query (world s0)) as [r w1]; cbn [fst] in *;
    subst rc r; injection HA as <- <- <-; eexists; split; reflexivity.
Qed.

(** The theorem at work: a context that skips the first record. *)
Lemma Count_is_the_length_of_FindAll_witness :
  let s :=
    {| ctx :=
         {| model := INil; collection := "User"; logCollection := "ChangeLog";
            Query := None; Sort := None; Skip := 1; Limit := 0;
            Operator := "alice"; Reason := "" |};
       world := Sample.world_of
                  [Sample.user_doc 1 "A" false; Sample.user_doc 2 "B" false;
                   Sample.user_doc 3 "C" true] [] |} in
  ∃ s2, Count s = Done 1 s2.
Proof.
  intros s.
  assert (∃ d s1, FindAll s = Done ([d], None) s1) as (d & s1 & HA).
  { eexists _, _. vm_compute. reflexivity. }
  destruct (Count_is_the_length_of_FindAll _ _ _ _ HA) as (s2 & HC & _).
  exists s2. exact HC.
Defined.

(** X17.  What [EraseAll] has erased no read finds again.  After an
    [EraseAll] that returned nil in a safe-mode session, [FindAll] on the
    same context returns no document: [EraseAll] removes at least every
    document that the reads with the context's filter return. *)
Theorem EraseAll_then_FindAll_is_empty s s1 docs err s2 :
  safe (world s) = true →
  EraseAll s = Done None s1 →
  FindAll s1 = Done (docs, err) s2 →
  docs = [].
Proof.
  intros Hsafe HE HA. apply elem_of_nil_inv. intros d Hd.
  destruct (FindAll_elem _ _ _ _ d HA Hd) as (Hin & _ & Hmatch).
  destruct s as [c w]. cbn [world] in Hsafe. unfold EraseAll in HE.
  rewrite bind_eq, gets_run, bind_eq, gets_run in HE. unfold lift in HE.
  cbn [ctx world] in HE. unfold store_RemoveAll, call, acknowledged in HE.
  cbn [fst snd safe] in HE. rewrite Hsafe in HE.
  destruct (mjoin (head (faults w))); [done|].
  destruct (negb (well_formed (default [] (Query c)))); [done|].
  injection HE as <-. cbn [ctx world] in *.
  rewrite coll_set_coll_eq in Hin.
  by apply list_elem_of_filter in Hin as [Hno _].
Qed.

(** The theorem at work: the records named "A" are erased, soft-deleted
    or not, and a read for them returns nothing. *)
Lemma EraseAll_then_FindAll_is_empty_witness :
  ∃ s1 s2,
    EraseAll erase_all_input = Done None s1
    ∧ coll "User" (world s1) = [Sample.user_doc 3 "B" false]
    ∧ FindAll s1 = Done ([], None) s2.
Proof.
  assert (∃ s1 docs s2,
            EraseAll erase_all_input = Done None s1
            ∧ coll "User" (world s1) = [Sample.user_doc 3 "B" false]
            ∧ FindAll s1 = Done (docs, None) s2)
    as (s1 & docs & s2 & HE & Hc & HA).
  { eexists _, _, _. repeat split; vm_compute; reflexivity. }
  pose proof (EraseAll_then_FindAll_is_empty erase_all_input s1 docs None s2
                eq_refl HE HA) as Hnil.
  exists s1, s2. split; [exact HE|]. split; [exact Hc|].
  rewrite <- Hnil. exact HA.
Defined.

(** X18.  [Create] never overwrites.  When the id it draws is not in use
    in the collection, a [Create] that returned nil in a safe-mode
    session has added one document after those the collection held, all
    of which are as they were; the document is the one stored under the
    new id, which the model now carries, and the next id drawn will be
    another. *)
Theorem Create_adds_one_document c w sv s1 :
  model c = IPtr sv →
  safe w = true →
  stored (collection c) (VId (N.pos (nextId w))) w = None →
  Create {| ctx := c; world := w |} = Done None s1 →
  ∃ d, coll (collection c) (world s1) = coll (collection c) w ++ [d]
       ∧ stored (collection c) (VId (N.pos (nextId w))) (world s1) = Some d
       ∧ model_field "Id" (ctx s1) = Some (VId (N.pos (nextId w)))
       ∧ nextId (world s1) ≠ nextId w.
Proof.
  intros Hm Hsafe Hfresh HC.
  destruct (Create_outcome c w) as [(msg & s' & E & _)|(sv0 & Hm0 & Hs)];
    [congruence|].
  assert (sv0 = sv) as -> by congruence.
  rewrite (Create_ok c w sv Hm Hs) in HC. cbn zeta in HC.
  remember (set_field "CreatedBy" (VStr (Operator c))
              (set_field "CreatedAt" (VTime (Z.pos (clock w)))
                 (set_field "Id" (VId (N.pos (nextId w))) sv))) as sv' eqn:Hsv'.
  pose proof (store_Upsert_nextId (collection c)
                [("_id", VId (N.pos (nextId w)))] (marshal sv')
                (tick (take_id w))) as Hnext.
  destruct (store_Upsert (collection c) [("_id", VId (N.pos (nextId w)))]
              (marshal sv') (tick (take_id w))) as [r w1] eqn:HU.
  cbn [fst snd] in *. injection HC as -> <-.
  destruct (store_Upsert_marshal _ _ _ _ _ HU) as [set Hset].
  rewrite Hset in HU.
  destruct (store_Upsert_id_done _ _ _ (tick (take_id w)) _ Hsafe HU)
    as (docs & -> & Hst & Hnew).
  specialize (Hnew Hfresh).
  eexists. split; [|split; [|split]].
  - cbn [world]. rewrite coll_set_coll_eq. exact Hnew.
  - cbn [world]. rewrite Hst.
    change (stored (collection c) (VId (N.pos (nextId w))) (tick (take_id w)))
      with (stored (collection c) (VId (N.pos (nextId w))) w).
    by rewrite Hfresh.
  - cbn [ctx]. rewrite (model_field_IPtr _ _ sv') by done. rewrite Hsv'.
    rewrite !find_field_set_ne by done.
    unfold schema_Create in Hs. apply andb_true_iff in Hs as [Hs _].
    apply andb_true_iff in Hs as [H1 _].
    destruct (has_field_Some _ _ (settable_has_field _ _ _ H1)) as [idf Hidf].
    by rewrite (find_field_set_eq _ _ _ _ Hidf).
  - cbn [world]. rewrite Hnext. cbn [nextId tick take_id]. lia.
Qed.

(** The theorem at work: a third user is created. *)
Lemma Create_adds_one_document_witness :
  ∃ s1 d,
    Create (Sample.state_of (IPtr (Sample.user VNil "C")) None
              [Sample.user_doc 1 "A" false; Sample.user_doc 2 "B" true] [])
    = Done None s1
    ∧ coll "User" (world s1)
      = [Sample.user_doc 1 "A" false; Sample.user_doc 2 "B" true; d]
    ∧ doc_get "name" d = Some (VStr "C").
Proof.
  assert (∃ s1,
            Create (Sample.state_of (IPtr (Sample.user VNil "C")) None
                      [Sample.user_doc 1 "A" false; Sample.user_doc 2 "B" true]
                      [])
            = Done None s1
            ∧ (stored "User" (VId 50) (world s1)
               ≫= doc_get "name") = Some (VStr "C")) as (s1 & HC & Hname).
  { eexists. split; vm_compute; reflexivity. }
  destruct (Create_adds_one_document
              (Sample.do_of (IPtr (Sample.user VNil "C")) None)
              (Sample.world_of
                 [Sample.user_doc 1 "A" false; Sample.user_doc 2 "B" true] [])
              (Sample.user VNil "C") s1 eq_refl eq_refl eq_refl HC)
    as (d & Hcoll & Hst & _).
  exists s1, d. split; [exact HC|]. split; [exact Hcoll|].
  change (VId (N.pos (nextId _))) with (VId 50) in Hst.
  change (collection _) with "User" in Hst.
  rewrite Hst in Hname. exact Hname.
Defined.

Lemma store_Run_One_All q w :
  (∃ e, (store_Run KAll q w).1 = inl e ∧ (store_Run KOne q w).1 = inl e)
  ∨ (∃ ds, (store_Run KAll q w).1 = inr (RAll ds)
           ∧ (store_Run KOne q w).1
             = match ds with
               | d :: _ => inr (ROne d)
               | [] => inl ErrNotFound
               end).
Proof.
  unfold store_Run, call. cbn [fst snd].
  destruct (mjoin (head (faults w))); [left; eauto|].
  destruct (negb (well_formed (qfilter q))); [left; eauto|right].
  eexists. split; [reflexivity|]. by destruct (cursor _ _).
Qed.

(** X19.  [GetByQ] reads the first of the documents that [FindAll]
    returns on the same state.  For a model that is a pointer to a
    struct: when [FindAll] returns documents, [GetByQ] returns nil and
    the model holds the first of them, decoded; when it returns none,
    [GetByQ] returns [mgo.ErrNotFound] and the model is as it was. *)
Theorem GetByQ_reads_the_first_of_FindAll s sv docs s1 :
  model (ctx s) = IPtr sv →
  FindAll s = Done (docs, None) s1 →
  ∃ s2,
    GetByQ s = Done (match docs with [] => Some ErrNotFound | _ => None end) s2
    ∧ model (ctx s2)
      = IPtr (match docs with [] => sv | d :: _ => unmarshal d sv end).
Proof.
  intros Hm HA. unfold FindAll, GetByQ, Query_All, Query_One_model in *.
  rewrite bind_eq in HA. rewrite bind_eq.
  destruct (findQ s) as [query s0|msg s0] eqn:HQ; [|done].
  destruct (findQ_Done _ _ _ HQ) as (f & keys & _ & _ & Hs0 & _).
  assert (model (ctx s0) = IPtr sv) as Hm0 by (by rewrite Hs0).
  rewrite bind_eq in HA. rewrite bind_eq. unfold lift in *.
  destruct (store_Run_One_All query (world s0))
    as [(e & H1 & H2)|(ds & H1 & H2)];
    destruct (store_Run KOne query (world s0)) as [r1 wo];
    destruct (store_Run KAll query (world s0)) as [r w1]; cbn [fst] in *;
    subst r1 r; [done|]. injection HA as <- <-.
  destruct ds as [|d ds].
  - eexists. split; [reflexivity|]. exact Hm0.
  - rewrite bind_eq, gets_run. cbn [ctx]. rewrite Hm0.
    eexists. split; reflexivity.
Qed.

(** The theorem at work: the records named "A", of which the live one
    is read into the model. *)
Lemma GetByQ_reads_the_first_of_FindAll_witness :
  ∃ s2,
    GetByQ (Sample.state_of (IPtr (Sample.user VNil "")) (Some [("name", VStr "A")])
              [Sample.user_doc 2 "A" true; Sample.user_doc 1 "A" false;
               Sample.user_doc 3 "B" false] [])
    = Done None s2
    ∧ model_field "Id" (ctx s2) = Some (VId 1).
Proof.
  assert (∃ s1,
            FindAll
              (Sample.state_of (IPtr (Sample.user VNil ""))
                 (Some [("name", VStr "A")])
                 [Sample.user_doc 2 "A" true; Sample.user_doc 1 "A" false;
                  Sample.user_doc 3 "B" false] [])
            = Done ([Sample.user_doc 1 "A" false], None) s1) as [s1 HA].
  { eexists. vm_compute. reflexivity. }
  destruct (GetByQ_reads_the_first_of_FindAll
              (Sample.state_of (IPtr (Sample.user VNil ""))
                 (Some [("name", VStr "A")])
                 [Sample.user_doc 2 "A" true; Sample.user_doc 1 "A" false;
                  Sample.user_doc 3 "B" false] [])
              (Sample.user VNil "") _ _ eq_refl HA) as (s2 & HG & Hmodel).
  exists s2. split; [exact HG|]. unfold model_field. rewrite Hmodel.
  vm_compute. reflexivity.
Defined.






(* ===================================================================== *)
(** ** Beyond the claims: a sort key without a field name *)
(* ===================================================================== *)

Lemma parse_sorts_None fs f :
  f ∈ fs → parse_sort f = None → parse_sorts fs = None.
Proof.
  intros Hin Hf. unfold parse_sorts.
  destruct (mapM parse_sort fs) as [keys|] eqn:HM; [|done].
  assert (is_Some (mapM parse_sort fs)) as HS by eauto.
  apply mapM_is_Some_1 in HS. rewrite Forall_forall in HS.
  destruct (HS f Hin) as [x Hx]. cbn in Hx. congruence.
Qed.

(** [findQ] writes the composed filter into the context before it hands
    the sort keys to [Sort]: a panic there leaves the filter rewritten. *)
Lemma findQ_sort_panics s q fs :
  compose_filter (Query (ctx s)) = Some q →
  Sort (ctx s) = Some fs →
  parse_sorts fs = None →
  findQ s = Panic "Sort: empty field name"
              {| ctx := set_Query (Some q) (ctx s); world := world s |}.
Proof.
  unfold findQ, compose_filter. munfold. destruct s as [c w]. cbn [ctx world].
  intros Hq HS HP.
  destruct (Query c) as [q0|]; cbn.
  - destruct (doc_get "$and" q0) as [[| | | | | | |[] v]|]; try discriminate;
      injection Hq as <-; cbn; rewrite HS; cbn; by rewrite HP.
  - injection Hq as <-. rewrite HS. cbn. by rewrite HP.
Qed.

(** X21.  A sort key without a field name ([""], ["-"] or ["+"]) among
    the context's [Sort] makes every read built on [findQ] panic in
    [Query.Sort], before anything is asked of the store; the context's
    filter has by then been rewritten with the exclusion of soft-deleted
    records. *)
Theorem empty_sort_field_panics o s q fs f :
  by_identity o = false →
  compose_filter (Query (ctx s)) = Some q →
  Sort (ctx s) = Some fs →
  f ∈ fs →
  f = "" ∨ f = "-" ∨ f = "+" →
  run_read o s
  = Panic "Sort: empty field name"
      {| ctx := set_Query (Some q) (ctx s); world := world s |}.
Proof.
  intros Hid Hq HS Hin Hf.
  assert (parse_sort f = None) as HP by (by destruct Hf as [->|[->| ->]]).
  pose proof (findQ_sort_panics s q fs Hq HS (parse_sorts_None _ _ Hin HP)) as HF.
  destruct o; try discriminate; cbn [run_read];
    unfold Q, Count, FindAll, GetByQ, FindWithSelect, Distinct;
    rewrite !bind_eq, HF; reflexivity.
Qed.

(** The theorem at work: [FindAll] with [Sort] set to [name] and [-]. *)
Lemma empty_sort_field_panics_witness :
  let s :=
    {| ctx :=
         {| model := INil; collection := "User"; logCollection := "ChangeLog";
            Query := None; Sort := Some ["name"; "-"]; Skip := 0; Limit := 0;
            Operator := "alice"; Reason := "" |};
       world := Sample.world_of [Sample.user_doc 1 "A" false] [] |} in
  ∃ s', run_read OpFindAll s = Panic "Sort: empty field name" s'
        ∧ Query (ctx s') = Some [("$and", VSlice SIface rmQ)]
        ∧ trace (world s') = [].
Proof.
  intros s. eexists. split; [|split].
  - apply (empty_sort_field_panics OpFindAll s
             [("$and", VSlice SIface rmQ)] ["name"; "-"] "-");
      [reflexivity..| |right; left; reflexivity].
    apply list_elem_of_In. right. left. reflexivity.
  - reflexivity.
  - reflexivity.
Defined.

(* ===================================================================== *)
(** ** Beyond the claims: the model after a write that failed *)
(* ===================================================================== *)


